(** * pcpp: a shallow embedding of the preprocessor engine of [pcpp.py]

    The embedding follows [src/pcpp/pcpp.py] function by function.

    - Tokens are Python objects: they live in a store ([heap]) and token
      lists hold references into it, so that [copy.copy], attribute
      assignment and the aliasing of argument tokens are visible.
    - The [expanded_from] attribute is a Python list object; it lives in a
      second store ([lists]) because [copy.copy] of a token shares it.
    - [Preprocessor] fields are the fields of [state]; what [print] writes
      is the [stdout] field, the files opened by [open] are logged in
      [opens], the tokens a generator yields are appended to [yielded].
    - A Python exception that leaves a method is the [Raise] result.
    - The lexer (PLY) is an external collaborator: the embedding starts
      from logical lines of tokens, as [group_lines] yields them, with the
      token types of the default lexer defined at the top of the file. *)

From Stdlib Require Import Ascii String.
From stdpp Require Import gmap strings list pretty.

Open Scope string_scope.
Open Scope Z_scope.
Open Scope list_scope.

(** ** Tokens and macros *)

(** References to token objects are addresses in the store. *)
Abbreviation ref := nat (only parsing).

(** [source]: [None] when the attribute is missing ([hasattr] is false),
    [Some None] when it is Python's [None], [Some (Some s)] for a string.
    [expanded_from]: [None] when the attribute is missing, otherwise the
    address of the list object in [lists]. *)
Record token := Token {
  ttype : string;
  value : string;
  lineno : Z;
  source : option (option string);
  expanded_from : option nat
}.

Definition dummy_token : token := Token "" "" 0 None None.

Definition set_ttype (s : string) (t : token) : token :=
  Token s (value t) (lineno t) (source t) (expanded_from t).
Definition set_value (s : string) (t : token) : token :=
  Token (ttype t) s (lineno t) (source t) (expanded_from t).
Definition set_lineno (n : Z) (t : token) : token :=
  Token (ttype t) (value t) n (source t) (expanded_from t).
Definition set_source (s : option string) (t : token) : token :=
  Token (ttype t) (value t) (lineno t) (Some s) (expanded_from t).
Definition set_expanded_from (l : nat) (t : token) : token :=
  Token (ttype t) (value t) (lineno t) (source t) (Some l).

(** Token types discovered by [lexprobe] on the default lexer. *)
Definition t_ID : string := "CPP_ID".
Definition t_INTEGER : string := "CPP_INTEGER".
Definition t_STRING : string := "CPP_STRING".
Definition t_SPACE : string := "CPP_WS".
Definition t_NEWLINE : string := "CPP_WS".
Definition t_WS : list string := [t_SPACE; t_NEWLINE].

Definition in_t_WS (t : token) : bool := bool_decide (ttype t ∈ t_WS).

Inductive ptype := PExpand | PConcat.

(** [arglist = None] is Python's [None]: an object-like macro. *)
Record Macro := MkMacro {
  name : string;
  mvalue : list ref;
  arglist : option (list string);
  variadic : bool;
  vararg : string;
  patch : list (ptype * nat * nat);
  str_patch : list (nat * nat);
  var_comma_patch : list nat
}.

(** ** The preprocessor object and the outcome of a method call *)

Record state := State {
  heap : list token;
  lists : list (list string);
  macros : gmap string Macro;
  path : list string;
  temp_path : list string;
  return_code : Z;
  stdout : list string;
  stderr : list string;
  opens : list string;
  yielded : list ref
}.

Definition with_heap (h : list token) (s : state) : state :=
  State h (lists s) (macros s) (path s) (temp_path s) (return_code s)
        (stdout s) (stderr s) (opens s) (yielded s).
Definition with_lists (l : list (list string)) (s : state) : state :=
  State (heap s) l (macros s) (path s) (temp_path s) (return_code s)
        (stdout s) (stderr s) (opens s) (yielded s).
Definition with_macros (m : gmap string Macro) (s : state) : state :=
  State (heap s) (lists s) m (path s) (temp_path s) (return_code s)
        (stdout s) (stderr s) (opens s) (yielded s).
Definition with_temp_path (p : list string) (s : state) : state :=
  State (heap s) (lists s) (macros s) (path s) p (return_code s)
        (stdout s) (stderr s) (opens s) (yielded s).
Definition with_opens (o : list string) (s : state) : state :=
  State (heap s) (lists s) (macros s) (path s) (temp_path s) (return_code s)
        (stdout s) (stderr s) o (yielded s).
Definition with_yielded (y : list ref) (s : state) : state :=
  State (heap s) (lists s) (macros s) (path s) (temp_path s) (return_code s)
        (stdout s) (stderr s) (opens s) y.

Inductive exn := IndexError | KeyError | AttributeError | TypeError.

Inductive result (A : Type) :=
| Ok (a : A) (s : state)
| Raise (e : exn) (s : state)
| OutOfFuel.
Arguments Ok {A} a s.
Arguments Raise {A} e s.
Arguments OutOfFuel {A}.

Definition M (A : Type) : Type := state → result A.

Definition ret {A} (a : A) : M A := fun s => Ok a s.
Definition raise {A} (e : exn) : M A := fun s => Raise e s.
Definition bind {A B} (m : M A) (k : A → M B) : M B :=
  fun s => match m s with
           | Ok a s' => k a s'
           | Raise e s' => Raise e s'
           | OutOfFuel => OutOfFuel
           end.
Definition get : M state := fun s => Ok s s.
Definition modify (f : state → state) : M unit := fun s => Ok tt (f s).

Notation "x <- c1 ;; c2" := (bind c1 (fun x => c2))
  (at level 100, c1 at next level, right associativity).
Notation "c1 ;;; c2" := (bind c1 (fun _ => c2))
  (at level 100, right associativity).

(** [l[i]] on a Python list, for [i >= 0]. *)
Definition index {A} (l : list A) (i : nat) : M A :=
  match l !! i with Some a => ret a | None => raise IndexError end.

(** [l[-1]]. *)
Definition index_last {A} (l : list A) : M A :=
  match last l with Some a => ret a | None => raise IndexError end.

(** Reading a token through its reference. *)
Definition tok (h : list token) (r : ref) : token := default dummy_token (h !! r).

Definition deref (r : ref) : M token := fun s => Ok (tok (heap s) r) s.

Definition assign (r : ref) (f : token → token) : M unit :=
  modify (fun s => with_heap (<[r := f (tok (heap s) r)]> (heap s)) s).

(** A new token object. *)
Definition alloc (t : token) : M ref :=
  fun s => Ok (length (heap s)) (with_heap (heap s ++ [t]) s).

(** [copy.copy(tok)]: a new object with the same attribute values; an
    [expanded_from] list is shared with the original. *)
Definition copy_token (r : ref) : M ref := t <- deref r ;; alloc t.

Fixpoint copy_tokens (rs : list ref) : M (list ref) :=
  match rs with
  | [] => ret []
  | r :: rs' => c <- copy_token r ;; cs <- copy_tokens rs' ;; ret (c :: cs)
  end.

(** [tok.source]; the attribute may be missing. *)
Definition get_source (t : token) : M (option string) :=
  match source t with Some s => ret s | None => raise AttributeError end.

(** ** error() *)

Definition str_of_file (file : option string) : string :=
  match file with Some s => s | None => "None" end.

(** ["%s:%d %s" % (file,line,msg)] *)
Definition format_error (file : option string) (line : Z) (msg : string) : string :=
  str_of_file file +:+ ":" +:+ pretty line +:+ " " +:+ msg.

Definition error (file : option string) (line : Z) (msg : string) : M unit :=
  modify (fun s =>
    State (heap s) (lists s) (macros s) (path s) (temp_path s)
          (return_code s + 1)
          (stdout s ++ [format_error file line msg]) (stderr s)
          (opens s) (yielded s)).

(** [self.error(tok.source, tok.lineno, msg)] *)
Definition error_at (t : token) (msg : string) : M unit :=
  src <- get_source t ;; error src (lineno t) msg.

(** ** tokenstrip() and collect_args()

    Both only read the [type] and [value] of tokens; they are written over
    any representation [A] of a token with a view [tk : A -> token], used
    with references ([tk := tok h]) by the engine. *)

Section TokenUtilities.
Context {A : Type} (tk : A → token).

Definition is_ws (a : A) : bool := in_t_WS (tk a).

Fixpoint lstrip (l : list A) : list A :=
    match l with
    | a :: l' => if is_ws a then lstrip l' else l
    | [] => []
    end.

Definition tokenstrip (tokens : list A) : list A :=
    reverse (lstrip (reverse (lstrip tokens))).

  (** The search for the opening parenthesis: the index of the first token
      that is not whitespace. *)
Fixpoint skip_ws (l : list A) (i : nat) : nat :=
    match l with
    | a :: l' => if is_ws a then skip_ws l' (S i) else i
    | [] => i
    end.

  (** The main loop, on the tokens from index [i] on. [None]: the loop ran
      to the end of the list. *)
Fixpoint collect_loop (rest : list A) (i : nat) (nesting : Z)
      (current_arg : list A) (args : list (list A)) (positions : list nat)
      : option (nat * list (list A) * list nat) :=
    match rest with
    | [] => None
    | t :: rest' =>
      if String.eqb (value (tk t)) "(" then
        collect_loop rest' (S i) (nesting + 1) (current_arg ++ [t]) args positions
      else if String.eqb (value (tk t)) ")" then
        if (nesting - 1 =? 0)%Z then
          Some (S i, args ++ [tokenstrip current_arg], positions ++ [i])
        else
          collect_loop rest' (S i) (nesting - 1) (current_arg ++ [t]) args positions
      else if String.eqb (value (tk t)) "," && (nesting =? 1)%Z then
        collect_loop rest' (S i) nesting []
                     (args ++ [tokenstrip current_arg]) (positions ++ [S i])
      else
        collect_loop rest' (S i) nesting (current_arg ++ [t]) args positions
    end.

Definition collect_args (tokenlist : list A) (ignore_errors : bool)
      : M (nat * list (list A) * list nat) :=
    let i := skip_ws tokenlist 0 in
    match tokenlist !! i with
    | Some t =>
      if String.eqb (value (tk t)) "(" then
        match collect_loop (drop (S i) tokenlist) (S i) 1 [] [] [S i] with
        | Some r => ret r
        | None =>
          (if ignore_errors then ret tt
           else t <- index_last tokenlist ;;
                error_at (tk t) "Missing ')' in macro arguments") ;;;
          ret (0%nat, [], [])
        end
      else
        (if ignore_errors then ret tt
         else t <- index tokenlist 0 ;;
              error_at (tk t) "Missing '(' in macro arguments") ;;;
        ret (0%nat, [], [])
    | None =>
      (if ignore_errors then ret tt
       else t <- index tokenlist 0 ;;
            error_at (tk t) "Missing '(' in macro arguments") ;;;
      ret (0%nat, [], [])
    end.
End TokenUtilities.

(** ** Python list and string primitives used by the engine *)

(** [l[a:b]] for [0 <= a]. *)
Definition slice {A} (l : list A) (a b : nat) : list A := take (b - a) (drop a l).

(** [l[a:b] = x] for [0 <= a <= b]. *)
Definition splice {A} (l : list A) (a b : nat) (x : list A) : list A :=
  take a l ++ x ++ drop b l.

(** [del l[i]] for an index in range. *)
Definition del_at {A} (l : list A) (i : nat) : list A := take i l ++ drop (S i) l.

(** [x in l] and [l.index(x)] on lists of strings. *)
Definition str_in (x : string) (l : list string) : bool := bool_decide (x ∈ l).

Fixpoint str_index (x : string) (l : list string) : option nat :=
  match l with
  | [] => None
  | y :: l' => if String.eqb x y then Some 0%nat else S <$> str_index x l'
  end.

(** ["".join(l)] *)
Definition join (l : list string) : string := foldr String.append "" l.

(** [s.replace(old, new)] for a non-empty [old]: occurrences are replaced
    from left to right, without overlap. *)
Fixpoint replace_fuel (n : nat) (old new s : string) : string :=
  match n with
  | O => s
  | S n' =>
    if String.prefix old s then
      new +:+ replace_fuel n' old new
                (String.substring (String.length old)
                                  (String.length s - String.length old) s)
    else match s with
         | EmptyString => EmptyString
         | String c s' => String c (replace_fuel n' old new s')
         end
  end.

Definition replace (old new s : string) : string :=
  replace_fuel (S (String.length s)) old new s.

(** [s[-3:]] *)
Definition last3 (s : string) : string :=
  String.substring (String.length s - 3) 3 s.

(** [s[:-3]] *)
Definition drop_last3 (s : string) : string :=
  String.substring 0 (String.length s - 3) s.

(** The objects behind [expanded_from]. *)
Definition alloc_list : M nat :=
  fun s => Ok (length (lists s)) (with_lists (lists s ++ [[]]) s).

Definition read_list (l : nat) : M (list string) :=
  fun s => Ok (default [] (lists s !! l)) s.

Definition append_list (l : nat) (x : string) : M unit :=
  modify (fun s => with_lists (<[l := default [] (lists s !! l) ++ [x]]> (lists s)) s).

(** [if not hasattr(tok, 'expanded_from'): tok.expanded_from = []] *)
Definition ensure_expanded_from (r : ref) : M unit :=
  t <- deref r ;;
  match expanded_from t with
  | Some _ => ret tt
  | None => l <- alloc_list ;; assign r (set_expanded_from l)
  end.

Fixpoint for_each {A} (f : A → M unit) (l : list A) : M unit :=
  match l with
  | [] => ret tt
  | a :: l' => f a ;;; for_each f l'
  end.

(** ** macro_prescan() *)

(** [patch.sort(key=lambda x: x[2], reverse=True)]: a stable sort by
    descending position. *)
Fixpoint insert_patch (p : ptype * nat * nat) (l : list (ptype * nat * nat))
    : list (ptype * nat * nat) :=
  match l with
  | [] => [p]
  | q :: l' => if (q.2 <? p.2)%nat then p :: l else q :: insert_patch p l'
  end.

Definition sort_patch (l : list (ptype * nat * nat)) : list (ptype * nat * nat) :=
  foldl (fun acc p => insert_patch p acc) [] l.

(** [j = i - 1; while j >= 0 and value[j].type in t_WS: j -= 1], on the
    tokens before [i] in reverse order: [Some j] for the index found,
    [None] for [j = -1]. *)
Fixpoint back_skip_ws (h : list token) (rev_before : list ref) (j : nat) : option nat :=
  match rev_before with
  | [] => None
  | r :: l' => if in_t_WS (tok h r) then
                  match j with O => None | S j' => back_skip_ws h l' j' end
               else Some j
  end.

Definition val_at (h : list token) (l : list ref) (i : nat) : option string :=
  (fun r => value (tok h r)) <$> l !! i.

Record prescan_state := Prescan {
  ps_value : list ref;
  ps_patch : list (ptype * nat * nat);
  ps_str_patch : list (nat * nat);
  ps_var_comma_patch : list nat
}.

(** One iteration of the [while i < len(macro.value)] loop; the measure
    [2 * len(value) - i] decreases, which [fuel] follows. *)
Fixpoint prescan_loop (fuel : nat) (args : list string) (is_variadic : bool)
    (va : string) (i : nat) (p : prescan_state) : M prescan_state :=
  match fuel with
  | O => fun _ => OutOfFuel
  | S fuel' =>
    let v := ps_value p in
    match v !! i with
    | None => ret p
    | Some r =>
      t <- deref r ;;
      s <- get ;;
      let h := heap s in
      if String.eqb (ttype t) t_ID && str_in (value t) args then
        match str_index (value t) args with
        | None => raise KeyError
        | Some argnum =>
          let j := back_skip_ws h (reverse (take i v)) (i - 1) in
          let hash := match j with
                      | Some j' => if bool_decide (val_at h v j' = Some "#")
                                   then Some j' else None
                      | None => None
                      end in
          match hash with
          | Some j' =>
            c <- copy_token r ;;
            assign c (set_ttype t_STRING) ;;;
            prescan_loop fuel' args is_variadic va j'
              (Prescan (take j' v ++ c :: drop (S i) v) (ps_patch p)
                       (ps_str_patch p ++ [(argnum, j')]) (ps_var_comma_patch p))
          | None =>
            if (0 <? i)%nat && bool_decide (val_at h v (i - 1) = Some "##") then
              prescan_loop fuel' args is_variadic va i
                (Prescan (del_at v (i - 1)) (ps_patch p ++ [(PConcat, argnum, (i - 1)%nat)])
                         (ps_str_patch p) (ps_var_comma_patch p))
            else if bool_decide (val_at h v (i + 1) = Some "##") then
              prescan_loop fuel' args is_variadic va (i + 1)
                (Prescan v (ps_patch p ++ [(PConcat, argnum, i)])
                         (ps_str_patch p) (ps_var_comma_patch p))
            else
              prescan_loop fuel' args is_variadic va (i + 1)
                (Prescan v (ps_patch p ++ [(PExpand, argnum, i)])
                         (ps_str_patch p) (ps_var_comma_patch p))
          end
        end
      else if String.eqb (value t) "##" then
        if is_variadic && (0 <? i)%nat
           && bool_decide (val_at h v (i - 1) = Some ",")
           && bool_decide ((fun r' => ttype (tok h r')) <$> v !! (i + 1)%nat = Some t_ID)
           && bool_decide (val_at h v (i + 1) = Some va)
        then
          prescan_loop fuel' args is_variadic va (i + 1)
            (Prescan v (ps_patch p) (ps_str_patch p) (ps_var_comma_patch p ++ [(i - 1)%nat]))
        else prescan_loop fuel' args is_variadic va (i + 1) p
      else prescan_loop fuel' args is_variadic va (i + 1) p
    end
  end.

(** [Macro(name, value, arglist, variadic)] followed by [macro_prescan]. *)
Definition macro_prescan (nm : string) (v : list ref) (args : list string)
    (is_variadic : bool) : M Macro :=
  va <- (if is_variadic then index_last args else ret "") ;;
  p <- prescan_loop (2 * length v + 1) args is_variadic va 0
         (Prescan v [] [] []) ;;
  ret (MkMacro nm (ps_value p) (Some args) is_variadic va
               (sort_patch (ps_patch p)) (ps_str_patch p) (ps_var_comma_patch p)).

(** ** macro_expand_args() *)

(** [for j in xrange(len(tokens)): if tokens[j].type in t_WS:
    tokens[j].value = ' '] -- the tokens are the caller's argument tokens. *)
Definition blank_ws (r : ref) : M unit :=
  t <- deref r ;;
  if in_t_WS t then assign r (set_value " ") else ret tt.

(** [while j < len(tokens) - 1: if tokens[j] and tokens[j+1] are
    whitespace: del tokens[j+1] else: j += 1]: of a run of whitespace
    tokens the first one stays. *)
Fixpoint collapse_ws (h : list token) (prev_ws : bool) (l : list ref) : list ref :=
  match l with
  | [] => []
  | a :: l' =>
    let w := in_t_WS (tok h a) in
    if prev_ws && w then collapse_ws h true l' else a :: collapse_ws h w l'
  end.

Definition quote : string := String (Ascii.ascii_of_nat 34) EmptyString.
Definition backslash : string := String (Ascii.ascii_of_nat 92) EmptyString.

(** The string a [str_patch] entry puts in place of the parameter. The
    list [args[argnum]] is copied, its tokens are not. *)
Definition stringize (arg : list ref) : M string :=
  for_each blank_ws arg ;;;
  s <- get ;;
  let tokens := collapse_ws (heap s) false arg in
  let str := join ((fun r => value (tok (heap s) r)) <$> tokens) in
  let str := replace quote (backslash +:+ quote)
               (replace backslash (backslash +:+ backslash) str) in
  ret (quote +:+ str +:+ quote).

(** [str_expansion] is a dictionary from argument numbers to strings. *)
Fixpoint apply_str_patch (args : list (list ref)) (sp : list (nat * nat))
    (str_expansion : gmap nat string) (rep : list ref) : M (list ref) :=
  match sp with
  | [] => ret rep
  | (argnum, i) :: sp' =>
    se <- match str_expansion !! argnum with
          | Some _ => ret str_expansion
          | None => arg <- index args argnum ;;
                    str <- stringize arg ;;
                    ret (<[argnum := str]> str_expansion)
          end ;;
    r <- index rep i ;;
    c <- copy_token r ;;
    str <- match se !! argnum with Some x => ret x | None => raise KeyError end ;;
    assign c (set_value str) ;;;
    apply_str_patch args sp' se (<[i := c]> rep)
  end.

(** [for i in macro.var_comma_patch: rep[i] = None] *)
Fixpoint mark_commas (vcp : list nat) (rep : list (option ref)) : M (list (option ref)) :=
  match vcp with
  | [] => ret rep
  | i :: vcp' =>
    if bool_decide (i < length rep)%nat then mark_commas vcp' (<[i := None]> rep)
    else raise IndexError
  end.

Section MacroExpandArgs.
  (** The recursive call [self.expand_macros(tokens)], with the default
      [expanding_from=[]]. *)
Variable expand_macros_rec : list ref → list string → M (list ref).

  (** The loop over [macro.patch]. [args] is the caller's list of
      argument lists: [expand_macros] expands [args[argnum]] in place and
      returns that same list, which [expanded[argnum]] then names. *)
Fixpoint apply_patch (pl : list (ptype * nat * nat)) (args : list (list ref))
      (expanded : list nat) (rep : list (option ref))
      : M (list (option ref) * list (list ref)) :=
    match pl with
    | [] => ret (rep, args)
    | (PConcat, argnum, i) :: pl' =>
      arg <- index args argnum ;;
      apply_patch pl' args expanded (splice rep i (S i) (Some <$> arg))
    | (PExpand, argnum, i) :: pl' =>
      if bool_decide (argnum ∈ expanded) then
        arg <- index args argnum ;;
        apply_patch pl' args expanded (splice rep i (S i) (Some <$> arg))
      else
        arg <- index args argnum ;;
        ex <- expand_macros_rec arg [] ;;
        apply_patch pl' (<[argnum := ex]> args) (argnum :: expanded)
                    (splice rep i (S i) (Some <$> ex))
    end.

  (** Returns the replacement and the caller's argument lists as the call
      leaves them. [rep] holds [None] where a comma was marked; the last
      step [[_i for _i in rep if _i]] drops the marks (without marks it
      changes nothing). *)
Definition macro_expand_args (macro : Macro) (args : list (list ref))
      : M (list ref * list (list ref)) :=
    rep <- copy_tokens (mvalue macro) ;;
    rep <- apply_str_patch args (str_patch macro) ∅ rep ;;
    let rep := Some <$> rep in
    last_arg <- (if variadic macro then index_last args else ret []) ;;
    rep <- (if variadic macro && bool_decide (last_arg = [])
            then mark_commas (var_comma_patch macro) rep else ret rep) ;;
    ra <- apply_patch (patch macro) args [] rep ;;
    ret (omap id ra.1, ra.2).
End MacroExpandArgs.

(** ** expand_macros() *)

(** The body of [for e in ex:] after an expansion of the token [t]. *)
Definition stamp (t : ref) (e : ref) : M unit :=
  tt_ <- deref t ;;
  assign e (set_lineno (lineno tt_)) ;;;
  ensure_expanded_from e ;;;
  te <- deref e ;;
  match expanded_from te with
  | Some l => append_list l (value tt_)
  | None => raise AttributeError
  end.

(** [t.type = self.t_INTEGER; t.value = self.t_INTEGER_TYPE(t.lineno)];
    [t_INTEGER_TYPE] is [str]. *)
Definition line_token (t : token) : token :=
  set_value (pretty (lineno t)) (set_ttype t_INTEGER t).

Definition arity_message (nm : string) (need got : nat) : string :=
  "Macro " +:+ nm +:+ " requires " +:+ pretty need
  +:+ " arguments but was passed " +:+ pretty got.

Definition variadic_message (nm : string) (nargs : nat) : string :=
  "Macro " +:+ nm +:+ " must have at least " +:+ pretty (Z.of_nat nargs - 1)
  +:+ (if (2 <? nargs)%nat then " arguments" else " argument").

(** The argument lists handed to [macro_expand_args] once the arity is
    accepted. A variadic [Macro] has a non-empty [arglist] (its
    constructor reads [arglist[-1]]). *)
Definition adjust_args (m : Macro) (al : list string) (tokens : list ref)
    (j tokcount : nat) (args : list (list ref)) (positions : list nat)
    : M (list (list ref)) :=
  if variadic m then
    if (Z.of_nat (length args) =? Z.of_nat (length al) - 1)%Z then ret (args ++ [[]])
    else
      match al with
      | [] => raise IndexError
      | _ :: _ =>
        let k := (length al - 1)%nat in
        p <- index positions k ;;
        if bool_decide (k < length args)%nat then
          ret (take (length al)
                    (<[k := slice tokens (j + p) (j + tokcount - 1)]> args))
        else raise IndexError
      end
  else ret (args ++ replicate (length al - length args) []).

Section ExpandStep.
  (** The two recursive calls of the loop body: [self.expand_macros] and
      the next iteration of the [while] loop. *)
Variable expand_macros_rec : list ref → list string → M (list ref).
Variable expand_loop_rec : list ref → nat → list string → M (list ref).

  (** The [elif t.value == '__LINE__'] branch and [i += 1]. *)
Definition line_or_next (tokens : list ref) (i : nat) (expanding_from : list string)
      (r : ref) (t : token) : M (list ref) :=
    (if String.eqb (value t) "__LINE__" then assign r line_token else ret tt) ;;;
    expand_loop_rec tokens (S i) expanding_from.

  (** A macro with arguments, found at index [i]. *)
Definition expand_function_like (tokens : list ref) (i : nat)
      (expanding_from : list string) (r : ref) (t : token) (m : Macro)
      (al : list string) : M (list ref) :=
    s <- get ;;
    let j := skip_ws (tok (heap s)) (drop (S i) tokens) (S i) in
    if bool_decide (j = length tokens)
       || negb (bool_decide (val_at (heap s) tokens j = Some "(")) then
      expand_loop_rec tokens j expanding_from
    else
      c <- collect_args (tok (heap s)) (drop j tokens) true ;;
      let '(tokcount, args, positions) := c in
      if (tokcount =? 0)%nat then ret tokens
      else if negb (variadic m)
              && (negb (bool_decide (args = [[]])) || (1 <? length al)%nat)
              && negb (length args =? length al)%nat then
        error_at t (arity_message (value t) (length al) (length args)) ;;;
        expand_loop_rec tokens (j + tokcount)%nat expanding_from
      else if variadic m && (Z.of_nat (length args) <? Z.of_nat (length al) - 1)%Z then
        error_at t (variadic_message (value t) (length al)) ;;;
        expand_loop_rec tokens (j + tokcount)%nat expanding_from
      else
        args <- adjust_args m al tokens j tokcount args positions ;;
        ra <- macro_expand_args expand_macros_rec m args ;;
        t' <- deref r ;;
        ex <- expand_macros_rec ra.1 (expanding_from ++ [value t']) ;;
        for_each (stamp r) ex ;;;
        expand_loop_rec (splice tokens i (j + tokcount) ex) i expanding_from.

  (** One iteration of [while i < len(tokens)]. *)
Definition expand_step (tokens : list ref) (i : nat) (expanding_from : list string)
      : M (list ref) :=
    match tokens !! i with
    | None => ret tokens
    | Some r =>
      t <- deref r ;;
      if String.eqb (ttype t) t_ID then
        s <- get ;;
        match macros s !! value t with
        | None => line_or_next tokens i expanding_from r t
        | Some m =>
          ef <- match expanded_from t with
                | Some l => read_list l
                | None => raise AttributeError
                end ;;
          if negb (str_in (value t) ef) && negb (str_in (value t) expanding_from) then
            match arglist m with
            | None =>
              rep <- copy_tokens (mvalue m) ;;
              ex <- expand_macros_rec rep (expanding_from ++ [value t]) ;;
              for_each (stamp r) ex ;;;
              expand_loop_rec (splice tokens i (S i) ex) i expanding_from
            | Some al => expand_function_like tokens i expanding_from r t m al
            end
          else line_or_next tokens i expanding_from r t
        end
      else expand_loop_rec tokens (S i) expanding_from
    end.
End ExpandStep.

(** The [while] loop of [expand_macros]; [fuel] bounds the number of
    iterations and nested calls that are followed. *)
Fixpoint expand_loop (fuel : nat) (tokens : list ref) (i : nat)
    (expanding_from : list string) : M (list ref) :=
  match fuel with
  | O => fun _ => OutOfFuel
  | S fuel' =>
    expand_step
      (fun toks ef => for_each ensure_expanded_from toks ;;; expand_loop fuel' toks 0 ef)
      (expand_loop fuel')
      tokens i expanding_from
  end.

Definition expand_macros (fuel : nat) (tokens : list ref) (expanding_from : list string)
    : M (list ref) :=
  for_each ensure_expanded_from tokens ;;;
  expand_loop fuel tokens 0 expanding_from.

(** ** define() and undef() *)

(** The removal of whitespace next to [##] in a replacement list. *)
Fixpoint strip_dpound_ws (h : list token) (l : list ref) : list ref :=
  match l with
  | [] => []
  | a :: l' =>
    match l' with
    | [] => [a]
    | b :: rest =>
      if in_t_WS (tok h a) && String.eqb (value (tok h b)) "##" then
        strip_dpound_ws h l'
      else if String.eqb (value (tok h a)) "##" && in_t_WS (tok h b) then
        a :: strip_dpound_ws h rest
      else a :: strip_dpound_ws h l'
    end
  end.

(** The [for a in args:] loop over the parameters of a function-like
    macro. [Some (args, variadic)]: the loop ended without [break] (the
    [else:] suite runs); [None]: it was left by [break]. *)
Fixpoint define_params (nm : token) (todo : list (list ref)) (done : list (list ref))
    (nargs : nat) (is_variadic : bool) : M (option (list (list ref) * bool)) :=
  match todo with
  | [] => ret (Some (done, is_variadic))
  | a :: todo' =>
    if is_variadic then
      error_at nm "No more arguments may follow a variadic argument" ;;;
      ret None
    else
      s <- get ;;
      let astr := join ((fun r => value (tok (heap s) r)) <$> a) in
      if String.eqb astr "..." then
        a0 <- index a 0 ;;
        assign a0 (set_ttype t_ID) ;;;
        assign a0 (set_value "__VA_ARGS__") ;;;
        define_params nm todo' (done ++ [[a0]]) nargs true
      else if String.eqb (last3 astr) "..."
              && bool_decide ((fun r => ttype (tok (heap s) r)) <$> a !! 0%nat = Some t_ID) then
        a0 <- index a 0 ;;
        t0 <- deref a0 ;;
        (if String.eqb (last3 (value t0)) "..."
         then assign a0 (set_value (drop_last3 (value t0))) else ret tt) ;;;
        define_params nm todo' (done ++ [[a0]]) nargs true
      else if bool_decide (a = []) && (nargs =? 1)%nat then
        define_params nm todo' (done ++ [a]) nargs is_variadic
      else
        match a with
        | [a0] =>
          if String.eqb (ttype (tok (heap s) a0)) t_ID then
            define_params nm todo' (done ++ [a]) nargs is_variadic
          else raise AttributeError
        | [] => raise IndexError
        | _ :: _ :: _ => raise AttributeError
        end
  end.

(** [[x[0].value for x in args]] *)
Fixpoint param_names (h : list token) (args : list (list ref)) : M (list string) :=
  match args with
  | [] => ret []
  | a :: args' =>
    a0 <- index a 0 ;;
    ns <- param_names h args' ;;
    ret (value (tok h a0) :: ns)
  end.

(** [define(tokens)] for a token list. *)
Definition define (tokens : list ref) : M unit :=
  nr <- index tokens 0 ;;
  nm <- deref nr ;;
  match tokens !! 1%nat with
  | None =>
    modify (fun s => with_macros
      (<[value nm := MkMacro (value nm) [] None false "" [] [] []]> (macros s)) s)
  | Some mr =>
    mtype <- deref mr ;;
    s <- get ;;
    if in_t_WS mtype then
      modify (fun s => with_macros
        (<[value nm := MkMacro (value nm) (tokenstrip (tok (heap s)) (drop 2 tokens))
                               None false "" [] [] []]> (macros s)) s)
    else if String.eqb (value mtype) "(" then
      c <- collect_args (tok (heap s)) (drop 1 tokens) false ;;
      let '(tokcount, args, positions) := c in
      ps <- define_params nm args [] (length args) false ;;
      match ps with
      | None => ret tt
      | Some (args, is_variadic) =>
        s <- get ;;
        let mvalue := strip_dpound_ws (heap s)
                        (tokenstrip (tok (heap s)) (drop (1 + tokcount) tokens)) in
        names <- (if bool_decide (args = [[]]) then ret []
                  else param_names (heap s) args) ;;
        m <- macro_prescan (value nm) mvalue names is_variadic ;;
        modify (fun s => with_macros (<[value nm := m]> (macros s)) s)
      end
    else error_at nm "Bad macro definition"
  end.

(** [undef(tokens)] *)
Definition undef (tokens : list ref) : M unit :=
  r <- index tokens 0 ;;
  t <- deref r ;;
  modify (fun s => with_macros (delete (value t) (macros s)) s).

(** ** Lines of tokens, as the line grouper yields them *)

Definition lexed (ty v : string) (line : Z) : token := Token ty v line None None.

(** [group_lines]: every token of a logical line is a new object whose
    [source] attribute is set to the source name. *)
Fixpoint load_line (src : option string) (l : list token) : M (list ref) :=
  match l with
  | [] => ret []
  | t :: l' => r <- alloc (set_source src t) ;; rs <- load_line src l' ;; ret (r :: rs)
  end.

Definition empty_state : state := State [] [] ∅ [] [] 0 [] [] [] [].

Definition values_of (s : state) (l : list ref) : list string :=
  (fun r => value (tok (heap s) r)) <$> l.

Definition run_values (m : M (list ref)) (s : state) : option (list string) :=
  match m s with
  | Ok l s' => Some (values_of s' l)
  | _ => None
  end.

Definition NL : string := String (Ascii.ascii_of_nat 10) EmptyString.

(** ** evalexpr() *)

Definition hex_digits : list ascii :=
  list_ascii_of_string "0123456789abcdefABCDEF".

(** [while value[-1] not in "0123456789abcdefABCDEF": value = value[:-1]],
    on the reversed characters; [None] is the [IndexError] of [value[-1]]
    on an empty string. *)
Fixpoint strip_suffix_rev (l : list ascii) : option (list ascii) :=
  match l with
  | [] => None
  | c :: l' => if bool_decide (c ∈ hex_digits) then Some l else strip_suffix_rev l'
  end.

Definition strip_suffix (s : string) : option string :=
  (fun l => string_of_list_ascii (reverse l))
    <$> strip_suffix_rev (reverse (list_ascii_of_string s)).

(** The scan after a [defined] token at index [i]: returns the final [j]
    and [result]. [rest] is [tokens[j:]]. *)
Fixpoint defined_scan (ti : token) (rest : list ref) (j : nat) (needparen : bool)
    (result : string) : M (nat * string) :=
  match rest with
  | [] => ret (j, result)
  | r :: rest' =>
    t <- deref r ;;
    if in_t_WS t then defined_scan ti rest' (S j) needparen result
    else if String.eqb (ttype t) t_ID then
      s <- get ;;
      let result := if bool_decide (is_Some (macros s !! value t)) then "1L" else "0L" in
      if negb needparen then ret (j, result)
      else defined_scan ti rest' (S j) needparen result
    else if String.eqb (value t) "(" then defined_scan ti rest' (S j) true result
    else if String.eqb (value t) ")" then ret (j, result)
    else error_at ti "Malformed defined()" ;;;
         defined_scan ti rest' (S j) needparen result
  end.

(** The first loop of [evalexpr]; [i] grows by one in every iteration
    and the list never grows, so [n = len(tokens)] iterations are enough. *)
Fixpoint defined_loop (n : nat) (tokens : list ref) (i : nat) : M (list ref) :=
  match n with
  | O => ret tokens
  | S n' =>
    match tokens !! i with
    | None => ret tokens
    | Some r =>
      t <- deref r ;;
      if String.eqb (ttype t) t_ID && String.eqb (value t) "defined" then
        jr <- defined_scan t (drop (S i) tokens) (S i) false "0L" ;;
        assign r (set_ttype t_INTEGER) ;;;
        assign r (set_value jr.2) ;;;
        defined_loop n' (take (S i) tokens ++ drop (S jr.1) tokens) (S i)
      else defined_loop n' tokens (S i)
    end
  end.

(** The loop [for i,t in enumerate(tokens)] after the expansion. *)
Fixpoint integerize (tokens : list ref) : M (list ref) :=
  match tokens with
  | [] => ret []
  | r :: tokens' =>
    t <- deref r ;;
    c <- (if String.eqb (ttype t) t_ID then
            c <- copy_token r ;;
            assign c (set_ttype t_INTEGER) ;;;
            assign c (set_value "0L") ;;;
            ret c
          else if String.eqb (ttype t) t_INTEGER then
            c <- copy_token r ;;
            match strip_suffix (value t) with
            | Some v => assign c (set_value v) ;;; ret c
            | None => raise IndexError
            end
          else ret r) ;;
    cs <- integerize tokens' ;;
    ret (c :: cs)
  end.

(** The text handed to the host's [eval]. *)
Definition rewrite_operators (expr : string) : string :=
  replace "!" " not " (replace "||" " or " (replace "&&" " and " expr)).

Section EvalExpr.
  (** The host's [eval] on the rewritten text: [None] when it raises an
      exception, the integer it returns otherwise. *)
Variable eval : string → option Z.
Variable fuel : nat.

Definition evalexpr (tokens : list ref) : M Z :=
    tokens <- defined_loop (length tokens) tokens 0 ;;
    tokens <- expand_macros fuel tokens [] ;;
    tokens <- integerize tokens ;;
    s <- get ;;
    let expr := rewrite_operators (join (values_of s tokens)) in
    match eval expr with
    | Some result => ret result
    | None =>
      r <- index tokens 0 ;;
      t <- deref r ;;
      error_at t "Couldn't evaluate expression" ;;;
      ret 0
    end.
End EvalExpr.

(** ** include() and parsegen() *)

(** [os.path.join(a, b)] and [os.path.dirname(p)] of [posixpath]. *)
Definition slash : ascii := ascii_of_nat 47.

Definition ends_with_slash (s : string) : bool :=
  match last (list_ascii_of_string s) with
  | Some c => bool_decide (c = slash)
  | None => false
  end.

Definition os_path_join (a b : string) : string :=
  if String.prefix "/" b then b
  else if String.eqb a "" || ends_with_slash a then a +:+ b
  else a +:+ "/" +:+ b.

Fixpoint rstrip_slash_rev (l : list ascii) : list ascii :=
  match l with
  | c :: l' => if bool_decide (c = slash) then rstrip_slash_rev l' else l
  | [] => []
  end.

Fixpoint drop_to_slash_rev (l : list ascii) : list ascii :=
  match l with
  | c :: l' => if bool_decide (c = slash) then l else drop_to_slash_rev l'
  | [] => []
  end.

Definition os_path_dirname (p : string) : string :=
  let head := drop_to_slash_rev (reverse (list_ascii_of_string p)) in
  let head := if bool_decide (rstrip_slash_rev head = []) then head
              else rstrip_slash_rev head in
  string_of_list_ascii (reverse head).

(** ['\n' in s] and [s.count('\n')] *)
Definition newline : ascii := ascii_of_nat 10.

Definition count_nl (s : string) : nat :=
  length (filter (fun c => c = newline) (list_ascii_of_string s)).

Definition has_nl (s : string) : bool := (0 <? count_nl s)%nat.

(** The locals of [parsegen]. *)
Record pstate := PState {
  enable : bool;
  iftrigger : bool;
  ifstack : list (bool * bool);
  chunk : list ref
}.

Definition yield_all (l : list ref) : M unit :=
  modify (fun s => with_yielded (yielded s ++ l) s).

(** The tokens of [__FILE__ "source"], from the engine's own lexer. *)
Definition file_define_tokens (src : string) : list token :=
  [Token t_ID "__FILE__" 2 None None; Token t_SPACE " " 2 None None;
   Token t_STRING (quote +:+ src +:+ quote) 2 None None].

Fixpoint alloc_all (l : list token) : M (list ref) :=
  match l with
  | [] => ret []
  | t :: l' => r <- alloc t ;; rs <- alloc_all l' ;; ret (r :: rs)
  end.

(** Index of the first [>] from index [i] on. *)
Fixpoint find_gt (h : list token) (rest : list ref) (i : nat) : option nat :=
  match rest with
  | [] => None
  | r :: rest' => if String.eqb (value (tok h r)) ">" then Some i else find_gt h rest' (S i)
  end.

Section Engine.
  (** The host's [eval]; the file system, as [open(name).read()] followed
      by the line grouper: [None] when [open] raises [IOError]; the fuel
      given to every call of [expand_macros]. *)
Variable eval : string → option Z.
Variable fs : string → option (list (list token)).
Variable fuel : nat.

  (** [for tok in self.expand_macros(chunk): yield tok] *)
Definition flush (chunk : list ref) : M unit :=
    ex <- expand_macros fuel chunk [] ;; yield_all ex.

Section Include.
Variable parsegen_rec : list (list token) → option string → M unit.

(** The suite of the [try:] once [open(iname)] has succeeded. *)
Definition enter_file (iname : string) (data : list (list token)) (filename : string)
    : M unit :=
  let dname := os_path_dirname iname in
  (if String.eqb dname "" then ret tt
   else modify (fun s => with_temp_path (dname :: temp_path s) s)) ;;;
  parsegen_rec data (Some filename) ;;;
  (if String.eqb dname "" then ret tt
   else s <- get ;;
        match temp_path s with
        | [] => raise IndexError
        | _ :: tp => modify (with_temp_path tp)
        end).

(** The loop [for p in path: ... else: ...] of [include]. *)
Fixpoint include_search (r0 : ref) (filename : string) (dirs : list string) : M unit :=
  match dirs with
  | [] =>
    t0 <- deref r0 ;;
    error_at t0 ("Couldn't find '" +:+ filename +:+ "'")
  | p :: dirs' =>
    let iname := os_path_join p filename in
    modify (fun s => with_opens (opens s ++ [iname]) s) ;;;
    match fs iname with
    | None => include_search r0 filename dirs'
    | Some data => enter_file iname data filename
    end
  end.

Definition include (tokens : list ref) : M unit :=
      match tokens with
      | [] => ret tt
      | r0 :: _ =>
        t0 <- deref r0 ;;
        tokens <- (if negb (String.eqb (value t0) "<")
                      && negb (String.eqb (ttype t0) t_STRING)
                   then ex <- expand_macros fuel tokens [] ;;
                        s <- get ;;
                        ret (tokenstrip (tok (heap s)) ex)
                   else ret tokens) ;;
        r0 <- index tokens 0 ;;
        t0 <- deref r0 ;;
        s <- get ;;
        if String.eqb (value t0) "<" then
          match find_gt (heap s) (drop 1 tokens) 1 with
          | None => error_at t0 "Malformed #include <...>"
          | Some i =>
            let filename := join (values_of s (slice tokens 1 i)) in
            include_search r0 filename (path s ++ [""] ++ temp_path s)
          end
        else if String.eqb (ttype t0) t_STRING then
          let filename := String.substring 1 (String.length (value t0) - 2) (value t0) in
          include_search r0 filename (temp_path s ++ [""] ++ path s)
        else error_at t0 "Malformed #include statement"
      end.

    (** The conditional directives; [name] is the directive's name. *)
Definition conditional (name : string) (args dirtokens : list ref) (p : pstate)
        : M pstate :=
      let push := (enable p, iftrigger p) :: ifstack p in
      if String.eqb name "ifdef" then
        if enable p then
          r <- index args 0 ;; t <- deref r ;; s <- get ;;
          if negb (bool_decide (is_Some (macros s !! value t)))
          then ret (PState false false push (chunk p))
          else ret (PState (enable p) true push (chunk p))
        else ret (PState (enable p) (iftrigger p) push (chunk p))
      else if String.eqb name "ifndef" then
        if enable p then
          r <- index args 0 ;; t <- deref r ;; s <- get ;;
          if bool_decide (is_Some (macros s !! value t))
          then ret (PState false false push (chunk p))
          else ret (PState (enable p) true push (chunk p))
        else ret (PState (enable p) (iftrigger p) push (chunk p))
      else if String.eqb name "if" then
        if enable p then
          result <- evalexpr eval fuel args ;;
          if (result =? 0)%Z
          then ret (PState false false push (chunk p))
          else ret (PState (enable p) true push (chunk p))
        else ret (PState (enable p) (iftrigger p) push (chunk p))
      else if String.eqb name "elif" then
        match ifstack p with
        | (outer_enable, _) :: _ =>
          if outer_enable then
            if enable p then ret (PState false (iftrigger p) (ifstack p) (chunk p))
            else if negb (iftrigger p) then
              result <- evalexpr eval fuel args ;;
              if negb (result =? 0)%Z
              then ret (PState true true (ifstack p) (chunk p))
              else ret p
            else ret p
          else ret p
        | [] =>
          r <- index dirtokens 0 ;; t <- deref r ;;
          error_at t "Misplaced #elif" ;;; ret p
        end
      else if String.eqb name "else" then
        match ifstack p with
        | (outer_enable, _) :: _ =>
          if outer_enable then
            if enable p then ret (PState false (iftrigger p) (ifstack p) (chunk p))
            else if negb (iftrigger p) then ret (PState true true (ifstack p) (chunk p))
            else ret p
          else ret p
        | [] =>
          r <- index dirtokens 0 ;; t <- deref r ;;
          error_at t "Misplaced #else" ;;; ret p
        end
      else if String.eqb name "endif" then
        match ifstack p with
        | (e, t) :: st => ret (PState e t st (chunk p))
        | [] =>
          r <- index dirtokens 0 ;; t <- deref r ;;
          error_at t "Misplaced #endif" ;;; ret p
        end
      else ret p.

    (** A directive line, after its name and arguments were split off. *)
Definition directive (name : string) (args dirtokens : list ref) (p : pstate)
        : M pstate :=
      if String.eqb name "define" then
        if enable p then
          flush (chunk p) ;;;
          define args ;;;
          ret (PState (enable p) (iftrigger p) (ifstack p) [])
        else ret p
      else if String.eqb name "include" then
        if enable p then
          flush (chunk p) ;;;
          s <- get ;;
          match macros s !! "__FILE__" with
          | None => raise KeyError
          | Some oldfile =>
            include args ;;;
            modify (fun s => with_macros (<["__FILE__" := oldfile]> (macros s)) s) ;;;
            ret (PState (enable p) (iftrigger p) (ifstack p) [])
          end
        else ret p
      else if String.eqb name "undef" then
        if enable p then
          flush (chunk p) ;;;
          undef args ;;;
          ret (PState (enable p) (iftrigger p) (ifstack p) [])
        else ret p
      else conditional name args dirtokens p.

    (** The body of [for x in lines:]. The line grouper yields no empty
        line; an empty [x] is passed over. *)
Definition parse_line (x : list ref) (p : pstate) : M pstate :=
      s <- get ;;
      let h := heap s in
      let i := skip_ws (tok h) x 0 in
      let i := if bool_decide (i < length x)%nat then i else (length x - 1)%nat in
      match x !! i with
      | None => ret p
      | Some r =>
        if String.eqb (value (tok h r)) "#" then
          let nls := filter (fun r' => in_t_WS (tok h r') && has_nl (value (tok h r'))) x in
          let p := PState (enable p) (iftrigger p) (ifstack p) (chunk p ++ nls) in
          let dirtokens := tokenstrip (tok h) (drop (S i) x) in
          match dirtokens with
          | d :: rest => directive (value (tok h d)) (tokenstrip (tok h) rest) dirtokens p
          | [] => directive "" [] dirtokens p
          end
        else
          if enable p
          then ret (PState (enable p) (iftrigger p) (ifstack p) (chunk p ++ x))
          else ret p
      end.

Fixpoint parse_lines (src : option string) (lines : list (list token)) (p : pstate)
        : M pstate :=
      match lines with
      | [] => ret p
      | l :: lines' =>
        x <- load_line src l ;;
        p <- parse_line x p ;;
        parse_lines src lines' p
      end.

    (** The body of [parsegen(input, source)] on the lines of [input]. *)
Definition parsegen_body (lines : list (list token)) (src : option string) : M unit :=
      let source := match src with Some s => s | None => "" end in
      d <- alloc_all (file_define_tokens source) ;;
      define d ;;;
      p <- parse_lines src lines (PState true false [] []) ;;
      flush (chunk p).
End Include.

  (** [depth] bounds the nesting of included files that is followed. *)
Fixpoint parsegen (depth : nat) (lines : list (list token)) (src : option string)
      : M unit :=
    match depth with
    | O => fun _ => OutOfFuel
    | S depth' => parsegen_body (parsegen depth') lines src
    end.

  (** [parse(input, source)] followed by the exhaustion of the generator. *)
Definition parse (depth : nat) (lines : list (list token)) (src : option string)
      : M unit :=
    (match src with
     | Some s =>
       let dname := os_path_dirname s in
       if String.eqb dname "" then ret tt
       else modify (fun st => with_temp_path (dname :: temp_path st) st)
     | None => ret tt
     end) ;;;
    parsegen depth lines src.
End Engine.

(** ** write() *)

(** [a in b] on strings: [a] occurs in [b] as a substring. *)
Fixpoint substring_of (a b : string) : bool :=
  String.prefix a b
  || match b with
     | EmptyString => false
     | String _ b' => substring_of a b'
     end.

(** [tok.type in self.t_SPACE or len(tok.value) == 0]; [t_SPACE] is a
    string, so [in] is the substring test. *)
Definition space_like (t : token) : bool :=
  substring_of (ttype t) t_SPACE || (String.length (value t) =? 0)%nat.

(** [s[0]] *)
Definition first_char (s : string) : M ascii :=
  match s with
  | EmptyString => raise IndexError
  | String c _ => ret c
  end.

(** The locals of [write] that live across lines, and what was written
    to [oh]. *)
Record wstate := WState {
  lastsource : option string;
  blankacc : list (list ref);
  blanklines : nat;
  written : list string
}.

(** The loop [for n in xrange(len(toks)-1, -1, -1)]; [n1] is [n + 1]. *)
Fixpoint collapse_spaces (n1 : nat) (toks : list ref) (first_ws : option nat)
    : M (list ref) :=
  match n1 with
  | O => ret toks
  | S n =>
    r <- index toks n ;;
    t <- deref r ;;
    match first_ws with
    | None =>
      if space_like t then collapse_spaces n toks (Some n)
      else collapse_spaces n toks None
    | Some fw =>
      if negb (substring_of (ttype t) t_SPACE) && (0 <? String.length (value t))%nat then
        let m := S n in
        let toks := take m toks ++ drop fw toks in
        rm <- index toks m ;;
        tm <- deref rm ;;
        c <- first_char (value tm) ;;
        (if bool_decide (c = " "%char) then assign rm (set_value " ") else ret tt) ;;;
        collapse_spaces n toks None
      else collapse_spaces n toks (Some fw)
    end
  end.

Definition line_marker (line : Z) (lastsource : option string) : string :=
  "# " +:+ pretty (line - 1)
  +:+ match lastsource with
      | None => ""
      | Some src => " " +:+ quote +:+ src +:+ quote
      end
  +:+ NL.

(** Whether the line marker is written, and the new [lastsource], for a
    line that is not blank and whose first token is [t0]. *)
Definition marker_decision (blanklines : nat) (lastsource : option string) (t0 : token)
    : bool * option string :=
  let emitlinedirective := (6 <? blanklines)%nat in
  match source t0 with
  | None => (emitlinedirective, lastsource)
  | Some src =>
    match lastsource with
    | None => (emitlinedirective, src)
    | Some ls =>
      if bool_decide (src = Some ls) then (emitlinedirective, lastsource)
      else (true, src)
    end
  end.

(** A line has been accumulated in [toks]. *)
Definition write_line (toks : list ref) (all_ws : bool) (w : wstate) : M wstate :=
  if all_ws then
    toks <- (if (1 <? length toks)%nat then t <- index_last toks ;; ret [t]
             else ret toks) ;;
    r0 <- index toks 0 ;;
    t0 <- deref r0 ;;
    ret (WState (lastsource w) (blankacc w ++ [toks])
                (blanklines w + count_nl (value t0)) (written w))
  else
    r0 <- index toks 0 ;;
    t0 <- deref r0 ;;
    let d := marker_decision (blanklines w) (lastsource w) t0 in
    toks <- collapse_spaces (length toks) toks None ;;
    r0 <- index toks 0 ;;
    t0 <- deref r0 ;;
    s <- get ;;
    let head :=
      if d.1 then [line_marker (lineno t0) d.2]
      else if (0 <? blanklines w)%nat then values_of s (concat (blankacc w))
      else [] in
    ret (WState d.2 [] 0 (written w ++ head ++ values_of s toks)).

(** The loops of [write] over the tokens that [token()] returns; [toks]
    and [all_ws] are the line under accumulation. *)
Fixpoint write_stream (stream : list ref) (toks : list ref) (all_ws : bool)
    (w : wstate) : M wstate :=
  match stream with
  | [] =>
    match toks with
    | [] => ret w
    | _ :: _ => write_line toks all_ws w
    end
  | r :: stream' =>
    t <- deref r ;;
    c <- first_char (value t) ;;
    if bool_decide (c = newline) then
      w <- write_line (toks ++ [r]) all_ws w ;;
      write_stream stream' [] true w
    else
      write_stream stream' (toks ++ [r]) (all_ws && in_t_WS t) w
  end.

(** [token()] skips the tokens whose type is in [self.ignore]. *)
Definition token_stream (ignore : list string) (s : state) : list ref :=
  filter (fun r => ttype (tok (heap s) r) ∉ ignore) (yielded s).

Definition write (ignore : list string) : M (list string) :=
  s <- get ;;
  w <- write_stream (token_stream ignore s) [] true (WState None [] 0 []) ;;
  ret (written w).

(** ** The specification's reading of argument collection

    These definitions follow the words of the specification, not the
    code: the parenthesis that closes the argument list, and the split of
    the tokens before it at the commas outside nested parentheses. *)

Section ArgsSpec.
Context {A : Type} (tk : A → token).

Definition spelled (v : string) (a : A) : bool := String.eqb (value (tk a)) v.

  (** Index in [l] of the parenthesis that closes the one opened before
      [l]; [depth] counts the parentheses opened inside [l] so far. *)
Fixpoint closing_paren (depth : nat) (l : list A) : option nat :=
    match l with
    | [] => None
    | t :: l' =>
      if spelled "(" t then S <$> closing_paren (S depth) l'
      else if spelled ")" t then
        match depth with
        | O => Some 0%nat
        | S d => S <$> closing_paren d l'
        end
      else S <$> closing_paren depth l'
    end.

Definition cons_to_first (t : A) (ll : list (list A)) : list (list A) :=
    match ll with
    | cur :: rest => (t :: cur) :: rest
    | [] => [[t]]
    end.

  (** The pieces of [l] between its top-level commas. *)
Fixpoint split_top (depth : nat) (l : list A) : list (list A) :=
    match l with
    | [] => [[]]
    | t :: l' =>
      if spelled "(" t then cons_to_first t (split_top (S depth) l')
      else if spelled ")" t then cons_to_first t (split_top (pred depth) l')
      else if spelled "," t && (depth =? 0)%nat then [] :: split_top depth l'
      else cons_to_first t (split_top depth l')
    end.

  (** The number of whitespace tokens at the head of [l]. *)
Fixpoint leading_ws (l : list A) : nat :=
    match l with
    | a :: l' => if is_ws tk a then S (leading_ws l') else 0%nat
    | [] => 0%nat
    end.

  (** Tokens consumed and arguments of a well-formed argument list;
      [None] when the opening parenthesis is missing or the closing one
      is never found. *)
Definition collect_args_spec (tokenlist : list A) : option (nat * list (list A)) :=
    let ws := leading_ws tokenlist in
    match drop ws tokenlist with
    | lp :: after =>
      if spelled "(" lp then
        match closing_paren 0 after with
        | Some k =>
          Some ((ws + 1 + k + 1)%nat, tokenstrip tk <$> split_top 0 (take k after))
        | None => None
        end
      else None
    | [] => None
    end.
End ArgsSpec.

(** The state after one diagnostic. *)
Definition diagnosed (file : option string) (line : Z) (msg : string) (s : state) : state :=
  State (heap s) (lists s) (macros s) (path s) (temp_path s) (return_code s + 1)
        (stdout s ++ [format_error file line msg]) (stderr s) (opens s) (yielded s).

(** * Theorems *)

(** ** Argument collection *)

Section CollectArgsFacts.
Context {A : Type} (tk : A → token).

Lemma skip_ws_leading (l : list A) (i : nat) :
    skip_ws tk l i = (i + leading_ws tk l)%nat.
  Proof.
    revert i. induction l as [|a l IH]; intros i; simpl; [lia|].
    destruct (is_ws tk a); [rewrite IH|]; lia.
  Qed.

Lemma lookup_leading_ws (l : list A) :
    l !! leading_ws tk l = head (drop (leading_ws tk l) l).
  Proof.
    induction l as [|a l IH]; simpl; [done|].
    destruct (is_ws tk a); simpl; [apply IH|done].
  Qed.

Definition prepend (cur : list A) (ll : list (list A)) : list (list A) :=
    match ll with
    | x :: rest => (cur ++ x) :: rest
    | [] => [cur]
    end.

Lemma prepend_cons_to_first cur t ll :
    prepend (cur ++ [t]) ll = prepend cur (cons_to_first t ll).
  Proof. destruct ll; simpl; by rewrite <-?app_assoc. Qed.

Lemma split_top_nonempty d l : split_top tk d l ≠ [].
  Proof.
    revert d. induction l as [|t l IH]; intros d; simpl; [done|].
    repeat case_match; try done;
      match goal with |- cons_to_first _ ?x ≠ _ => destruct x; done end.
  Qed.

  (** The loop of [collect_args] against the two specification
      functions. *)
Lemma collect_loop_spec (after : list A) :
    ∀ (i d : nat) (cur : list A) (args : list (list A)) (pos : list nat),
      match closing_paren tk d after with
      | Some k =>
        ∃ pos', collect_loop tk after i (Z.of_nat d + 1) cur args pos
                = Some ((i + k + 1)%nat,
                        args ++ (tokenstrip tk <$> prepend cur (split_top tk d (take k after))),
                        pos')
      | None => collect_loop tk after i (Z.of_nat d + 1) cur args pos = None
      end.
  Proof.
    induction after as [|t after IH]; intros i d cur args pos; simpl; [done|].
    unfold spelled.
    destruct (String.eqb (value (tk t)) "(") eqn:Hl.
    - specialize (IH (S i) (S d) (cur ++ [t]) args pos).
      replace (Z.of_nat d + 1 + 1) with (Z.of_nat (S d) + 1) by lia.
      destruct (closing_paren tk (S d) after) as [k|]; simpl; [|done].
      destruct IH as [pos' ->]. exists pos'. unfold spelled. rewrite Hl.
      rewrite prepend_cons_to_first. do 3 f_equal. lia.
    - destruct (String.eqb (value (tk t)) ")") eqn:Hr.
      + destruct d as [|d].
        * simpl. eexists. rewrite Nat.add_0_r, Nat.add_1_r.
          by rewrite app_nil_r.
        * rewrite (proj2 (Z.eqb_neq _ _)) by lia.
          specialize (IH (S i) d (cur ++ [t]) args pos).
          replace (Z.of_nat (S d) + 1 - 1) with (Z.of_nat d + 1) by lia.
          destruct (closing_paren tk d after) as [k|]; simpl; [|done].
          destruct IH as [pos' ->]. exists pos'. unfold spelled. rewrite Hl, Hr.
          simpl. rewrite prepend_cons_to_first. do 3 f_equal. lia.
      + destruct (String.eqb (value (tk t)) ",") eqn:Hc; simpl.
        * destruct d as [|d].
          -- rewrite (proj2 (Z.eqb_eq (Z.of_nat 0 + 1) 1)) by lia.
             specialize (IH (S i) 0%nat [] (args ++ [tokenstrip tk cur]) (pos ++ [S i])).
             destruct (closing_paren tk 0 after) as [k|]; simpl; [|done].
             destruct IH as [pos' ->]. exists pos'. unfold spelled. rewrite Hl, Hr, Hc.
             simpl. rewrite <-app_assoc. simpl.
             pose proof (split_top_nonempty 0 (take k after)) as Hne.
             destruct (split_top tk 0 (take k after)); [done|]. simpl.
             rewrite app_nil_r. do 3 f_equal. lia.
          -- rewrite (proj2 (Z.eqb_neq (Z.of_nat (S d) + 1) 1)) by lia.
             specialize (IH (S i) (S d) (cur ++ [t]) args pos).
             destruct (closing_paren tk (S d) after) as [k|]; simpl; [|done].
             destruct IH as [pos' ->]. exists pos'. unfold spelled. rewrite Hl, Hr, Hc.
             simpl. rewrite prepend_cons_to_first. do 3 f_equal. lia.
        * specialize (IH (S i) d (cur ++ [t]) args pos).
          destruct (closing_paren tk d after) as [k|]; simpl; [|done].
          destruct IH as [pos' ->]. exists pos'. unfold spelled. rewrite Hl, Hr, Hc.
          simpl. rewrite prepend_cons_to_first. do 3 f_equal. lia.
  Qed.
End CollectArgsFacts.

Section CollectArgsTheorem.
Context {A : Type} (tk : A → token).

Lemma error_at_diagnosed (t : token) (msg : string) (s : state) :
    is_Some (source t) →
    ∃ file, error_at t msg s = Ok tt (diagnosed file (lineno t) msg s).
  Proof. intros [src Hsrc]. exists src. unfold error_at, get_source. by rewrite Hsrc. Qed.

Lemma last_elem_of (l : list A) (a : A) : last l = Some a → a ∈ l.
  Proof.
    rewrite last_lookup. intros H. eapply list_elem_of_lookup_2. exact H.
  Qed.

End CollectArgsTheorem.

(** The tokens of [(a, b)] and a run of the theorem on them. *)
Definition sample_args : list token :=
  [Token "(" "(" 1 (Some (Some "t.c")) None;
   Token t_ID "a" 1 (Some (Some "t.c")) None;
   Token "," "," 1 (Some (Some "t.c")) None;
   Token t_SPACE " " 1 (Some (Some "t.c")) None;
   Token t_ID "b" 1 (Some (Some "t.c")) None;
   Token ")" ")" 1 (Some (Some "t.c")) None].



(** ** Diagnostics: what [error] does, and the return code of a run *)

(** From [s] to [s'] some diagnostics were printed, and nothing else
    happened to the two channels and the return code. *)
Definition diag_rel (s s' : state) : Prop :=
  ∃ msgs, stdout s' = stdout s ++ msgs
          ∧ return_code s' = return_code s + Z.of_nat (length msgs)
          ∧ stderr s' = stderr s.

Lemma diag_rel_refl s : diag_rel s s.
Proof. exists []. rewrite app_nil_r. simpl. split_and!; [done|lia|done]. Qed.

Lemma diag_rel_trans s1 s2 s3 : diag_rel s1 s2 → diag_rel s2 s3 → diag_rel s1 s3.
Proof.
  intros (m1 & H1 & H2 & H3) (m2 & H4 & H5 & H6). exists (m1 ++ m2).
  rewrite H4, H1, H5, H2, H6, H3, app_assoc, length_app. split_and!; [done|lia|done].
Qed.

(** A computation keeps [diag_rel], however it ends. *)
Definition keeps_diag {A} (m : M A) : Prop :=
  ∀ s, match m s with
       | Ok _ s' | Raise _ s' => diag_rel s s'
       | OutOfFuel => True
       end.

Lemma keeps_ret {A} (a : A) : keeps_diag (ret a).
Proof. intros s. apply diag_rel_refl. Qed.

Lemma keeps_raise {A} (e : exn) : keeps_diag (@raise A e).
Proof. intros s. apply diag_rel_refl. Qed.

Lemma keeps_bind {A B} (m : M A) (k : A → M B) :
  keeps_diag m → (∀ a, keeps_diag (k a)) → keeps_diag (bind m k).
Proof.
  intros Hm Hk s. unfold bind. specialize (Hm s).
  destruct (m s) as [a s1|e s1|]; [|done|done].
  specialize (Hk a s1). destruct (k a s1); [| |done]; by eapply diag_rel_trans.
Qed.

Lemma keeps_get : keeps_diag get.
Proof. intros s. apply diag_rel_refl. Qed.

Lemma keeps_modify (f : state → state) :
  (∀ s, stdout (f s) = stdout s ∧ return_code (f s) = return_code s
        ∧ stderr (f s) = stderr s) →
  keeps_diag (modify f).
Proof.
  intros Hf s. simpl. destruct (Hf s) as (H1 & H2 & H3). exists [].
  rewrite app_nil_r. simpl. split_and!; [done|lia|done].
Qed.

Lemma keeps_error file line msg : keeps_diag (error file line msg).
Proof. intros s. exists [format_error file line msg]. simpl. split_and!; [done|lia|done]. Qed.

Lemma keeps_out_of_fuel {A} : keeps_diag (fun _ : state => @OutOfFuel A).
Proof. by intros s. Qed.

Lemma diag_rel_same s s' :
  stdout s' = stdout s → return_code s' = return_code s → stderr s' = stderr s →
  diag_rel s s'.
Proof.
  intros H1 H2 H3. exists []. rewrite app_nil_r. simpl. split_and!; [done|lia|done].
Qed.

Lemma keeps_alloc t : keeps_diag (alloc t).
Proof. intros s. by apply diag_rel_same. Qed.

Lemma keeps_alloc_list : keeps_diag alloc_list.
Proof. intros s. by apply diag_rel_same. Qed.

Lemma keeps_deref r : keeps_diag (deref r).
Proof. intros s. apply diag_rel_refl. Qed.

Lemma keeps_read_list l : keeps_diag (read_list l).
Proof. intros s. apply diag_rel_refl. Qed.

Create HintDb diag discriminated.

#[local] Hint Resolve keeps_ret keeps_raise keeps_get keeps_error keeps_out_of_fuel
  keeps_alloc keeps_alloc_list keeps_deref keeps_read_list : diag.

(** One step of a proof that a computation keeps [diag_rel]: through a
    bind, a [match], or to a fact already in the database. *)
Ltac diag_step :=
  first
    [ progress intros
    | solve [auto with diag]
    | apply keeps_bind
    | apply keeps_modify; intros; simpl; split_and!; reflexivity
    | match goal with
      | |- keeps_diag (match ?x with _ => _ end) => destruct x eqn:?
      | |- keeps_diag (let '(_, _) := ?x in _) => destruct x eqn:?
      end ].

Ltac diag_tac := repeat diag_step.

Lemma keeps_index {A} (l : list A) i : keeps_diag (index l i).
Proof. unfold index. diag_tac. Qed.

Lemma keeps_index_last {A} (l : list A) : keeps_diag (index_last l).
Proof. unfold index_last. diag_tac. Qed.

Lemma keeps_assign r f : keeps_diag (assign r f).
Proof. unfold assign. diag_tac. Qed.

Lemma keeps_append_list l x : keeps_diag (append_list l x).
Proof. unfold append_list. diag_tac. Qed.

#[local] Hint Resolve keeps_index keeps_index_last keeps_assign keeps_append_list : diag.

Lemma keeps_copy_token r : keeps_diag (copy_token r).
Proof. unfold copy_token. diag_tac. Qed.
#[local] Hint Resolve keeps_copy_token : diag.

Lemma keeps_copy_tokens rs : keeps_diag (copy_tokens rs).
Proof. induction rs; simpl; diag_tac. Qed.

Lemma keeps_get_source t : keeps_diag (get_source t).
Proof. unfold get_source. diag_tac. Qed.
#[local] Hint Resolve keeps_copy_tokens keeps_get_source : diag.

Lemma keeps_error_at t msg : keeps_diag (error_at t msg).
Proof. unfold error_at. diag_tac. Qed.
#[local] Hint Resolve keeps_error_at : diag.

Lemma keeps_for_each {A} (f : A → M unit) l :
  (∀ a, keeps_diag (f a)) → keeps_diag (for_each f l).
Proof. intros Hf. induction l; simpl; diag_tac. Qed.

Lemma keeps_ensure_expanded_from r : keeps_diag (ensure_expanded_from r).
Proof. unfold ensure_expanded_from. diag_tac. Qed.
#[local] Hint Resolve keeps_ensure_expanded_from : diag.

Lemma keeps_collect_args {A} (tk : A → token) l ie : keeps_diag (collect_args tk l ie).
Proof. unfold collect_args. diag_tac. Qed.

Lemma keeps_stamp t e : keeps_diag (stamp t e).
Proof. unfold stamp. diag_tac. Qed.

Lemma keeps_blank_ws r : keeps_diag (blank_ws r).
Proof. unfold blank_ws. diag_tac. Qed.
#[local] Hint Resolve keeps_collect_args keeps_stamp keeps_blank_ws : diag.

Lemma keeps_stringize arg : keeps_diag (stringize arg).
Proof. unfold stringize. diag_tac. apply keeps_for_each. diag_tac. Qed.
#[local] Hint Resolve keeps_stringize : diag.

Lemma keeps_apply_str_patch args sp se rep : keeps_diag (apply_str_patch args sp se rep).
Proof. revert se rep. induction sp as [|[argnum i] sp IH]; intros se rep; simpl; diag_tac. Qed.

Lemma keeps_mark_commas vcp rep : keeps_diag (mark_commas vcp rep).
Proof. revert rep. induction vcp; intros rep; simpl; diag_tac. Qed.
#[local] Hint Resolve keeps_apply_str_patch keeps_mark_commas : diag.

Lemma keeps_adjust_args m al tokens j tokcount args positions :
  keeps_diag (adjust_args m al tokens j tokcount args positions).
Proof. unfold adjust_args. diag_tac. Qed.
#[local] Hint Resolve keeps_adjust_args : diag.

Section ExpandKeepsDiag.
Variable em : list ref → list string → M (list ref).
Variable el : list ref → nat → list string → M (list ref).
Hypothesis Hem : ∀ toks ef, keeps_diag (em toks ef).
Hypothesis Hel : ∀ toks i ef, keeps_diag (el toks i ef).

Lemma keeps_apply_patch pl args expanded rep :
    keeps_diag (apply_patch em pl args expanded rep).
  Proof.
    revert args expanded rep.
    induction pl as [|[[pt argnum] i] pl IH]; intros args expanded rep; simpl; diag_tac.
  Qed.

Lemma keeps_macro_expand_args m args : keeps_diag (macro_expand_args em m args).
  Proof. unfold macro_expand_args. diag_tac; apply keeps_apply_patch. Qed.

Lemma keeps_expand_step tokens i ef : keeps_diag (expand_step em el tokens i ef).
  Proof.
    pose proof keeps_macro_expand_args.
    unfold expand_step, expand_function_like, line_or_next. diag_tac;
      try (apply keeps_for_each; diag_tac).
  Qed.
End ExpandKeepsDiag.

Lemma keeps_expand_loop fuel : ∀ tokens i ef, keeps_diag (expand_loop fuel tokens i ef).
Proof.
  induction fuel as [|fuel IH]; intros tokens i ef; simpl; [diag_tac|].
  apply keeps_expand_step; [|done].
  intros toks ef'. diag_tac. apply keeps_for_each. diag_tac.
Qed.

Lemma keeps_expand_macros fuel tokens ef : keeps_diag (expand_macros fuel tokens ef).
Proof.
  unfold expand_macros. diag_tac; [apply keeps_for_each; diag_tac|apply keeps_expand_loop].
Qed.
#[local] Hint Resolve keeps_expand_macros : diag.

Lemma keeps_prescan_loop fuel args v va : ∀ i p,
  keeps_diag (prescan_loop fuel args v va i p).
Proof. induction fuel as [|fuel IH]; intros i p; simpl; diag_tac. Qed.
#[local] Hint Resolve keeps_prescan_loop : diag.

Lemma keeps_macro_prescan nm v args b : keeps_diag (macro_prescan nm v args b).
Proof. unfold macro_prescan. diag_tac. Qed.
#[local] Hint Resolve keeps_macro_prescan : diag.

Lemma keeps_define_params nm todo : ∀ done nargs v,
  keeps_diag (define_params nm todo done nargs v).
Proof. induction todo as [|a todo IH]; intros done nargs v; simpl; diag_tac. Qed.

Lemma keeps_param_names h args : keeps_diag (param_names h args).
Proof. induction args; simpl; diag_tac. Qed.
#[local] Hint Resolve keeps_define_params keeps_param_names : diag.

Lemma keeps_define tokens : keeps_diag (define tokens).
Proof. unfold define. diag_tac. Qed.

Lemma keeps_undef tokens : keeps_diag (undef tokens).
Proof. unfold undef. diag_tac. Qed.
#[local] Hint Resolve keeps_define keeps_undef : diag.

Lemma keeps_defined_scan ti rest : ∀ j np res, keeps_diag (defined_scan ti rest j np res).
Proof. induction rest as [|r rest IH]; intros j np res; simpl; diag_tac. Qed.
#[local] Hint Resolve keeps_defined_scan : diag.

Lemma keeps_defined_loop n : ∀ tokens i, keeps_diag (defined_loop n tokens i).
Proof. induction n as [|n IH]; intros tokens i; simpl; diag_tac. Qed.

Lemma keeps_integerize tokens : keeps_diag (integerize tokens).
Proof. induction tokens; simpl; diag_tac. Qed.
#[local] Hint Resolve keeps_defined_loop keeps_integerize : diag.

Lemma keeps_evalexpr eval fuel tokens : keeps_diag (evalexpr eval fuel tokens).
Proof. unfold evalexpr. diag_tac. Qed.
#[local] Hint Resolve keeps_evalexpr : diag.

Lemma keeps_yield_all l : keeps_diag (yield_all l).
Proof. unfold yield_all. diag_tac. Qed.

Lemma keeps_alloc_all l : keeps_diag (alloc_all l).
Proof. induction l; simpl; diag_tac. Qed.

Lemma keeps_load_line src l : keeps_diag (load_line src l).
Proof. induction l; simpl; diag_tac. Qed.
#[local] Hint Resolve keeps_yield_all keeps_alloc_all keeps_load_line : diag.

Lemma keeps_flush fuel chunk : keeps_diag (flush fuel chunk).
Proof. unfold flush. diag_tac. Qed.
#[local] Hint Resolve keeps_flush : diag.

Section EngineKeepsDiag.
Variable eval : string → option Z.
Variable fs : string → option (list (list token)).
Variable fuel : nat.
Variable rec : list (list token) → option string → M unit.
Hypothesis Hrec : ∀ lines src, keeps_diag (rec lines src).

Lemma keeps_enter_file iname data filename :
  keeps_diag (enter_file rec iname data filename).
Proof. unfold enter_file. diag_tac. Qed.

Lemma keeps_include_search r0 filename dirs :
  keeps_diag (include_search fs rec r0 filename dirs).
Proof. pose proof keeps_enter_file. induction dirs; simpl; diag_tac. Qed.

Lemma keeps_include tokens : keeps_diag (include fs fuel rec tokens).
  Proof. pose proof keeps_include_search. unfold include. diag_tac. Qed.

Lemma keeps_conditional name args dirtokens p :
    keeps_diag (conditional eval fuel name args dirtokens p).
  Proof. unfold conditional. diag_tac. Qed.

Lemma keeps_directive name args dirtokens p :
    keeps_diag (directive eval fs fuel rec name args dirtokens p).
  Proof.
    pose proof keeps_include. pose proof keeps_conditional.
    unfold directive. diag_tac.
  Qed.

Lemma keeps_parse_line x p : keeps_diag (parse_line eval fs fuel rec x p).
  Proof. pose proof keeps_directive. unfold parse_line. diag_tac. Qed.

Lemma keeps_parse_lines src lines : ∀ p,
    keeps_diag (parse_lines eval fs fuel rec src lines p).
  Proof.
    pose proof keeps_parse_line.
    induction lines as [|l lines IH]; intros p; simpl; diag_tac.
  Qed.

Lemma keeps_parsegen_body lines src :
    keeps_diag (parsegen_body eval fs fuel rec lines src).
  Proof. pose proof keeps_parse_lines. unfold parsegen_body. diag_tac. Qed.
End EngineKeepsDiag.

Lemma keeps_parsegen eval fs fuel depth : ∀ lines src,
  keeps_diag (parsegen eval fs fuel depth lines src).
Proof.
  induction depth as [|depth IH]; intros lines src; simpl; [diag_tac|].
  by apply keeps_parsegen_body.
Qed.

Lemma keeps_parse eval fs fuel depth lines src :
  keeps_diag (parse eval fs fuel depth lines src).
Proof. pose proof keeps_parsegen. unfold parse. diag_tac. Qed.

(** C3 (as amended). [error] prints the message to the standard output
    in the form [<source>:<line> <message>], adds one to [return_code],
    writes nothing to the standard error and returns normally; and over
    a whole run of the engine from a state whose [return_code] is the
    number of lines printed so far, however the run ends, [return_code]
    has not decreased and is again the number of lines printed. *)
Theorem error_counts_diagnostics :
  (∀ file line msg s,
     error file line msg s
     = Ok tt (diagnosed file line msg s)
     ∧ stdout (diagnosed file line msg s)
       = stdout s ++ [str_of_file file +:+ ":" +:+ pretty line +:+ " " +:+ msg]
     ∧ return_code (diagnosed file line msg s) = return_code s + 1
     ∧ stderr (diagnosed file line msg s) = stderr s)
  ∧ (∀ eval fs fuel depth lines src s,
       return_code s = Z.of_nat (length (stdout s)) →
       match parse eval fs fuel depth lines src s with
       | Ok _ s' | Raise _ s' =>
         return_code s ≤ return_code s'
         ∧ return_code s' = Z.of_nat (length (stdout s'))
         ∧ stderr s' = stderr s
       | OutOfFuel => True
       end).
Proof.
  split.
  - intros file line msg s. done.
  - intros eval fs fuel depth lines src s Hs.
    pose proof (keeps_parse eval fs fuel depth lines src s) as H.
    destruct (parse eval fs fuel depth lines src s) as [a s'|e s'|]; [| |done];
      destruct H as (msgs & H1 & H2 & H3); rewrite H1, H2, length_app; split_and!;
        (lia || done).
Qed.

(** A file whose only line is a misplaced [#else]. *)
Definition misplaced_else : list (list token) :=
  [[lexed "#" "#" 1; lexed t_ID "else" 1; lexed t_NEWLINE NL 1]].

Lemma error_counts_diagnostics_witness :
  return_code empty_state = Z.of_nat (length (stdout empty_state))
  ∧ ∃ s', parse (fun _ => None) (fun _ => None) 5 2 misplaced_else (Some "t.c") empty_state
          = Ok tt s'
          ∧ stdout s' = ["t.c:1 Misplaced #else"]
          ∧ return_code empty_state ≤ return_code s'
          ∧ return_code s' = Z.of_nat (length (stdout s'))
          ∧ stderr s' = stderr empty_state.
Proof.
  split; [reflexivity|].
  pose proof (proj2 error_counts_diagnostics (fun _ => None) (fun _ => None) 5%nat 2%nat
                misplaced_else (Some "t.c") empty_state eq_refl) as H.
  destruct (parse (fun _ => None) (fun _ => None) 5 2 misplaced_else (Some "t.c")
              empty_state) as [[] s'|e s'|] eqn:Hrun; [|by vm_compute in Hrun..].
  exists s'. split; [reflexivity|]. split; [|exact H].
  vm_compute in Hrun. by injection Hrun as <-.
Defined.

(** C3, as stated, fails: the message goes to the standard output, the
    standard error stays empty. *)
Lemma error_prints_to_stdout :
  ∃ s', error (Some "a.c") 3 "Misplaced #else" empty_state = Ok tt s'
        ∧ stderr s' = []
        ∧ stdout s' = ["a.c:3 Misplaced #else"].
Proof. eexists. split; [reflexivity|]. by vm_compute. Qed.

(** ** The conditional-compilation state machine *)

Lemma bind_Ok_inv {A B} (m : M A) (k : A → M B) s b s' :
  bind m k s = Ok b s' → ∃ a s1, m s = Ok a s1 ∧ k a s1 = Ok b s'.
Proof. unfold bind. destruct (m s) as [a s1| |]; [eauto|done|done]. Qed.

Definition depth (p : pstate) : nat := length (ifstack p).

(** What a line can do to [enable], [iftrigger] and [ifstack]. *)
Inductive cond_move (p p' : pstate) : Prop :=
| move_stay :
    enable p' = enable p → iftrigger p' = iftrigger p → ifstack p' = ifstack p →
    cond_move p p'
| move_push :
    ifstack p' = (enable p, iftrigger p) :: ifstack p →
    (enable p = true ∧ enable p' = iftrigger p')
    ∨ (enable p = false ∧ enable p' = false ∧ iftrigger p' = iftrigger p) →
    cond_move p p'
| move_flip t st :
    ifstack p' = ifstack p → ifstack p = (true, t) :: st →
    (enable p = true ∧ enable p' = false ∧ iftrigger p' = iftrigger p)
    ∨ (enable p = false ∧ iftrigger p = false ∧ enable p' = true ∧ iftrigger p' = true) →
    cond_move p p'
| move_pop :
    ifstack p = (enable p', iftrigger p') :: ifstack p' →
    cond_move p p'.

Ltac inv_bind H :=
  let a := fresh "a" in
  let s1 := fresh "s" in
  let H1 := fresh "Hrun" in
  apply bind_Ok_inv in H as (a & s1 & H1 & H).

Ltac inv_ret H := unfold ret in H; injection H as <- <-.

Section ConditionalMoves.
Variable eval : string → option Z.
Variable fs : string → option (list (list token)).
Variable fuel : nat.
Variable rec : list (list token) → option string → M unit.

Lemma conditional_move name args dirtokens p s p' s' :
    conditional eval fuel name args dirtokens p s = Ok p' s' → cond_move p p'.
  Proof.
    unfold conditional. intros H.
    repeat match type of H with
           | (if ?b then _ else _) _ = _ => destruct b eqn:?
           | match ifstack p with _ => _ end _ = _ =>
               let Hst := fresh "Hst" in destruct (ifstack p) as [|[[] ?] ?] eqn:Hst
           | bind _ _ _ = _ => inv_bind H
           | ret _ _ = _ => inv_ret H
           end;
      repeat match goal with
             | Hn : negb _ = true |- _ => apply negb_true_iff in Hn
             | Hn : negb _ = false |- _ => apply negb_false_iff in Hn
             end;
      simpl in *;
      first
        [ by apply move_stay
        | apply move_push; simpl; [congruence|];
          first [left; split_and!; congruence | right; split_and!; congruence]
        | eapply move_flip; simpl; [done|eassumption|];
          first [left; split_and!; congruence | right; split_and!; congruence]
        | by apply move_pop ].
  Qed.

Lemma directive_move name args dirtokens p s p' s' :
    directive eval fs fuel rec name args dirtokens p s = Ok p' s' → cond_move p p'.
  Proof.
    unfold directive. intros H.
    repeat match type of H with
           | (if ?b then _ else _) _ = _ => destruct b eqn:?
           | match ?x with _ => _ end _ = _ => destruct x eqn:?
           | bind _ _ _ = _ => inv_bind H
           | ret _ _ = _ => inv_ret H
           | conditional _ _ _ _ _ _ _ = _ => apply conditional_move in H
           | raise _ _ = _ => discriminate H
           end; try done; by apply move_stay.
  Qed.

Lemma parse_line_move x p s p' s' :
    parse_line eval fs fuel rec x p s = Ok p' s' → cond_move p p'.
  Proof.
    unfold parse_line. intros H. inv_bind H. unfold get in *.
    repeat match type of H with
           | (if ?b then _ else _) _ = _ => destruct b eqn:?
           | match ?x with _ => _ end _ = _ => destruct x eqn:?
           | ret _ _ = _ => inv_ret H
           | directive _ _ _ _ _ _ _ _ _ = _ => apply directive_move in H
           end; try (by apply move_stay);
      destruct H; simpl in *;
        [ by apply move_stay | by apply move_push | by eapply move_flip | by apply move_pop
        | by apply move_stay | by apply move_push | by eapply move_flip | by apply move_pop ].
  Qed.
End ConditionalMoves.

(** One line of input takes the locals of [parsegen] from [p] to [p']. *)
Definition line_step (p p' : pstate) : Prop :=
  ∃ eval fs fuel rec x s s', parse_line eval fs fuel rec x p s = Ok p' s'.

(** [p'] is reached from [p] by lines during which the conditional stack
    never has fewer than [n] frames. *)
Inductive within_frame (n : nat) : pstate → pstate → Prop :=
| within_refl p : (n ≤ depth p)%nat → within_frame n p p
| within_step p q r :
    within_frame n p q → line_step q r → (n ≤ depth r)%nat → within_frame n p r.

(** The locals of [parsegen] before the first line. *)
Definition initial_pstate : pstate := PState true false [] [].

Definition reachable (p : pstate) : Prop := within_frame 0 initial_pstate p.

(** Inside a frame an enabled branch has been triggered; the same holds
    of the frames that are suspended on the stack. *)
Fixpoint stack_coherent (st : list (bool * bool)) : Prop :=
  match st with
  | [] => True
  | (e, t) :: st' => (st' ≠ [] → e = true → t = true) ∧ stack_coherent st'
  end.

Definition coherent (p : pstate) : Prop :=
  (ifstack p ≠ [] → enable p = true → iftrigger p = true) ∧ stack_coherent (ifstack p).

Lemma line_step_move p p' : line_step p p' → cond_move p p'.
Proof.
  intros (eval & fs & fuel & rec & x & s & s' & H). by eapply parse_line_move.
Qed.

Lemma coherent_move p p' : coherent p → cond_move p p' → coherent p'.
Proof.
  intros [Hp Hst] Hm. unfold coherent in *. destruct Hm as
    [He Ht Hs | Hs Hc | t st Hs Hs' Hc | Hs].
  - rewrite He, Ht, Hs. done.
  - rewrite Hs. simpl. split; [|done].
    intros _ He. destruct Hc as [[H1 H2]|(H1 & H2 & H3)]; congruence.
  - rewrite Hs. split; [|done]. intros Hne He.
    destruct Hc as [(H1 & H2 & H3)|(H1 & H2 & H3 & H4)]; congruence.
  - rewrite Hs in Hst. simpl in Hst. destruct Hst as [H1 H2]. done.
Qed.

Lemma within_frame_coherent n p q : coherent p → within_frame n p q → coherent q.
Proof.
  intros Hp. induction 1 as [p' _|p' q r _ IH Hstep _]; [done|].
  eapply coherent_move; [by apply IH|]. by apply line_step_move.
Qed.

Lemma reachable_coherent p : reachable p → coherent p.
Proof. apply within_frame_coherent. by split. Qed.

(** Once the frame of [p] has triggered, this pair of flags is not an
    enabled branch unless [p] itself was. *)
Definition after_trigger (p : pstate) (e t : bool) : Prop :=
  iftrigger p = true → t = true ∧ (e = true → enable p = true).

Definition frame_flags (p : pstate) (entries : list (bool * bool)) (q : pstate) : Prop :=
  match last entries with
  | None => after_trigger p (enable q) (iftrigger q)
  | Some (e, t) => after_trigger p e t
  end.

Lemma within_frame_stack n p q :
  within_frame n p q → depth p = n →
  ∃ entries, ifstack q = entries ++ ifstack p ∧ frame_flags p entries q.
Proof.
  intros Hrun Hn. induction Hrun as [p _|p q r _ IH Hstep Hr].
  - exists []. split; [done|]. by intros Ht.
  - destruct (IH Hn) as (entries & Hst & Hfl). clear IH.
    apply line_step_move in Hstep.
    destruct Hstep as [He Ht Hs | Hs Hc | t st Hs Hs' Hc | Hs].
    + exists entries. split; [congruence|].
      unfold frame_flags in *. destruct (last entries) as [[e t]|]; [done|].
      by rewrite He, Ht.
    + exists ((enable q, iftrigger q) :: entries). split; [by rewrite Hs, Hst|].
      unfold frame_flags in *. rewrite last_cons.
      destruct (last entries) as [[e t]|]; done.
    + exists entries. split; [congruence|].
      unfold frame_flags in *. destruct (last entries) as [[e t']|]; [done|].
      intros Hp. destruct (Hfl Hp) as [H1 H2].
      destruct Hc as [(H3 & H4 & H5)|(H3 & H4 & H5 & H6)]; [|congruence].
      split; [congruence|]. intros; congruence.
    + destruct entries as [|[e t] entries].
      * exfalso. unfold depth in *. rewrite Hst in Hs. simpl in Hs.
        rewrite Hs in Hn. simpl in Hn. lia.
      * rewrite Hs in Hst. simpl in Hst. injection Hst as He Ht Hst.
        exists entries. split; [done|].
        unfold frame_flags in *. rewrite last_cons in Hfl.
        destruct (last entries) as [[e' t']|]; [done|]. by subst.
Qed.

Lemma within_frame_same_depth n p q :
  within_frame n p q → depth p = n → depth q = n →
  ifstack q = ifstack p ∧ after_trigger p (enable q) (iftrigger q).
Proof.
  intros Hrun Hp Hq. destruct (within_frame_stack n p q Hrun Hp) as (entries & Hst & Hfl).
  assert (entries = []) as ->.
  { unfold depth in *. rewrite Hst, length_app in Hq.
    destruct entries; [done|]. simpl in Hq. lia. }
  done.
Qed.

Lemma cond_move_depth p p' :
  cond_move p p' →
  (depth p' = S (depth p) → ifstack p' = (enable p, iftrigger p) :: ifstack p)
  ∧ (depth p = S (depth p') → ifstack p = (enable p', iftrigger p') :: ifstack p').
Proof.
  unfold depth. intros [He Ht Hs | Hs Hc | t st Hs Hs' Hc | Hs]; split; intros Hd;
    try done; rewrite Hs in Hd; simpl in Hd; lia.
Qed.



(** ** Directives that raise instead of diagnosing *)

Lemma tok_app_r (h l : list token) (k : nat) :
  tok (h ++ l) (length h + k)%nat = default dummy_token (l !! k).
Proof. unfold tok. by rewrite lookup_app_r, Nat.add_comm, Nat.add_sub by lia. Qed.

Lemma load_line_spec src l : ∀ s,
  load_line src l s
  = Ok (seq (length (heap s)) (length l)) (with_heap (heap s ++ (set_source src <$> l)) s).
Proof.
  induction l as [|t l IH]; intros s; simpl.
  - unfold ret. by rewrite app_nil_r; destruct s.
  - unfold bind, alloc. rewrite IH. simpl. rewrite length_app, Nat.add_1_r.
    unfold ret, with_heap. simpl. by rewrite <-app_assoc.
Qed.

(** A directive line [# name] with no argument, as the lexer gives it. *)
Definition bare_directive (name : string) (line : Z) : list token :=
  [lexed "CPP_POUND" "#" line; lexed t_ID name line; lexed t_NEWLINE NL line].

Section RaisingDirectives.
Variable eval : string → option Z.
Variable fs : string → option (list (list token)).
Variable fuel : nat.
Variable rec : list (list token) → option string → M unit.

Lemma parse_bare_directive src name line rest p s :
  parse_lines eval fs fuel rec src (bare_directive name line :: rest) p s
  = (p' <- directive eval fs fuel rec name [] [S (length (heap s))]
             (PState (enable p) (iftrigger p) (ifstack p)
                     (chunk p ++ [S (S (length (heap s)))])) ;;
     parse_lines eval fs fuel rec src rest p')
      (with_heap (heap s ++ (set_source src <$> bare_directive name line)) s).
Proof.
  cbn [parse_lines]. unfold bind at 1. rewrite load_line_spec.
  unfold bind at 1. unfold parse_line. unfold bind at 1. unfold get.
  set (h := heap (with_heap _ s)).
  assert (H0 : tok h (length (heap s)) = set_source src (lexed "CPP_POUND" "#" line)).
  { subst h. simpl. by rewrite <-(Nat.add_0_r (length (heap s))), tok_app_r. }
  assert (H1 : tok h (S (length (heap s))) = set_source src (lexed t_ID name line)).
  { subst h. simpl. by rewrite <-(Nat.add_1_r (length (heap s))), tok_app_r. }
  assert (H2 : tok h (S (S (length (heap s)))) = set_source src (lexed t_NEWLINE NL line)).
  { subst h. simpl. replace (S (S (length (heap s)))) with (length (heap s) + 2)%nat by lia.
    by rewrite tok_app_r. }
  assert (Hw0 : in_t_WS (tok h (length (heap s))) = false) by (by rewrite H0).
  assert (Hw1 : in_t_WS (tok h (S (length (heap s)))) = false) by (by rewrite H1).
  assert (Hw2 : in_t_WS (tok h (S (S (length (heap s))))) = true) by (by rewrite H2).
  assert (Hv0 : value (tok h (length (heap s))) = "#") by (by rewrite H0).
  assert (Hv1 : value (tok h (S (length (heap s)))) = name) by (by rewrite H1).
  assert (Hn2 : has_nl (value (tok h (S (S (length (heap s)))))) = true) by (by rewrite H2).
  clearbody h. clear H0 H1 H2.
  remember (directive eval fs fuel rec) as D eqn:HD.
  remember (parse_lines eval fs fuel rec src rest) as P eqn:HP.
  change (length (bare_directive name line)) with 3%nat. cbn [seq skip_ws].
  unfold is_ws. rewrite Hw0. simpl. rewrite Hv0. simpl.
  unfold tokenstrip. cbn [lstrip drop]. unfold is_ws. rewrite Hw1.
  unfold reverse. cbn [rev_append lstrip]. unfold is_ws. rewrite Hw2, Hw1.
  cbn [rev_append lstrip]. rewrite Hv1.
  rewrite !filter_cons, filter_nil, Hw0, Hw1, Hw2, Hn2. simpl.
  reflexivity.
Qed.
End RaisingDirectives.

(** C10. With tokens enabled, a line [#ifdef] or [#ifndef] without an
    argument makes the directive interpreter raise [IndexError]
    ([args[0]] on the empty list), and so does a line [#if] without an
    expression when the host's [eval] rejects the empty text (the handler
    of the failure reads [tokens[0]]): the lines after it are not
    processed, nothing is printed and [return_code] stays as it was. *)
Theorem bare_conditional_raises eval fs fuel rec src line rest p s :
  enable p = true →
  (∀ name, name = "ifdef" ∨ name = "ifndef" ∨ (name = "if" ∧ eval "" = None) →
     ∃ s', parse_lines eval fs (S fuel) rec src (bare_directive name line :: rest) p s
           = Raise IndexError s'
           ∧ return_code s' = return_code s
           ∧ stdout s' = stdout s
           ∧ yielded s' = yielded s).
Proof.
  intros Hen name Hname. rewrite parse_bare_directive.
  unfold bind at 1. unfold directive.
  destruct Hname as [->|[->|[-> Heval]]]; simpl; unfold conditional; simpl; rewrite Hen.
  - by eexists.
  - by eexists.
  - unfold bind, evalexpr, bind. simpl. unfold bind. simpl.
    change (rewrite_operators "") with "".
    rewrite Heval. simpl. by eexists.
Qed.

Lemma bare_conditional_raises_witness :
  enable initial_pstate = true
  ∧ ∃ s', parse_lines (fun _ => None) (fun _ => None) 1 (fun _ _ => ret tt) (Some "t.c")
            (bare_directive "if" 1 :: [[lexed t_ID "x" 2; lexed t_NEWLINE NL 2]])
            initial_pstate empty_state
          = Raise IndexError s'
          ∧ return_code s' = return_code empty_state
          ∧ stdout s' = stdout empty_state
          ∧ yielded s' = yielded empty_state.
Proof.
  split; [reflexivity|].
  apply (bare_conditional_raises (fun _ => None) (fun _ => None) 0 (fun _ _ => ret tt)
           (Some "t.c") 1 [[lexed t_ID "x" 2; lexed t_NEWLINE NL 2]]
           initial_pstate empty_state eq_refl "if").
  right. right. split; reflexivity.
Defined.

(** ** The text handed to the host evaluator *)

Definition bang : ascii := "!"%char.

Lemma substring_tail (c : ascii) (s : string) :
  String.substring 1 (String.length (String c s) - 1) (String c s) = s.
Proof.
  simpl. rewrite Nat.sub_0_r. induction s as [|c' s IH]; simpl; [done|]. by rewrite IH.
Qed.

Lemma chars_append (a b : string) :
  list_ascii_of_string (a +:+ b) = list_ascii_of_string a ++ list_ascii_of_string b.
Proof. induction a as [|c a IH]; simpl; [done|]. by rewrite IH. Qed.

Lemma replace_bang_fuel (n : nat) : ∀ s,
  (String.length s < n)%nat →
  bang ∉ list_ascii_of_string (replace_fuel n "!" " not " s).
Proof.
  induction n as [|n IH]; intros s Hlen; [lia|].
  destruct s as [|c s].
  - simpl. apply not_elem_of_nil.
  - cbn [replace_fuel]. destruct (String.prefix "!" (String c s)) eqn:Hp.
    + change (String.length "!") with 1%nat. rewrite substring_tail.
      rewrite chars_append. intros [Hin|Hin]%elem_of_app.
      * vm_compute in Hin. repeat (apply elem_of_cons in Hin as [Hin|Hin]; [done|]).
        by apply elem_of_nil in Hin.
      * revert Hin. apply IH. simpl in Hlen. lia.
    + simpl. intros [Hin|Hin]%elem_of_cons.
      * subst c. simpl in Hp. by destruct s.
      * revert Hin. apply IH. simpl in Hlen. lia.
Qed.

Lemma rewrite_operators_no_bang (expr : string) :
  bang ∉ list_ascii_of_string (rewrite_operators expr).
Proof. unfold rewrite_operators, replace. apply replace_bang_fuel. lia. Qed.

(** The tokens of [1 != 2]. *)
Definition one_ne_two : list token :=
  [lexed t_INTEGER "1" 1; lexed t_SPACE " " 1; lexed "!" "!" 1; lexed "=" "=" 1;
   lexed t_SPACE " " 1; lexed t_INTEGER "2" 1].

(** A host evaluator that knows decimal integer literals only: it
    evaluates such a literal and rejects any other text. *)
Definition digit_value (c : ascii) : option Z :=
  let n := Z.of_nat (nat_of_ascii c) in
  if (48 <=? n) && (n <=? 57) then Some (n - 48) else None.

Fixpoint literal_value (l : list ascii) (acc : Z) : option Z :=
  match l with
  | [] => Some acc
  | c :: l' =>
    match digit_value c with
    | Some d => literal_value l' (10 * acc + d)
    | None => None
    end
  end.

Definition eval_literal (s : string) : option Z :=
  match list_ascii_of_string s with
  | [] => None
  | l => literal_value l 0
  end.

(** C2 at the failing input. Whatever the expression, the text handed to
    [eval] holds no [!]: the operator [!=] is rewritten to [ not =]. For
    [#if 1 != 2] the text is [1  not = 2]; a host that rejects it (as
    Python does) makes [evalexpr] print a diagnostic and return 0. *)
Theorem evalexpr_not_equal_fails :
  (∀ expr, bang ∉ list_ascii_of_string (rewrite_operators expr))
  ∧ rewrite_operators "1 != 2" = "1  not = 2"
  ∧ ∀ eval fuel,
      eval "1  not = 2" = None →
      ∃ s', (l <- load_line (Some "t.c") one_ne_two ;; evalexpr eval (7 + fuel) l) empty_state
            = Ok 0 s'
            ∧ stdout s' = ["t.c:1 Couldn't evaluate expression"]
            ∧ return_code s' = 1.
Proof.
  split_and!.
  - apply rewrite_operators_no_bang.
  - reflexivity.
  - intros eval fuel Heval. vm_compute in Heval. vm_compute. rewrite Heval.
    eexists. split_and!; reflexivity.
Qed.

Lemma evalexpr_not_equal_fails_witness :
  eval_literal "1  not = 2" = None
  ∧ ∃ s', (l <- load_line (Some "t.c") one_ne_two ;; evalexpr eval_literal 7 l) empty_state
          = Ok 0 s'
          ∧ stdout s' = ["t.c:1 Couldn't evaluate expression"]
          ∧ return_code s' = 1.
Proof.
  split; [reflexivity|].
  exact (proj2 (proj2 evalexpr_not_equal_fails) eval_literal 0%nat eq_refl).
Defined.

(** ** The search of an included file *)

Section IncludeSearch.
Variable fs : string → option (list (list token)).
Variable fuel : nat.
Variable rec : list (list token) → option string → M unit.

(** The names [open] is called with for the directories [dirs]. *)
Definition names_tried (filename : string) (dirs : list string) : list string :=
  (fun d => os_path_join d filename) <$> dirs.

Definition logged (names : list string) (s : state) : state :=
  with_opens (opens s ++ names) s.

Lemma logged_nil s : logged [] s = s.
Proof. unfold logged, with_opens. rewrite app_nil_r. by destruct s. Qed.

Lemma logged_cons n names s : logged names (logged [n] s) = logged (n :: names) s.
Proof. unfold logged, with_opens. simpl. by rewrite <-app_assoc. Qed.

Lemma include_search_missing r0 filename dirs : ∀ s,
  Forall (fun d => fs (os_path_join d filename) = None) dirs →
  include_search fs rec r0 filename dirs s
  = (t0 <- deref r0 ;; error_at t0 ("Couldn't find '" +:+ filename +:+ "'"))
      (logged (names_tried filename dirs) s).
Proof.
  induction dirs as [|d dirs IH]; intros s Hall.
  - simpl. by rewrite logged_nil.
  - inversion Hall as [|? ? Hd Hds]; subst. cbn [include_search].
    unfold bind at 1. simpl. rewrite Hd. fold (logged [os_path_join d filename] s).
    rewrite IH by done. by rewrite logged_cons.
Qed.

Lemma include_search_found r0 filename failed d data dirs : ∀ s,
  Forall (fun d => fs (os_path_join d filename) = None) failed →
  fs (os_path_join d filename) = Some data →
  include_search fs rec r0 filename (failed ++ d :: dirs) s
  = enter_file rec (os_path_join d filename) data filename
      (logged (names_tried filename (failed ++ [d])) s).
Proof.
  induction failed as [|f failed IH]; intros s Hall Hd.
  - cbn [app include_search]. unfold bind at 1. simpl. by rewrite Hd.
  - inversion Hall as [|? ? Hf Hfs]; subst. cbn [app include_search].
    unfold bind at 1. simpl. rewrite Hf. fold (logged [os_path_join f filename] s).
    rewrite IH by done. by rewrite logged_cons.
Qed.

(** The file name and the ordered directories of an [#include] whose
    first token is [t0], in the words of the specification. *)
Definition include_request (s : state) (tokens : list ref) (t0 : token)
    : option (string * list string) :=
  if String.eqb (value t0) "<" then
    match find_gt (heap s) (drop 1 tokens) 1 with
    | Some i => Some (join (values_of s (slice tokens 1 i)),
                      path s ++ [""] ++ temp_path s)
    | None => None
    end
  else if String.eqb (ttype t0) t_STRING then
    Some (String.substring 1 (String.length (value t0) - 2) (value t0),
          temp_path s ++ [""] ++ path s)
  else None.

Lemma include_is_search r0 rest s filename dirs :
  include_request s (r0 :: rest) (tok (heap s) r0) = Some (filename, dirs) →
  include fs fuel rec (r0 :: rest) s = include_search fs rec r0 filename dirs s.
Proof.
  unfold include_request, include. intros Hreq.
  unfold bind at 1. unfold deref at 1.
  destruct (String.eqb (value (tok (heap s) r0)) "<") eqn:Hlt.
  - simpl. unfold bind. simpl. rewrite Hlt. simpl in Hreq.
    destruct (find_gt (heap s) (drop 0 rest) 1); [|done].
    by injection Hreq as <- <-.
  - destruct (String.eqb (ttype (tok (heap s) r0)) t_STRING) eqn:Hst; [|done].
    simpl. unfold bind. simpl. rewrite Hlt, Hst. by injection Hreq as <- <-.
Qed.

(** C8. For an [#include] of the form [<...>] the directories tried are
    [path], then [""], then [temp_path]; for the form ["..."] they are
    [temp_path], then [""], then [path]. [open] is called on them in this
    order up to the first that succeeds, whose file is then parsed; when
    none succeeds, and only then, [include] prints its diagnostic. *)
Theorem include_search_order r0 rest s filename dirs :
  include_request s (r0 :: rest) (tok (heap s) r0) = Some (filename, dirs) →
  (dirs = if String.eqb (value (tok (heap s) r0)) "<"
          then path s ++ [""] ++ temp_path s
          else temp_path s ++ [""] ++ path s)
  ∧ (∀ failed d data after,
       dirs = failed ++ d :: after →
       Forall (fun d => fs (os_path_join d filename) = None) failed →
       fs (os_path_join d filename) = Some data →
       include fs fuel rec (r0 :: rest) s
       = enter_file rec (os_path_join d filename) data filename
           (logged (names_tried filename (failed ++ [d])) s))
  ∧ (Forall (fun d => fs (os_path_join d filename) = None) dirs →
     ∀ src, source (tok (heap s) r0) = Some src →
     include fs fuel rec (r0 :: rest) s
     = Ok tt (diagnosed src (lineno (tok (heap s) r0))
                        ("Couldn't find '" +:+ filename +:+ "'")
                        (logged (names_tried filename dirs) s))).
Proof.
  intros Hreq. split_and!.
  - unfold include_request in Hreq.
    destruct (String.eqb (value (tok (heap s) r0)) "<").
    + destruct (find_gt _ _ _); [|done]. by injection Hreq as <- <-.
    + destruct (String.eqb (ttype (tok (heap s) r0)) t_STRING); [|done].
      by injection Hreq as <- <-.
  - intros failed d data after -> Hfailed Hd.
    rewrite (include_is_search _ _ _ _ _ Hreq). by apply include_search_found.
  - intros Hall src Hsrc.
    rewrite (include_is_search _ _ _ _ _ Hreq), include_search_missing by done.
    unfold bind, deref, error_at, get_source. simpl. rewrite Hsrc. done.
Qed.
End IncludeSearch.

(** ** The writer *)

(** From [s] to [s'] only values of tokens were overwritten, and no
    value became empty. *)
Definition values_rewritten (s s' : state) : Prop :=
  ∀ r, ttype (tok (heap s') r) = ttype (tok (heap s) r)
       ∧ lineno (tok (heap s') r) = lineno (tok (heap s) r)
       ∧ source (tok (heap s') r) = source (tok (heap s) r)
       ∧ (value (tok (heap s) r) ≠ "" → value (tok (heap s') r) ≠ "").

Lemma values_rewritten_refl s : values_rewritten s s.
Proof. by intros r. Qed.

Lemma values_rewritten_trans s1 s2 s3 :
  values_rewritten s1 s2 → values_rewritten s2 s3 → values_rewritten s1 s3.
Proof.
  intros H12 H23 r. destruct (H12 r) as (?&?&?&?), (H23 r) as (?&?&?&?).
  split_and!; try congruence. auto.
Qed.

Lemma tok_insert (h : list token) (r r' : ref) (t : token) :
  tok (<[r := t]> h) r' = if bool_decide (r = r' ∧ (r < length h)%nat) then t else tok h r'.
Proof.
  unfold tok. case_bool_decide as H.
  - destruct H as [-> Hlt]. by rewrite list_lookup_insert_eq.
  - destruct (decide (r = r')) as [->|Hne].
    + rewrite list_insert_ge; [done|]. destruct (decide (r' < length h)%nat); [tauto|lia].
    + by rewrite list_lookup_insert_ne.
Qed.

Lemma assign_blank_rewritten r s :
  values_rewritten s (with_heap (<[r := set_value " " (tok (heap s) r)]> (heap s)) s).
Proof.
  intros r'. simpl. rewrite tok_insert. case_bool_decide as H; [|done].
  destruct H as [-> _]. by split_and!.
Qed.

#[local] Opaque substring_of.

Lemma collapse_spaces_ok n1 : ∀ toks fw s,
  (n1 ≤ length toks)%nat →
  match fw with Some f => (n1 ≤ f < length toks)%nat | None => True end →
  (∀ r, r ∈ toks → value (tok (heap s) r) ≠ "") →
  ∃ toks' s', collapse_spaces n1 toks fw s = Ok toks' s'
              ∧ values_rewritten s s'
              ∧ (toks ≠ [] → toks' !! 0%nat = toks !! 0%nat).
Proof.
  induction n1 as [|n IH]; intros toks fw s Hlen Hfw Hval.
  - exists toks, s. simpl. split_and!; [done|apply values_rewritten_refl|done].
  - cbn [collapse_spaces]. unfold bind at 1. unfold index.
    destruct (toks !! n) as [r|] eqn:Hr; [|apply lookup_ge_None in Hr; lia].
    simpl. unfold bind at 1. simpl.
    destruct fw as [f|].
    + destruct (negb (substring_of (ttype (tok (heap s) r)) t_SPACE)
                && (0 <? String.length (value (tok (heap s) r)))%nat).
      * set (toks1 := take (S n) toks ++ drop f toks).
        assert (Hm : ∃ rm, toks1 !! S n = Some rm ∧ rm ∈ toks).
        { destruct (toks !! f) as [rm|] eqn:Hf; [|apply lookup_ge_None in Hf; lia].
          exists rm. split; [|by eapply list_elem_of_lookup_2].
          subst toks1. rewrite lookup_app_r; rewrite length_take; [|lia].
          replace (S n - S n `min` length toks)%nat with 0%nat by lia.
          by rewrite lookup_drop, Nat.add_0_r. }
        destruct Hm as (rm & Hrm & Hin).
        unfold bind at 1. unfold index. rewrite Hrm. simpl.
        unfold bind at 1. simpl. unfold bind at 1.
        pose proof (Hval rm Hin) as Hne.
        destruct (value (tok (heap s) rm)) as [|c v] eqn:Hv; [done|]. simpl.
        assert (Hsub : ∀ r', r' ∈ toks1 → r' ∈ toks).
        { subst toks1. intros r' [H|H]%elem_of_app.
          - by eapply subseteq_take.
          - by eapply subseteq_drop. }
        assert (Hlen1 : (n ≤ length toks1)%nat).
        { subst toks1. rewrite length_app, length_take. lia. }
        assert (Hhead : toks ≠ [] → toks1 !! 0%nat = toks !! 0%nat).
        { intros _. subst toks1. rewrite lookup_app_l; [|rewrite length_take; lia].
          by rewrite lookup_take_lt by lia. }
        destruct (bool_decide (c = " "%char)).
        -- unfold bind at 1. simpl.
           match goal with
           | |- context [collapse_spaces n toks1 None ?st] => set (s1 := st)
           end.
           destruct (IH toks1 None s1 Hlen1 I) as (toks' & s' & Hrun & Hrw & Hh).
           { intros r' Hr'. apply (assign_blank_rewritten rm s). by apply Hval, Hsub. }
           exists toks', s'. split_and!; [done| |].
           ++ eapply values_rewritten_trans; [apply (assign_blank_rewritten rm s)|done].
           ++ intros Hne'. rewrite <-Hhead by done. apply Hh.
              intros ->. by rewrite lookup_nil in Hrm.
        -- unfold bind at 1. simpl.
           destruct (IH toks1 None s Hlen1 I) as (toks' & s' & Hrun & Hrw & Hh).
           { intros r' Hr'. by apply Hval, Hsub. }
           exists toks', s'. split_and!; [done|done|].
           intros Hne'. rewrite <-Hhead by done. apply Hh.
           intros ->. by rewrite lookup_nil in Hrm.
      * apply IH; [lia|lia|done].
    + destruct (space_like (tok (heap s) r)); apply IH; try done; lia.
Qed.

#[local] Transparent substring_of.

Lemma marker_decision_spec (bl : nat) (ls : option string) (t0 : token) (src : string) :
  source t0 = Some (Some src) →
  (marker_decision bl ls t0).2 = Some src
  ∧ ((marker_decision bl ls t0).1 = true
     ↔ (6 < bl)%nat ∨ ∃ l, ls = Some l ∧ l ≠ src).
Proof.
  intros Hsrc. unfold marker_decision. rewrite Hsrc.
  destruct ls as [l|]; simpl.
  - case_bool_decide as Heq; simpl.
    + injection Heq as ->. split; [done|]. rewrite Nat.ltb_lt. split; [by left|].
      intros [H|(l' & Hl & Hne)]; [done|]. by injection Hl as ->.
    + split; [done|]. split; [|done]. intros _. right. exists l. split; [done|].
      intros ->. done.
  - split; [done|]. rewrite Nat.ltb_lt. split; [by left|].
    intros [H|(l' & Hl & _)]; done.
Qed.

Lemma string_app_assoc (a b c : string) : (a +:+ b) +:+ c = a +:+ b +:+ c.
Proof.
  induction a as [|x a IH]; [done|].
  change (String x ((a +:+ b) +:+ c) = String x (a +:+ b +:+ c)). by rewrite IH.
Qed.

Lemma line_marker_source (line : Z) (src : string) :
  line_marker line (Some src)
  = "# " +:+ pretty (line - 1) +:+ " " +:+ quote +:+ src +:+ quote +:+ NL.
Proof.
  unfold line_marker. do 2 f_equal. by rewrite !string_app_assoc.
Qed.


(** A line [x] of [a.c], read after a line of [b.c]. *)
Definition sample_writer_state : state :=
  State [Token t_ID "x" 9 (Some (Some "a.c")) None;
         Token t_NEWLINE NL 9 (Some (Some "a.c")) None]
        [] ∅ [] [] 0 [] [] [] [0%nat; 1%nat].


(** An [#include "a.h"] in a directory [src], with the user path [inc],
    where only [inc/a.h] exists. *)
Definition sample_include_state : state :=
  State [Token t_STRING (quote +:+ "a.h" +:+ quote) 1 (Some (Some "src/main.c")) None]
        [] ∅ ["inc"] ["src"] 0 [] [] [] [].

Definition sample_fs (n : string) : option (list (list token)) :=
  if String.eqb n "inc/a.h" then Some [] else None.

Lemma include_search_order_witness :
  include_request sample_include_state [0%nat] (tok (heap sample_include_state) 0)
  = Some ("a.h", ["src"; ""; "inc"])
  ∧ include sample_fs 0 (fun _ _ => ret tt) [0%nat] sample_include_state
    = enter_file (fun _ _ => ret tt) "inc/a.h" [] "a.h"
        (logged ["src/a.h"; "a.h"; "inc/a.h"] sample_include_state).
Proof.
  split; [reflexivity|].
  refine (proj1 (proj2 (include_search_order sample_fs 0 (fun _ _ => ret tt) 0%nat []
                          sample_include_state "a.h" ["src"; ""; "inc"] eq_refl))
                ["src"; ""] "inc" [] [] eq_refl _ eq_refl).
  repeat constructor.
Defined.

(** ** The footprint of an expansion

    An expansion writes only to tokens that satisfy [P]: the tokens of
    its input lists and the tokens it creates, which are the references
    from [n] on. *)

Section Footprint.
Variable n : nat.
Variable P : ref → Prop.
Hypothesis P_fresh : ∀ r, (n ≤ r)%nat → P r.

(** No token object disappears, the macro table is the same, and the
    tokens outside [P] are as they were. *)
Definition frame_rel (s s' : state) : Prop :=
  (length (heap s) ≤ length (heap s'))%nat
  ∧ macros s' = macros s
  ∧ ∀ r, ¬ P r → heap s' !! r = heap s !! r.

Lemma frame_rel_refl s : frame_rel s s.
Proof. by split_and!. Qed.

Lemma frame_rel_trans s1 s2 s3 : frame_rel s1 s2 → frame_rel s2 s3 → frame_rel s1 s3.
Proof.
  intros (H1 & H2 & H3) (H4 & H5 & H6). split_and!; [lia|congruence|].
  intros r Hr. by rewrite H6, H3.
Qed.

(** From a store with at least [n] tokens, [m] keeps the frame however
    it ends, and what it returns satisfies [Q]. *)
Definition respects {A} (m : M A) (Q : A → Prop) : Prop :=
  ∀ s, (n ≤ length (heap s))%nat →
       match m s with
       | Ok a s' => frame_rel s s' ∧ Q a
       | Raise _ s' => frame_rel s s'
       | OutOfFuel => True
       end.

Lemma respects_ret {A} (a : A) (Q : A → Prop) : Q a → respects (ret a) Q.
Proof. intros HQ s _. split; [apply frame_rel_refl|done]. Qed.

Lemma respects_raise {A} (e : exn) (Q : A → Prop) : respects (raise e) Q.
Proof. intros s _. apply frame_rel_refl. Qed.

Lemma respects_out_of_fuel {A} (Q : A → Prop) : respects (fun _ => OutOfFuel) Q.
Proof. by intros s _. Qed.

Lemma respects_bind {A B} (m : M A) (k : A → M B) (Q : A → Prop) (Q' : B → Prop) :
  respects m Q → (∀ a, Q a → respects (k a) Q') → respects (bind m k) Q'.
Proof.
  intros Hm Hk s Hn. unfold bind. specialize (Hm s Hn).
  destruct (m s) as [a s1|e s1|]; [|done|done].
  destruct Hm as [Hf HQ]. specialize (Hk a HQ s1).
  assert (Hn1 : (n ≤ length (heap s1))%nat) by (destruct Hf; lia).
  specialize (Hk Hn1). destruct (k a s1) as [b s2|e s2|]; [| |done].
  - destruct Hk. split; [by eapply frame_rel_trans|done].
  - by eapply frame_rel_trans.
Qed.

Lemma respects_weaken {A} (m : M A) (Q Q' : A → Prop) :
  respects m Q → (∀ a, Q a → Q' a) → respects m Q'.
Proof.
  intros Hm HQ s Hn. specialize (Hm s Hn). destruct (m s); [|done|done].
  destruct Hm. split; [done|auto].
Qed.

Lemma respects_get : respects get (fun _ => True).
Proof. intros s _. split; [apply frame_rel_refl|done]. Qed.

Lemma respects_deref r : respects (deref r) (fun _ => True).
Proof. intros s _. split; [apply frame_rel_refl|done]. Qed.

Lemma respects_read_list l : respects (read_list l) (fun _ => True).
Proof. intros s _. split; [apply frame_rel_refl|done]. Qed.

Lemma respects_alloc_list : respects alloc_list (fun _ => True).
Proof. intros s _. split; [by split_and!|done]. Qed.

Lemma respects_append_list l x : respects (append_list l x) (fun _ => True).
Proof. intros s _. split; [by split_and!|done]. Qed.

Lemma respects_error file line msg : respects (error file line msg) (fun _ => True).
Proof. intros s _. split; [by split_and!|done]. Qed.

Lemma respects_alloc t : respects (alloc t) P.
Proof.
  intros s Hn. simpl. split; [|by apply P_fresh].
  split_and!; [simpl; rewrite length_app; lia|done|].
  intros r Hr. apply lookup_app_l.
  destruct (decide (r < length (heap s))%nat); [done|].
  exfalso. apply Hr, P_fresh. lia.
Qed.

Lemma respects_assign r f : P r → respects (assign r f) (fun _ => True).
Proof.
  intros HP s _. simpl. split; [|done].
  split_and!; [simpl; by rewrite length_insert|done|].
  intros r' Hr'. simpl. apply list_lookup_insert_ne. by intros ->.
Qed.

Lemma respects_index {A} (l : list A) i (Q : A → Prop) :
  Forall Q l → respects (index l i) Q.
Proof.
  intros Hl. unfold index. destruct (l !! i) as [a|] eqn:Ha.
  - apply respects_ret. by eapply Forall_lookup_1.
  - apply respects_raise.
Qed.

Lemma respects_index_last {A} (l : list A) (Q : A → Prop) :
  Forall Q l → respects (index_last l) Q.
Proof.
  intros Hl. unfold index_last. destruct (last l) as [a|] eqn:Ha.
  - apply respects_ret. rewrite last_lookup in Ha. by eapply Forall_lookup_1.
  - apply respects_raise.
Qed.

Lemma respects_for_each {A} (f : A → M unit) (Q : A → Prop) l :
  (∀ a, Q a → respects (f a) (fun _ => True)) → Forall Q l →
  respects (for_each f l) (fun _ => True).
Proof.
  intros Hf. induction 1 as [|a l Ha Hl IH]; simpl.
  - by apply respects_ret.
  - eapply respects_bind; [by apply Hf|]. intros _ _. apply IH.
Qed.
End Footprint.

Section TokenUtilitiesSubset.
Context {A : Type} (tk : A → token) (Q : A → Prop).

Lemma Forall_lstrip l : Forall Q l → Forall Q (lstrip tk l).
Proof. induction 1 as [|a l Ha Hl IH]; simpl; [done|]. destruct (is_ws tk a); auto. Qed.

Lemma Forall_tokenstrip l : Forall Q l → Forall Q (tokenstrip tk l).
Proof.
  intros Hl. unfold tokenstrip.
  by apply Forall_reverse, Forall_lstrip, Forall_reverse, Forall_lstrip.
Qed.

Lemma Forall_collect_loop rest : ∀ i nesting cur args pos r,
  Forall Q rest → Forall Q cur → Forall (Forall Q) args →
  collect_loop tk rest i nesting cur args pos = Some r →
  Forall (Forall Q) r.1.2.
Proof.
  induction rest as [|t rest IH]; intros i nesting cur args pos r Hrest Hcur Hargs Hr;
    [done|].
  inversion Hrest as [|? ? Ht Hrest']; subst. simpl in Hr.
  assert (Hcur' : Forall Q (cur ++ [t])) by (apply Forall_app; auto).
  assert (Hargs' : Forall (Forall Q) (args ++ [tokenstrip tk cur])).
  { apply Forall_app. split; [done|]. constructor; [|done]. by apply Forall_tokenstrip. }
  repeat case_match; try (eapply IH; [| | |exact Hr]; done).
  by injection Hr as <-.
Qed.
End TokenUtilitiesSubset.

Section FootprintOfExpansion.
Variable n : nat.
Variable P : ref → Prop.
Hypothesis P_fresh : ∀ r, (n ≤ r)%nat → P r.

Abbreviation resp := (respects n P).

(** An entry of a replacement under construction: a token or a mark. *)
Definition opt_ok (o : option ref) : Prop := ∀ r, o = Some r → P r.

Lemma Forall_opt_ok_Some l : Forall P l → Forall opt_ok (Some <$> l).
Proof. intros Hl. apply Forall_fmap. eapply Forall_impl; [done|]. by intros r Hr r' [= <-]. Qed.

Lemma Forall_omap_id l : Forall opt_ok l → Forall P (omap id l).
Proof.
  induction 1 as [|o l Ho Hl IH]; simpl; [done|].
  destruct o as [r|]; simpl; [|done]. constructor; [by apply Ho|done].
Qed.

Lemma Forall_splice {B} (Q : B → Prop) l a b x :
  Forall Q l → Forall Q x → Forall Q (splice l a b x).
Proof.
  intros Hl Hx. unfold splice. rewrite !Forall_app. split_and!;
    [by apply Forall_take|done|by apply Forall_drop].
Qed.

Lemma Forall_slice {B} (Q : B → Prop) l a b : Forall Q l → Forall Q (slice l a b).
Proof. intros Hl. unfold slice. by apply Forall_take, Forall_drop. Qed.

Lemma resp_copy_token r : resp (copy_token r) P.
Proof.
  unfold copy_token. eapply respects_bind; [apply respects_deref|].
  intros t _. by apply respects_alloc.
Qed.

Lemma resp_copy_tokens rs : resp (copy_tokens rs) (Forall P).
Proof.
  induction rs as [|r rs IH]; simpl; [by apply respects_ret|].
  eapply respects_bind; [apply resp_copy_token|]. intros c Hc.
  eapply respects_bind; [apply IH|]. intros cs Hcs.
  apply respects_ret. by constructor.
Qed.

Lemma resp_error_at t msg : resp (error_at t msg) (fun _ => True).
Proof.
  unfold error_at, get_source. destruct (source t).
  - eapply respects_bind with (Q := fun _ => True); [by apply respects_ret|].
    intros. apply respects_error.
  - eapply respects_bind with (Q := fun _ => True); [apply respects_raise|].
    intros. apply respects_error.
Qed.

Lemma resp_ensure_expanded_from r : P r → resp (ensure_expanded_from r) (fun _ => True).
Proof.
  intros Hr. unfold ensure_expanded_from.
  eapply respects_bind; [apply respects_deref|]. intros t _.
  destruct (expanded_from t); [by apply respects_ret|].
  eapply respects_bind; [apply respects_alloc_list|]. intros l _.
  by apply respects_assign.
Qed.

Lemma resp_stamp t e : P e → resp (stamp t e) (fun _ => True).
Proof.
  intros He. unfold stamp.
  eapply respects_bind; [apply respects_deref|]. intros tt_ _.
  eapply respects_bind; [by apply respects_assign|]. intros _ _.
  eapply respects_bind; [by apply resp_ensure_expanded_from|]. intros _ _.
  eapply respects_bind; [apply respects_deref|]. intros te _.
  destruct (expanded_from te); [apply respects_append_list|apply respects_raise].
Qed.

Lemma resp_blank_ws r : P r → resp (blank_ws r) (fun _ => True).
Proof.
  intros Hr. unfold blank_ws.
  eapply respects_bind; [apply respects_deref|]. intros t _.
  destruct (in_t_WS t); [by apply respects_assign|by apply respects_ret].
Qed.

Lemma resp_stringize arg : Forall P arg → resp (stringize arg) (fun _ => True).
Proof.
  intros Harg. unfold stringize.
  eapply respects_bind; [eapply respects_for_each; [|exact Harg]; apply resp_blank_ws|].
  intros _ _. eapply respects_bind; [apply respects_get|]. intros s _.
  by apply respects_ret.
Qed.

Lemma resp_apply_str_patch args sp : ∀ se rep,
  Forall (Forall P) args → Forall P rep →
  resp (apply_str_patch args sp se rep) (Forall P).
Proof.
  induction sp as [|[argnum i] sp IH]; intros se rep Hargs Hrep; simpl;
    [by apply respects_ret|].
  eapply respects_bind with (Q := fun _ => True).
  { destruct (se !! argnum); [by apply respects_ret|].
    eapply respects_bind; [by apply respects_index|]. intros arg Harg.
    eapply respects_bind; [by apply resp_stringize|]. intros str _.
    by apply respects_ret. }
  intros se' _.
  eapply respects_bind; [by apply respects_index|]. intros r Hr.
  eapply respects_bind; [apply resp_copy_token|]. intros c Hc.
  eapply respects_bind with (Q := fun _ => True).
  { destruct (se' !! argnum); [by apply respects_ret|apply respects_raise]. }
  intros str _.
  eapply respects_bind; [by apply respects_assign|]. intros _ _.
  apply IH; [done|]. by apply Forall_insert.
Qed.

Lemma resp_mark_commas vcp : ∀ rep,
  Forall opt_ok rep → resp (mark_commas vcp rep) (Forall opt_ok).
Proof.
  induction vcp as [|i vcp IH]; intros rep Hrep; simpl; [by apply respects_ret|].
  case_bool_decide; [|apply respects_raise].
  apply IH. apply Forall_insert; [done|]. by intros r.
Qed.

Lemma resp_collect_args tokenlist ie (tk : ref → token) :
  Forall P tokenlist →
  resp (collect_args tk tokenlist ie) (fun c => Forall (Forall P) c.1.2).
Proof.
  intros Hl. unfold collect_args.
  assert (Hfail : ∀ (m : M unit),
            resp m (fun _ => True) →
            resp (m ;;; ret (0%nat, @nil (list ref), @nil nat))
                 (fun c => Forall (Forall P) c.1.2)).
  { intros m Hm. eapply respects_bind; [exact Hm|]. intros _ _. by apply respects_ret. }
  assert (Herr : ∀ (m : M ref) msg,
            resp m (fun _ => True) →
            resp (if ie then ret tt else t <- m ;; error_at (tk t) msg) (fun _ => True)).
  { intros m msg Hm. destruct ie; [by apply respects_ret|].
    eapply respects_bind; [exact Hm|]. intros t _. apply resp_error_at. }
  assert (Hidx : resp (index tokenlist 0) (fun _ => True)).
  { apply respects_index. by apply Forall_true. }
  assert (Hlast : resp (index_last tokenlist) (fun _ => True)).
  { apply respects_index_last. by apply Forall_true. }
  destruct (tokenlist !! skip_ws tk tokenlist 0) as [t|]; [|by apply Hfail, Herr].
  destruct (String.eqb (value (tk t)) "("); [|by apply Hfail, Herr].
  destruct (collect_loop _ _ _ _ _ _ _) as [r|] eqn:Hloop; [|by apply Hfail, Herr].
  apply respects_ret. eapply Forall_collect_loop; [| | |exact Hloop]; try done.
  by apply Forall_drop.
Qed.

Lemma resp_adjust_args m al tokens j tokcount args positions :
  Forall P tokens → Forall (Forall P) args →
  resp (adjust_args m al tokens j tokcount args positions) (Forall (Forall P)).
Proof.
  intros Htok Hargs. unfold adjust_args.
  destruct (variadic m).
  - destruct (_ =? _)%Z.
    + apply respects_ret. apply Forall_app. split; [done|]. by repeat constructor.
    + destruct al; [apply respects_raise|].
      eapply respects_bind with (Q := fun _ => True);
        [apply respects_index, Forall_true; done|]. intros p _.
      case_bool_decide; [|apply respects_raise].
      apply respects_ret. apply Forall_take, Forall_insert; [done|]. by apply Forall_slice.
  - apply respects_ret. apply Forall_app. split; [done|].
    apply Forall_replicate. constructor.
Qed.
End FootprintOfExpansion.

Section FootprintOfExpandStep.
Variable n : nat.
Variable P : ref → Prop.
Hypothesis P_fresh : ∀ r, (n ≤ r)%nat → P r.
Variable em : list ref → list string → M (list ref).
Variable el : list ref → nat → list string → M (list ref).
Hypothesis Hem : ∀ toks ef, Forall P toks → respects n P (em toks ef) (Forall P).
Hypothesis Hel : ∀ toks i ef, Forall P toks → respects n P (el toks i ef) (Forall P).

Abbreviation resp := (respects n P).

Lemma resp_apply_patch pl : ∀ args expanded rep,
  Forall (Forall P) args → Forall (opt_ok P) rep →
  resp (apply_patch em pl args expanded rep)
       (fun ra => Forall (opt_ok P) ra.1 ∧ Forall (Forall P) ra.2).
Proof.
  induction pl as [|[[pt argnum] i] pl IH]; intros args expanded rep Hargs Hrep; simpl.
  - by apply respects_ret.
  - assert (Hconcat :
      resp (arg <- index args argnum ;;
            apply_patch em pl args expanded (splice rep i (S i) (Some <$> arg)))
           (fun ra => Forall (opt_ok P) ra.1 ∧ Forall (Forall P) ra.2)).
    { eapply respects_bind; [by apply respects_index|]. intros arg Harg.
      apply IH; [done|]. apply Forall_splice; [done|]. by apply Forall_opt_ok_Some. }
    destruct pt; [|done]. case_bool_decide; [done|].
    eapply respects_bind; [by apply respects_index|]. intros arg Harg.
    eapply respects_bind; [by apply Hem|]. intros ex Hex.
    apply IH; [by apply Forall_insert|].
    apply Forall_splice; [done|]. by apply Forall_opt_ok_Some.
Qed.

Lemma resp_macro_expand_args m args :
  Forall (Forall P) args →
  resp (macro_expand_args em m args) (fun ra => Forall P ra.1 ∧ Forall (Forall P) ra.2).
Proof.
  intros Hargs. unfold macro_expand_args.
  eapply respects_bind; [by apply resp_copy_tokens|]. intros rep Hrep.
  eapply respects_bind; [by apply resp_apply_str_patch|]. intros rep' Hrep'.
  eapply respects_bind with (Q := fun _ => True).
  { destruct (variadic m); [|by apply respects_ret].
    apply respects_index_last. by apply Forall_true. }
  intros last_arg _.
  eapply respects_bind with (Q := Forall (opt_ok P)).
  { destruct (_ && _).
    - apply resp_mark_commas. by apply Forall_opt_ok_Some.
    - apply respects_ret. by apply Forall_opt_ok_Some. }
  intros rep'' Hrep''.
  eapply respects_bind; [by apply resp_apply_patch|]. intros ra [Hra1 Hra2].
  apply respects_ret. split; [|done]. by apply Forall_omap_id.
Qed.

Lemma resp_line_or_next tokens i ef r t :
  Forall P tokens → P r → resp (line_or_next el tokens i ef r t) (Forall P).
Proof.
  intros Htok Hr. unfold line_or_next.
  eapply respects_bind with (Q := fun _ => True).
  { destruct (String.eqb _ _); [by apply respects_assign|by apply respects_ret]. }
  intros _ _. by apply Hel.
Qed.

Lemma resp_expand_function_like tokens i ef r t m al :
  Forall P tokens → P r →
  resp (expand_function_like em el tokens i ef r t m al) (Forall P).
Proof.
  intros Htok Hr. unfold expand_function_like.
  eapply respects_bind; [apply respects_get|]. intros s _.
  destruct (_ || _); [by apply Hel|].
  eapply respects_bind; [apply resp_collect_args; by apply Forall_drop|].
  intros [[tokcount args] positions] Hargs. simpl in Hargs.
  destruct (tokcount =? 0)%nat; [by apply respects_ret|].
  destruct (_ && _).
  { eapply respects_bind; [apply resp_error_at|]. intros _ _. by apply Hel. }
  destruct (_ && _).
  { eapply respects_bind; [apply resp_error_at|]. intros _ _. by apply Hel. }
  eapply respects_bind; [by apply resp_adjust_args|]. intros args' Hargs'.
  eapply respects_bind; [by apply resp_macro_expand_args|]. intros ra [Hra1 Hra2].
  eapply respects_bind; [apply respects_deref|]. intros t' _.
  eapply respects_bind; [by apply Hem|]. intros ex Hex.
  eapply respects_bind; [eapply respects_for_each; [|exact Hex]; apply resp_stamp; done|].
  intros _ _. apply Hel. by apply Forall_splice.
Qed.

Lemma resp_expand_step tokens i ef :
  Forall P tokens → resp (expand_step em el tokens i ef) (Forall P).
Proof.
  intros Htok. unfold expand_step.
  destruct (tokens !! i) as [r|] eqn:Hr; [|by apply respects_ret].
  assert (HPr : P r) by (by eapply Forall_lookup_1).
  eapply respects_bind; [apply respects_deref|]. intros t _.
  destruct (String.eqb (ttype t) t_ID); [|by apply Hel].
  eapply respects_bind; [apply respects_get|]. intros s _.
  destruct (macros s !! value t) as [m|]; [|by apply resp_line_or_next].
  eapply respects_bind with (Q := fun _ => True).
  { destruct (expanded_from t); [apply respects_read_list|apply respects_raise]. }
  intros efl _.
  destruct (_ && _); [|by apply resp_line_or_next].
  destruct (arglist m) as [al|]; [by apply resp_expand_function_like|].
  eapply respects_bind; [by apply resp_copy_tokens|]. intros rep Hrep.
  eapply respects_bind; [by apply Hem|]. intros ex Hex.
  eapply respects_bind; [eapply respects_for_each; [|exact Hex]; apply resp_stamp; done|].
  intros _ _. apply Hel. by apply Forall_splice.
Qed.
End FootprintOfExpandStep.

Section FootprintOfExpandMacros.
Variable n : nat.
Variable P : ref → Prop.
Hypothesis P_fresh : ∀ r, (n ≤ r)%nat → P r.

Lemma resp_init tokens :
  Forall P tokens → respects n P (for_each ensure_expanded_from tokens) (fun _ => True).
Proof.
  intros Htok. eapply respects_for_each; [|exact Htok].
  intros r Hr. by apply resp_ensure_expanded_from.
Qed.

Lemma resp_expand_loop fuel : ∀ tokens i ef,
  Forall P tokens → respects n P (expand_loop fuel tokens i ef) (Forall P).
Proof.
  induction fuel as [|fuel IH]; intros tokens i ef Htok; simpl.
  - apply respects_out_of_fuel.
  - apply resp_expand_step; try done.
    intros toks ef' Htoks.
    eapply respects_bind; [by apply resp_init|]. intros _ _. by apply IH.
Qed.

Lemma resp_expand_macros fuel tokens ef :
  Forall P tokens → respects n P (expand_macros fuel tokens ef) (Forall P).
Proof.
  intros Htok. unfold expand_macros.
  eapply respects_bind; [by apply resp_init|]. intros _ _. by apply resp_expand_loop.
Qed.
End FootprintOfExpandMacros.

(** ** Copies and aliases in an expansion *)

(** The tokens of an input list, and the ones created from [s] on. *)
Definition touched (s : state) (input : list ref) (r : ref) : Prop :=
  r ∈ input ∨ (length (heap s) ≤ r)%nat.

(** Outside [input] every token object of [s] is as it was, and so is
    every stored macro, whose replacement tokens outside [input] keep
    their attributes. *)
Definition untouched (s : state) (input : list ref) (s' : state) : Prop :=
  (∀ r, (r < length (heap s))%nat → r ∉ input → heap s' !! r = heap s !! r)
  ∧ ∀ k mk, macros s !! k = Some mk →
            macros s' !! k = Some mk
            ∧ ∀ r, r ∈ mvalue mk → (r < length (heap s))%nat → r ∉ input →
                   tok (heap s') r = tok (heap s) r.

Lemma frame_rel_untouched s input s' :
  frame_rel (touched s input) s s' → untouched s input s'.
Proof.
  intros (_ & Hmac & Hframe).
  assert (H : ∀ r, (r < length (heap s))%nat → r ∉ input → heap s' !! r = heap s !! r).
  { intros r Hlt Hin. apply Hframe. intros [?|?]; [done|lia]. }
  split; [done|]. intros k mk Hk. split; [by rewrite Hmac|].
  intros r _ Hlt Hin. unfold tok. by rewrite H.
Qed.

(** C4 (as amended). [expand_macros] and [macro_expand_args] write to no
    token but those of their input lists and the ones they create: the
    tokens of every stored replacement list that are not themselves in
    the input keep their attributes, and the macro table is the same.
    Every token of the result is a token of the input or a new one: the
    replacement tokens are copied, the argument tokens are not. *)
Theorem expansion_copies_replacement (fuel : nat) (s : state) :
  (∀ tokens ef,
     match expand_macros fuel tokens ef s with
     | Ok res s' => untouched s tokens s' ∧ Forall (touched s tokens) res
     | Raise _ s' => untouched s tokens s'
     | OutOfFuel => True
     end)
  ∧ (∀ m args,
       match macro_expand_args (expand_macros fuel) m args s with
       | Ok ra s' =>
         untouched s (concat args) s'
         ∧ Forall (touched s (concat args)) ra.1
         ∧ Forall (Forall (touched s (concat args))) ra.2
       | Raise _ s' => untouched s (concat args) s'
       | OutOfFuel => True
       end).
Proof.
  split.
  - intros tokens ef.
    pose proof (resp_expand_macros (length (heap s)) (touched s tokens)
                  (fun r H => or_intror H) fuel tokens ef) as H.
    specialize (H (proj2 (Forall_forall _ _) (fun r Hr => or_introl Hr)) s (le_n _)).
    destruct (expand_macros fuel tokens ef s) as [res s'|e s'|]; [| |done].
    + destruct H as [Hf Hres]. split; [by apply frame_rel_untouched|done].
    + by apply frame_rel_untouched.
  - intros m args.
    pose proof (resp_macro_expand_args (length (heap s)) (touched s (concat args))
                  (fun r H => or_intror H) (expand_macros fuel)
                  (fun toks ef => resp_expand_macros _ _ (fun r H => or_intror H) fuel toks ef)
                  m args) as H.
    assert (Hargs : Forall (Forall (touched s (concat args))) args).
    { apply Forall_forall. intros arg Harg. apply Forall_forall. intros r Hr.
      left. apply list_elem_of_In, in_concat. exists arg.
      by rewrite <-!list_elem_of_In. }
    specialize (H Hargs s (le_n _)).
    destruct (macro_expand_args (expand_macros fuel) m args s) as [ra s'|e s'|]; [| |done].
    + destruct H as [Hf [H1 H2]]. split_and!; [by apply frame_rel_untouched|done|done].
    + by apply frame_rel_untouched.
Qed.

(** [#define A 1] and [#define F(x) x], then the tokens of [F(A)] with
    the argument on the next line. *)
Definition define_A : list token :=
  [lexed t_ID "A" 1; lexed t_SPACE " " 1; lexed t_INTEGER "1" 1].

Definition define_F : list token :=
  [lexed t_ID "F" 2; lexed "(" "(" 2; lexed t_ID "x" 2; lexed ")" ")" 2;
   lexed t_SPACE " " 2; lexed t_ID "x" 2].

Definition call_F (arg : string) : list token :=
  [lexed t_ID "F" 3; lexed "(" "(" 3; lexed t_ID arg 4; lexed ")" ")" 4].

Definition alias_setup (arg : string) : M (list ref) :=
  d <- load_line (Some "t.c") define_A ;;
  define d ;;;
  d <- load_line (Some "t.c") define_F ;;
  define d ;;;
  load_line (Some "t.c") (call_F arg).

(** The argument list of [F(A)] before and after [macro_expand_args],
    and the replacement. *)
Definition alias_args_run : M (list (list ref) * (list ref * list (list ref))) :=
  l <- alias_setup "A" ;;
  s <- get ;;
  match macros s !! "F" with
  | Some m =>
    let args := [slice l 2 3] in
    ra <- macro_expand_args (expand_macros 10) m args ;;
    ret (args, ra)
  | None => raise KeyError
  end.

(** The tokens of [F(b)] before and after [expand_macros], with the
    line numbers of the argument token [b]. *)
Definition alias_expand_run : M (list ref * list ref * Z * Z) :=
  l <- alias_setup "b" ;;
  s <- get ;;
  res <- expand_macros 10 l [] ;;
  s' <- get ;;
  ret (l, res, lineno (tok (heap s) 11), lineno (tok (heap s') 11)).

(** C4, as stated, fails for the argument tokens. [macro_expand_args]
    leaves the caller's argument list of [F(A)] changed, from the token
    [A] (object 11) to the expansion of [A] (object 14), and the
    replacement it returns holds that same object 14. [expand_macros] on
    [F(b)] returns the argument token [b] itself (object 11) and has
    overwritten its line number 4 with 3. *)
Lemma expansion_aliases_arguments :
  (∃ s', alias_args_run empty_state
         = Ok ([[11%nat]], ([14%nat], [[14%nat]])) s')
  ∧ (∃ s', alias_expand_run empty_state
           = Ok ([9%nat; 10%nat; 11%nat; 12%nat], [11%nat], 4, 3) s').
Proof. split; eexists; vm_compute; reflexivity. Qed.

(** ** The comma before an empty variadic argument *)

Lemma respects_Ok {A} n P (m : M A) Q s a s' :
  respects n P m Q → (n ≤ length (heap s))%nat → m s = Ok a s' →
  frame_rel P s s' ∧ Q a.
Proof. intros Hm Hn Hrun. specialize (Hm s Hn). by rewrite Hrun in Hm. Qed.

Lemma heap_grows {A} (m : M A) Q s a s' :
  respects 0 (fun _ => True) m Q → m s = Ok a s' →
  (length (heap s) ≤ length (heap s'))%nat.
Proof.
  intros Hm Hrun. destruct (respects_Ok _ _ _ _ _ _ _ Hm (Nat.le_0_l _) Hrun) as [[H _] _].
  done.
Qed.

Lemma copy_token_spec r s :
  copy_token r s = Ok (length (heap s)) (with_heap (heap s ++ [tok (heap s) r]) s).
Proof. reflexivity. Qed.

Lemma copy_tokens_spec rs : ∀ s,
  ∃ s', copy_tokens rs s = Ok (seq (length (heap s)) (length rs)) s'
        ∧ length (heap s') = (length (heap s) + length rs)%nat.
Proof.
  induction rs as [|r rs IH]; intros s; simpl.
  - exists s. split; [done|lia].
  - unfold bind at 1. rewrite copy_token_spec. unfold bind at 1.
    destruct (IH (with_heap (heap s ++ [tok (heap s) r]) s)) as (s' & Hrun & Hlen).
    rewrite Hrun. simpl in *. rewrite length_app, Nat.add_1_r in *. simpl in *.
    exists s'. split; [done|lia].
Qed.

(** [apply_str_patch] keeps the length of the replacement and puts new
    tokens only. *)
Lemma apply_str_patch_positions args sp : ∀ se rep s rep' s',
  apply_str_patch args sp se rep s = Ok rep' s' →
  (length (heap s) ≤ length (heap s'))%nat
  ∧ length rep' = length rep
  ∧ ∀ i c, rep' !! i = Some c → rep !! i = Some c ∨ (length (heap s) ≤ c)%nat.
Proof.
  induction sp as [|[argnum i] sp IH]; intros se rep s rep' s' Hrun; simpl in Hrun.
  - inv_ret Hrun. split_and!; [done|done|]. intros i c Hc. by left.
  - inv_bind Hrun. inv_bind Hrun. inv_bind Hrun. inv_bind Hrun. inv_bind Hrun.
    assert (H1 : (length (heap s) ≤ length (heap s0))%nat).
    { eapply (heap_grows _ (fun _ => True)); [|exact Hrun0].
      destruct (se !! argnum); [by apply respects_ret|].
      eapply respects_bind with (Q := fun _ => True);
        [apply respects_index; by apply Forall_true|]. intros arg _.
      eapply respects_bind; [apply resp_stringize; by apply Forall_true|].
      intros. by apply respects_ret. }
    unfold index in Hrun1. destruct (rep !! i) as [r|] eqn:Hr; [|done].
    inv_ret Hrun1. rewrite copy_token_spec in Hrun2. injection Hrun2 as <- <-.
    assert (s3 = with_heap (heap s0 ++ [tok (heap s0) r]) s0) as ->.
    { destruct (a !! argnum); [by inv_ret Hrun3|done]. }
    unfold assign, modify in Hrun4. injection Hrun4 as Hs4.
    apply IH in Hrun as (H2 & H3 & H4). subst s4. simpl in H2, H4.
    rewrite length_insert, length_app in H2, H4. simpl in H2, H4.
    rewrite length_insert in H3.
    split_and!; [lia|done|].
    intros j c Hc. destruct (H4 j c Hc) as [Hj|Hj]; [|right; lia].
    destruct (decide (i = j)) as [->|Hne].
    + rewrite list_lookup_insert_eq in Hj by (by eapply lookup_lt_Some).
      injection Hj as <-. right. lia.
    + rewrite list_lookup_insert_ne in Hj by done. by left.
Qed.

Lemma mark_commas_spec vcp : ∀ rep s rep' s',
  mark_commas vcp rep s = Ok rep' s' →
  s' = s
  ∧ length rep' = length rep
  ∧ (∀ p, p ∈ vcp → rep' !! p = Some None)
  ∧ ∀ i c, rep' !! i = Some (Some c) → rep !! i = Some (Some c).
Proof.
  induction vcp as [|p vcp IH]; intros rep s rep' s' Hrun; simpl in Hrun.
  - inv_ret Hrun. split_and!; [done|done| |done].
    intros p Hp. by apply elem_of_nil in Hp.
  - case_bool_decide as Hlt; [|done].
    apply IH in Hrun as (-> & Hlen & Hmarked & Hkept). rewrite length_insert in Hlen.
    assert (Hkept' : ∀ i c, rep' !! i = Some (Some c) → rep !! i = Some (Some c) ∧ i ≠ p).
    { intros i c Hi. apply Hkept in Hi. destruct (decide (i = p)) as [->|Hne].
      - by rewrite list_lookup_insert_eq in Hi.
      - by rewrite list_lookup_insert_ne in Hi. }
    split_and!; [done|done| |].
    + intros q Hq. apply elem_of_cons in Hq as [->|Hq]; [|by apply Hmarked].
      destruct (rep' !! p) as [[c|]|] eqn:Hp.
      * by destruct (Hkept' _ _ Hp).
      * done.
      * apply lookup_ge_None in Hp. lia.
    + intros i c Hi. by destruct (Hkept' _ _ Hi).
Qed.

(** [#define LOG(fmt, ...) printf(fmt, ##__VA_ARGS__)] and two calls. *)
Definition define_LOG : list token :=
  [lexed t_ID "LOG" 1; lexed "(" "(" 1; lexed t_ID "fmt" 1; lexed "," "," 1;
   lexed t_SPACE " " 1; lexed "." "." 1; lexed "." "." 1; lexed "." "." 1;
   lexed ")" ")" 1; lexed t_SPACE " " 1; lexed t_ID "printf" 1; lexed "(" "(" 1;
   lexed t_ID "fmt" 1; lexed "," "," 1; lexed t_SPACE " " 1;
   lexed "CPP_DPOUND" "##" 1; lexed t_ID "__VA_ARGS__" 1; lexed ")" ")" 1].

Definition str_hi : string := quote +:+ "hi" +:+ quote.
Definition str_fmt : string := quote +:+ "x=%d" +:+ quote.

Definition call_LOG_hi : list token :=
  [lexed t_ID "LOG" 2; lexed "(" "(" 2; lexed t_STRING str_hi 2; lexed ")" ")" 2].

Definition call_LOG_x : list token :=
  [lexed t_ID "LOG" 3; lexed "(" "(" 3; lexed t_STRING str_fmt 3; lexed "," "," 3;
   lexed t_SPACE " " 3; lexed t_INTEGER "7" 3; lexed ")" ")" 3].

Definition run_LOG (call : list token) : M (list ref) :=
  d <- load_line (Some "t.c") define_LOG ;;
  define d ;;;
  l <- load_line (Some "t.c") call ;;
  expand_macros 20 l [].

(** C6. When the variadic argument of an invocation is empty, the copy
    of every token at a position of [var_comma_patch] is absent from the
    replacement that [macro_expand_args] produces. With
    [#define LOG(fmt, ...) printf(fmt, ##__VA_ARGS__)], [LOG("hi")]
    expands to [printf("hi")] and [LOG("x=%d", 7)] to
    [printf("x=%d", 7)]. *)
Theorem variadic_comma_elision :
  (∀ fuel m args s ra s' p c,
     variadic m = true → last args = Some [] →
     (∀ r, r ∈ concat args → (r < length (heap s))%nat) →
     macro_expand_args (expand_macros fuel) m args s = Ok ra s' →
     p ∈ var_comma_patch m →
     seq (length (heap s)) (length (mvalue m)) !! p = Some c →
     c ∉ ra.1)
  ∧ run_values (run_LOG call_LOG_hi) empty_state
    = Some ["printf"; "("; str_hi; ")"]
  ∧ run_values (run_LOG call_LOG_x) empty_state
    = Some ["printf"; "("; str_fmt; ","; " "; "7"; ")"].
Proof.
  split_and!; [|by vm_compute|by vm_compute].
  intros fuel m args s ra s' p c Hvar Hlast Hargs Hrun Hp Hc.
  unfold macro_expand_args in Hrun.
  inv_bind Hrun. inv_bind Hrun. inv_bind Hrun. inv_bind Hrun. inv_bind Hrun.
  inv_ret Hrun. simpl.
  destruct (copy_tokens_spec (mvalue m) s) as (s0' & Hcopy & Hlen0).
  rewrite Hcopy in Hrun0. injection Hrun0 as <- <-.
  apply apply_str_patch_positions in Hrun1 as (Hgrow1 & Hlen1 & Hpos1).
  rewrite Hvar in Hrun2, Hrun3. unfold index_last in Hrun2. rewrite Hlast in Hrun2.
  inv_ret Hrun2. simpl in Hrun3.
  apply mark_commas_spec in Hrun3 as (-> & Hlen2 & Hmarked & Hkept).
  pose proof (lookup_lt_Some _ _ _ Hc) as Hplt. rewrite length_seq in Hplt.
  apply lookup_seq in Hc as [-> _].
  set (n0 := length (heap s)) in *. set (len := length (mvalue m)) in *.
  set (P := fun r : nat => r ≠ (n0 + p)%nat).
  assert (P_fresh : ∀ r, (n0 + len ≤ r)%nat → P r) by (unfold P; lia).
  assert (HPargs : Forall (Forall P) args).
  { apply Forall_forall. intros arg Harg. apply Forall_forall. intros r Hr.
    assert (r < n0)%nat; [|unfold P; lia].
    apply Hargs, list_elem_of_In, in_concat. exists arg. by rewrite <-!list_elem_of_In. }
  assert (HPrep : Forall (opt_ok P) a2).
  { apply Forall_lookup. intros i o Hi r ->. intros ->.
    pose proof (Hkept _ _ Hi) as Hk. rewrite list_lookup_fmap in Hk.
    destruct (a0 !! i) as [c'|] eqn:Hc'; [|done]. injection Hk as ->.
    destruct (Hpos1 _ _ Hc') as [Hseq|Hge]; [|lia].
    apply lookup_seq in Hseq as [Heq _].
    assert (i = p) as -> by (fold n0 in Heq; lia).
    rewrite (Hmarked p Hp) in Hi. done. }
  pose proof (resp_apply_patch (n0 + len) P (expand_macros fuel)
                (fun toks ef => resp_expand_macros _ _ P_fresh fuel toks ef)
                (patch m) args [] a2 HPargs HPrep) as Hresp.
  assert (Hbig : (n0 + len ≤ length (heap s1))%nat) by lia.
  destruct (respects_Ok _ _ _ _ _ _ _ Hresp Hbig Hrun4) as [_ [Hra _]].
  apply Forall_omap_id in Hra. intros Hin.
  by apply (proj1 (Forall_forall _ _) Hra _ Hin).
Qed.

(** The invocation [LOG("hi")]: the table and the tokens of the call,
    the macro as [define] stored it, and the argument lists that
    [expand_macros] hands over. *)
Definition log_state : state :=
  match (d <- load_line (Some "t.c") define_LOG ;;
         define d ;;;
         load_line (Some "t.c") call_LOG_hi) empty_state with
  | Ok _ s => s
  | _ => empty_state
  end.

Definition log_macro : Macro :=
  MkMacro "LOG" [10; 11; 12; 13; 16; 17]%nat (Some ["fmt"; "__VA_ARGS__"]) true
          "__VA_ARGS__" [(PConcat, 1, 4); (PExpand, 0, 2)]%nat [] [3%nat].

Lemma variadic_comma_elision_witness :
  macros log_state !! "LOG" = Some log_macro
  ∧ ∃ ra s',
      macro_expand_args (expand_macros 20) log_macro [[20%nat]; []] log_state = Ok ra s'
      ∧ values_of s' ra.1 = ["printf"; "("; str_hi; ")"]
      ∧ 25%nat ∉ ra.1.
Proof.
  split; [by vm_compute|].
  eexists _, _. split; [by vm_compute|]. split; [by vm_compute|].
  eapply (proj1 variadic_comma_elision 20%nat log_macro [[20%nat]; []] log_state
            _ _ 3%nat 25%nat).
  - reflexivity.
  - reflexivity.
  - intros r Hr. simpl in Hr. apply list_elem_of_singleton in Hr as ->.
    vm_compute. lia.
  - by vm_compute.
  - by left.
  - reflexivity.
Defined.

(** ** Object-like macros: the specification's reading

    These definitions follow the words of the specification: every
    occurrence of an object-like macro outside its own expansion chain
    is replaced by its replacement list, itself expanded with the macro
    added to the chain; an occurrence inside the chain stays. The
    produced tokens carry the line of the replaced token. *)

(** A token without its [expanded_from] annotation. *)
Definition erase (t : token) : token :=
  Token (ttype t) (value t) (lineno t) (source t) None.

(** A token that is not replaced: [__LINE__] becomes the line number. *)
Definition spec_keep (t : token) : token :=
  if String.eqb (value t) "__LINE__" then line_token t else t.

Fixpoint spec_list (f : token → option (list token)) (toks : list token)
    : option (list token) :=
  match toks with
  | [] => Some []
  | t :: toks' =>
    match f t, spec_list f toks' with
    | Some a, Some b => Some (a ++ b)
    | _, _ => None
    end
  end.

Definition spec_token (rec : list string → list token → option (list token))
    (mt : gmap string (list token)) (chain : list string) (t : token)
    : option (list token) :=
  if String.eqb (ttype t) t_ID then
    match mt !! value t with
    | Some R =>
      if bool_decide (value t ∈ chain) then Some [spec_keep t]
      else (fun l : list token => set_lineno (lineno t) <$> l)
             <$> rec (chain ++ [value t]) R
    | None => Some [spec_keep t]
    end
  else Some [t].

(** [d] bounds the depth of nested replacements. *)
Fixpoint spec_expand (d : nat) (mt : gmap string (list token)) (chain : list string)
    (toks : list token) : option (list token) :=
  match d with
  | O => None
  | S d' => spec_list (spec_token (spec_expand d' mt) mt chain) toks
  end.

(** The depth is bounded by the number of macros outside the chain. *)
Lemma spec_expand_total (mt : gmap string (list token)) (d : nat) :
  ∀ chain toks,
    (size (dom mt ∖ list_to_set chain : gset string) < d)%nat →
    is_Some (spec_expand d mt chain toks).
Proof.
  induction d as [|d IH]; intros chain toks Hd; [lia|]. simpl.
  induction toks as [|t toks IHt]; simpl; [by eexists|].
  destruct IHt as [b ->].
  assert (Ht : is_Some (spec_token (spec_expand d mt) mt chain t)).
  { unfold spec_token. destruct (String.eqb (ttype t) t_ID); [|by eexists].
    destruct (mt !! value t) as [R|] eqn:HR; [|by eexists].
    case_bool_decide as Hin; [by eexists|].
    destruct (IH (chain ++ [value t]) R) as [out ->]; [|by eexists].
    assert (dom mt ∖ list_to_set (chain ++ [value t]) ⊂
            (dom mt ∖ list_to_set chain : gset string)) as Hsub.
    { apply elem_of_dom_2 in HR. rewrite list_to_set_app_L.
      split; [set_solver|]. intros Hs.
      assert (value t ∈ dom mt ∖ (list_to_set chain : gset string)) as Hv.
      { apply elem_of_difference. split; [done|]. by rewrite elem_of_list_to_set. }
      apply Hs in Hv. set_solver. }
    apply subset_size in Hsub. lia. }
  destruct Ht as [a ->]. by eexists.
Qed.

(** ** More fuel gives the same result *)

(** [m'] does what [m] does, wherever [m] has fuel enough. *)
Definition refines {A} (m m' : M A) : Prop :=
  ∀ s, m s = OutOfFuel ∨ m' s = m s.

Lemma refines_refl {A} (m : M A) : refines m m.
Proof. intros s. by right. Qed.

Lemma refines_bind {A B} (m m' : M A) (k k' : A → M B) :
  refines m m' → (∀ a, refines (k a) (k' a)) → refines (bind m k) (bind m' k').
Proof.
  intros Hm Hk s. unfold bind. destruct (Hm s) as [Hs|Hs]; rewrite Hs; [by left|].
  destruct (m s) as [a s1|e s1|]; [apply Hk|by right|by left].
Qed.

Lemma refines_out_of_fuel {A} (m : M A) : refines (fun _ => OutOfFuel) m.
Proof. intros s. by left. Qed.

Ltac refines_step :=
  first
    [ progress intros
    | apply refines_refl
    | assumption
    | match goal with
      | H : ∀ _ _, refines _ _ |- _ => apply H
      | H : ∀ _ _ _, refines _ _ |- _ => apply H
      | H : ∀ _ _ _ _, refines _ _ |- _ => apply H
      end
    | apply refines_bind
    | match goal with
      | |- refines (match ?x with _ => _ end) _ => destruct x eqn:?
      | |- refines (let '(_, _) := ?x in _) _ => destruct x eqn:?
      end ].

Section RefinesExpandStep.
Variable em em' : list ref → list string → M (list ref).
Variable el el' : list ref → nat → list string → M (list ref).
Hypothesis Hem : ∀ toks ef, refines (em toks ef) (em' toks ef).
Hypothesis Hel : ∀ toks i ef, refines (el toks i ef) (el' toks i ef).

Lemma refines_apply_patch pl : ∀ args expanded rep,
  refines (apply_patch em pl args expanded rep) (apply_patch em' pl args expanded rep).
Proof.
  induction pl as [|[[pt argnum] i] pl IH]; intros args expanded rep; simpl;
    repeat refines_step.
Qed.

Lemma refines_macro_expand_args m args :
  refines (macro_expand_args em m args) (macro_expand_args em' m args).
Proof.
  pose proof refines_apply_patch. unfold macro_expand_args. repeat refines_step.
Qed.

Lemma refines_expand_step tokens i ef :
  refines (expand_step em el tokens i ef) (expand_step em' el' tokens i ef).
Proof.
  pose proof refines_macro_expand_args.
  unfold expand_step, expand_function_like, line_or_next. repeat refines_step.
Qed.
End RefinesExpandStep.

Lemma expand_loop_more_fuel fuel : ∀ tokens i ef,
  refines (expand_loop fuel tokens i ef) (expand_loop (S fuel) tokens i ef).
Proof.
  induction fuel as [|fuel IH]; intros tokens i ef; [apply refines_out_of_fuel|].
  cbn [expand_loop]. apply refines_expand_step; [|done].
  intros toks ef'. apply refines_bind; [apply refines_refl|]. intros _. apply IH.
Qed.

Lemma expand_loop_fuel_le fuel fuel' tokens i ef s res s' :
  (fuel ≤ fuel')%nat →
  expand_loop fuel tokens i ef s = Ok res s' →
  expand_loop fuel' tokens i ef s = Ok res s'.
Proof.
  induction 1 as [|fuel' Hle IH]; [done|]. intros Hrun.
  destruct (expand_loop_more_fuel fuel' tokens i ef s) as [H|H]; [|by rewrite H; auto].
  rewrite IH in H; done.
Qed.

Lemma expand_macros_fuel_le fuel fuel' tokens ef s res s' :
  (fuel ≤ fuel')%nat →
  expand_macros fuel tokens ef s = Ok res s' →
  expand_macros fuel' tokens ef s = Ok res s'.
Proof.
  intros Hle. unfold expand_macros, bind.
  destruct (for_each ensure_expanded_from tokens s); [|done|done].
  by apply expand_loop_fuel_le.
Qed.

(** ** Object-like macros: the code against the specification *)

Definition view (s : state) (r : ref) : token := erase (tok (heap s) r).

(** [r] is a token of the replacement list of a stored object-like
    macro. *)
Definition stored (s : state) (r : ref) : Prop :=
  ∃ k m, macros s !! k = Some m ∧ arglist m = None ∧ r ∈ mvalue m.

(** [r] does not name a macro with parameters. *)
Definition plain (s : state) (r : ref) : Prop :=
  ttype (tok (heap s) r) = t_ID →
  ∀ m, macros s !! value (tok (heap s) r) = Some m → arglist m = None.

(** The lists behind [expanded_from] that exist in [s] are the same in
    [s']. *)
Definition lists_kept (s s' : state) : Prop :=
  (length (lists s) ≤ length (lists s'))%nat
  ∧ ∀ l, (l < length (lists s))%nat → lists s' !! l = lists s !! l.

Lemma lists_kept_refl s : lists_kept s s.
Proof. by split. Qed.

Lemma lists_kept_trans s1 s2 s3 : lists_kept s1 s2 → lists_kept s2 s3 → lists_kept s1 s3.
Proof.
  intros [H1 H2] [H3 H4]. split; [lia|]. intros l Hl. rewrite H4 by lia. by apply H2.
Qed.

Lemma tok_app_l (h l : list token) (r : ref) :
  (r < length h)%nat → tok (h ++ l) r = tok h r.
Proof. intros Hr. unfold tok. by rewrite lookup_app_l. Qed.

Lemma copy_tokens_valid rs : ∀ s,
  Forall (fun r => (r < length (heap s))%nat) rs →
  copy_tokens rs s
  = Ok (seq (length (heap s)) (length rs))
       (with_heap (heap s ++ (tok (heap s) <$> rs)) s).
Proof.
  induction rs as [|r rs IH]; intros s Hrs; simpl.
  - unfold ret. rewrite app_nil_r. by destruct s.
  - inversion Hrs as [|? ? Hr Hrs']; subst.
    unfold bind at 1. rewrite copy_token_spec. unfold bind at 1. rewrite IH.
    + simpl. rewrite length_app, Nat.add_1_r. unfold ret, with_heap. simpl.
      rewrite <-app_assoc. simpl. do 3 f_equal. f_equal.
      apply list_fmap_ext. intros i r' Hr'. apply tok_app_l.
      by eapply (proj1 (Forall_lookup _ _) Hrs').
    + simpl. eapply Forall_impl; [exact Hrs'|]. intros r' Hr'. simpl in Hr'.
      rewrite length_app. lia.
Qed.

(** The first loop of [expand_macros] on tokens without [expanded_from]. *)
Lemma init_fresh tokens : ∀ s,
  NoDup tokens →
  Forall (fun r => (r < length (heap s))%nat ∧ expanded_from (tok (heap s) r) = None)
         tokens →
  ∃ s', for_each ensure_expanded_from tokens s = Ok tt s'
        ∧ macros s' = macros s
        ∧ length (heap s') = length (heap s)
        ∧ lists_kept s s'
        ∧ (∀ r, r ∉ tokens → heap s' !! r = heap s !! r)
        ∧ Forall (fun r => ∃ l, tok (heap s') r = set_expanded_from l (tok (heap s) r)
                               ∧ (length (lists s) ≤ l < length (lists s'))%nat
                               ∧ lists s' !! l = Some []) tokens.
Proof.
  induction tokens as [|r tokens IH]; intros s Hnd Htok; simpl.
  - exists s. split_and!; first [done | apply lists_kept_refl].
  - inversion Hnd as [|? ? Hnotin Hnd']; subst.
    inversion Htok as [|? ? [Hr Hef] Htok']; subst.
    unfold bind at 1. unfold ensure_expanded_from at 1. unfold bind at 1. simpl.
    rewrite Hef. unfold bind at 1. simpl.
    set (s1 := with_heap _ _).
    assert (Hother : ∀ r', r' ≠ r → tok (heap s1) r' = tok (heap s) r').
    { intros r' Hne. subst s1. simpl. rewrite tok_insert. case_bool_decide; [|done].
      naive_solver. }
    destruct (IH s1) as (s' & Hrun & Hmac & Hlen & [Hl1 Hl2] & Hframe & Hall); [done| |].
    { apply Forall_forall. intros r' Hin.
      destruct (proj1 (Forall_forall _ _) Htok' r' Hin) as [Hr' Hef'].
      assert (r' ≠ r) by (intros ->; done).
      rewrite Hother by done. subst s1. simpl. rewrite length_insert. done. }
    exists s'. subst s1. simpl in *. rewrite length_insert, length_app in *. simpl in *.
    split_and!; [done|done|lia| | |].
    + split; [lia|]. intros l Hl. rewrite Hl2 by lia. by apply lookup_app_l.
    + intros r' Hr'. rewrite Hframe by (intros ?; apply Hr'; by right).
      apply list_lookup_insert_ne. intros ->. apply Hr'. by left.
    + constructor.
      * exists (length (lists s)). split_and!; [| lia | lia |].
        -- unfold tok. rewrite Hframe by done.
           by rewrite list_lookup_insert_eq by done.
        -- rewrite Hl2 by lia. rewrite lookup_app_r by lia.
           by rewrite Nat.sub_diag.
      * apply Forall_forall. intros r' Hin.
        destruct (proj1 (Forall_forall _ _) Hall r' Hin) as (l & Ht & Hl & Hnil).
        exists l. split_and!; [|lia|lia|done].
        rewrite Ht. f_equal. unfold tok. rewrite list_lookup_insert_ne; [done|].
        intros ->. done.
Qed.

Lemma stamp_spec r e s l :
  (e < length (heap s))%nat →
  expanded_from (tok (heap s) e) = Some l →
  stamp r e s
  = Ok tt (with_lists
             (<[l := default [] (lists s !! l) ++ [value (tok (heap s) r)]]> (lists s))
             (with_heap
                (<[e := set_lineno (lineno (tok (heap s) r)) (tok (heap s) e)]> (heap s))
                s)).
Proof.
  intros He Hef. unfold stamp, bind, deref, assign, modify, ensure_expanded_from, bind.
  simpl. rewrite tok_insert. rewrite bool_decide_eq_true_2 by done. simpl.
  rewrite Hef. simpl. rewrite tok_insert. rewrite bool_decide_eq_true_2 by done. simpl.
  rewrite Hef. reflexivity.
Qed.

(** The loop [for e in ex:] after an expansion: every token of [ex]
    takes the line [L] of the replaced token, whose spelling [v] is
    appended to the token's [expanded_from]. *)
Lemma stamp_all r L v (nl : nat) ex : ∀ s,
  lineno (tok (heap s) r) = L → value (tok (heap s) r) = v →
  Forall (fun e => (e < length (heap s))%nat
                   ∧ ∃ l, expanded_from (tok (heap s) e) = Some l ∧ (nl ≤ l)%nat) ex →
  ∃ s', for_each (stamp r) ex s = Ok tt s'
        ∧ macros s' = macros s
        ∧ length (heap s') = length (heap s)
        ∧ length (lists s') = length (lists s)
        ∧ (∀ r', r' ∉ ex → heap s' !! r' = heap s !! r')
        ∧ (∀ e, e ∈ ex → tok (heap s') e = set_lineno L (tok (heap s) e))
        ∧ (∀ l, (l < nl)%nat → lists s' !! l = lists s !! l)
        ∧ (∀ l x, x ∈ default [] (lists s !! l) → x ∈ default [] (lists s' !! l))
        ∧ (∀ e l, e ∈ ex → expanded_from (tok (heap s) e) = Some l →
                  (l < length (lists s))%nat → v ∈ default [] (lists s' !! l)).
Proof.
  induction ex as [|e ex IH]; intros s HL Hv Hex; simpl.
  - exists s. split_and!; try done.
    + intros e H. by apply elem_of_nil in H.
    + intros e l H. by apply elem_of_nil in H.
  - inversion Hex as [|? ? (He & l & Hef & Hl) Hex']; subst.
    unfold bind at 1. rewrite (stamp_spec r e s l) by done.
    set (s1 := with_lists _ _).
    assert (Htok : ∀ r', tok (heap s1) r'
              = if bool_decide (e = r') then set_lineno (lineno (tok (heap s) r)) (tok (heap s) r')
                else tok (heap s) r').
    { intros r'. subst s1. simpl. rewrite tok_insert.
      repeat case_bool_decide; try done; naive_solver. }
    assert (Hkeep : ∀ r', lineno (tok (heap s1) r') = lineno (tok (heap s) r')
                          ∨ lineno (tok (heap s1) r') = lineno (tok (heap s) r)).
    { intros r'. rewrite Htok. case_bool_decide; [by right|by left]. }
    assert (Hattr : ∀ r', value (tok (heap s1) r') = value (tok (heap s) r')
                          ∧ expanded_from (tok (heap s1) r') = expanded_from (tok (heap s) r')
                          ∧ ttype (tok (heap s1) r') = ttype (tok (heap s) r')).
    { intros r'. rewrite Htok. by case_bool_decide. }
    assert (Hmem : ∀ l' x, x ∈ default [] (lists s !! l') → x ∈ default [] (lists s1 !! l')).
    { intros l' x Hx. subst s1. simpl.
      destruct (decide (l = l')) as [<-|Hne].
      - destruct (decide (l < length (lists s))%nat).
        + rewrite list_lookup_insert_eq by done. simpl. apply elem_of_app. by left.
        + by rewrite list_insert_ge by lia.
      - by rewrite list_lookup_insert_ne. }
    destruct (IH s1) as (s' & Hrun & Hmac & Hlen & Hll & Hframe & Hset & Hlow & Hin & Hnew).
    { destruct (Hkeep r) as [H|H]; rewrite H; done. }
    { by rewrite (proj1 (Hattr r)). }
    { apply Forall_forall. intros e' He'.
      destruct (proj1 (Forall_forall _ _) Hex' e' He') as (He1 & l' & Hef' & Hl').
      split; [subst s1; simpl; by rewrite length_insert|].
      exists l'. split; [|done]. by rewrite (proj1 (proj2 (Hattr e'))). }
    exists s'. rewrite Hrun. subst s1. simpl in *.
    rewrite ?length_insert in Hlen. rewrite ?length_insert in Hll.
    split_and!; try done.
    + intros r' Hr'. rewrite Hframe by (intros ?; apply Hr'; by right).
      apply list_lookup_insert_ne. intros ->. apply Hr'. by left.
    + intros e' He'. destruct (decide (e' ∈ ex)) as [Hin'|Hnin].
      * rewrite Hset by done. rewrite Htok. case_bool_decide; [|done].
        by destruct (tok (heap s) e').
      * assert (e' = e) as -> by (apply elem_of_cons in He' as [?|?]; done).
        unfold tok at 1. rewrite Hframe by done. fold (tok
          (<[e:=set_lineno (lineno (tok (heap s) r)) (tok (heap s) e)]> (heap s)) e).
        rewrite tok_insert. by rewrite bool_decide_eq_true_2.
    + intros l' Hl'. rewrite Hlow by done. apply list_lookup_insert_ne. lia.
    + intros l' x Hx. apply Hin. by apply Hmem.
    + intros e' l' He' Hef' Hl'. destruct (decide (e' ∈ ex)) as [Hin'|Hnin].
      * apply (Hnew e' l' Hin'); [|by rewrite length_insert].
        by rewrite (proj1 (proj2 (Hattr e'))).
      * assert (e' = e) as -> by (apply elem_of_cons in He' as [?|?]; done).
        assert (l' = l) as -> by congruence.
        apply Hin. rewrite list_lookup_insert_eq by done. simpl.
        apply elem_of_app. right. by apply list_elem_of_singleton.
Qed.

(** A token of a result that the loop passes over when it meets it
    again: it is no identifier, or names no macro, or names a macro of
    the chain or of its own [expanded_from]. Its list is one of those
    created from address [nl] on. *)
Definition painted (s : state) (chain : list string) (nl : nat) (e : ref) : Prop :=
  (e < length (heap s))%nat
  ∧ ∃ l, expanded_from (tok (heap s) e) = Some l
         ∧ (nl ≤ l < length (lists s))%nat
         ∧ (ttype (tok (heap s) e) = t_ID →
            value (tok (heap s) e) ≠ "__LINE__"
            ∧ (macros s !! value (tok (heap s) e) = None
               ∨ value (tok (heap s) e) ∈ chain
               ∨ value (tok (heap s) e) ∈ default [] (lists s !! l))).

Lemma painted_mono s s' chain nl e :
  painted s chain nl e →
  macros s' = macros s →
  heap s' !! e = heap s !! e →
  lists_kept s s' →
  painted s' chain nl e.
Proof.
  intros (He & l & Hef & Hl & Hid) Hmac Hheap [Hlen Hlists].
  assert (Htok : tok (heap s') e = tok (heap s) e) by (unfold tok; by rewrite Hheap).
  split.
  - apply lookup_lt_is_Some. rewrite Hheap. by apply lookup_lt_is_Some.
  - exists l. rewrite Htok, Hmac, Hlists by lia. split_and!; [done|lia|lia|done].
Qed.

(** The loop passes over painted tokens. *)
Lemma rescan chain nl s ex : ∀ done rest fuel,
  Forall (painted s chain nl) ex →
  expand_loop (length ex + fuel) (done ++ ex ++ rest) (length done) chain s
  = expand_loop fuel (done ++ ex ++ rest) (length done + length ex)%nat chain s.
Proof.
  induction ex as [|e ex IH]; intros done rest fuel Hex.
  - simpl. by rewrite Nat.add_0_r.
  - inversion Hex as [|? ? (He & l & Hef & Hl & Hid) Hex']; subst.
    assert (Hnext : expand_loop (length ex + fuel) (done ++ (e :: ex) ++ rest)
                      (S (length done)) chain s
                    = expand_loop fuel (done ++ (e :: ex) ++ rest)
                        (length done + length (e :: ex))%nat chain s).
    { specialize (IH (done ++ [e]) rest fuel Hex').
      rewrite <-app_assoc in IH. simpl in IH. rewrite length_app in IH. simpl in IH.
      rewrite Nat.add_1_r in IH. simpl. rewrite IH. f_equal. lia. }
    rewrite <-Hnext. cbn [length Nat.add expand_loop]. unfold expand_step.
    replace ((done ++ (e :: ex) ++ rest) !! length done) with (Some e)
      by (symmetry; apply list_lookup_middle; done).
    unfold bind at 1. unfold deref at 1.
    destruct (String.eqb (ttype (tok (heap s) e)) t_ID) eqn:Heq; [|done].
    apply String.eqb_eq in Heq. destruct (Hid Heq) as [Hline Hwhy].
    unfold bind at 1. unfold get at 1.
    assert (Hskip : line_or_next (expand_loop (length ex + fuel))
                      (done ++ (e :: ex) ++ rest) (length done) chain e (tok (heap s) e) s
                    = expand_loop (length ex + fuel) (done ++ (e :: ex) ++ rest)
                        (S (length done)) chain s).
    { unfold line_or_next. rewrite (proj2 (String.eqb_neq _ _)) by done. done. }
    destruct (macros s !! value (tok (heap s) e)) as [m|] eqn:Hm; [|done].
    rewrite Hef. unfold bind at 1. unfold read_list at 1.
    destruct Hwhy as [?|[Hin|Hin]]; [done| |].
    + unfold str_in at 2. rewrite (bool_decide_eq_true_2 _ Hin).
      by rewrite andb_false_r.
    + unfold str_in at 1. rewrite (bool_decide_eq_true_2 _ Hin). done.
Qed.

Section ObjectLike.
Variable mt : gmap string (list token).

(** [mt] records the object-like macros of the table, by the spelling
    of their replacement tokens; these tokens exist, carry no
    [expanded_from] and name no macro with parameters. *)
Definition table_ok (s : state) : Prop :=
  ∀ k, match macros s !! k with
       | Some m =>
         match arglist m with
         | None =>
           mt !! k = Some (view s <$> mvalue m)
           ∧ Forall (fun r => (r < length (heap s))%nat
                              ∧ expanded_from (tok (heap s) r) = None
                              ∧ plain s r) (mvalue m)
         | Some _ => mt !! k = None
         end
       | None => mt !! k = None
       end.

Lemma table_ok_stored s r : table_ok s → stored s r → (r < length (heap s))%nat.
Proof.
  intros Htab (k & m & Hk & Harg & Hr). specialize (Htab k). rewrite Hk, Harg in Htab.
  destruct Htab as (_ & Hall). by apply (proj1 (Forall_forall _ _) Hall r).
Qed.

Lemma plain_kept s s' r :
  plain s r → macros s' = macros s → heap s' !! r = heap s !! r → plain s' r.
Proof. intros Hp Hmac Hheap. unfold plain, tok. by rewrite Hmac, Hheap. Qed.

Lemma table_ok_kept s s' :
  table_ok s →
  macros s' = macros s →
  (length (heap s) ≤ length (heap s'))%nat →
  (∀ r, stored s r → heap s' !! r = heap s !! r) →
  table_ok s'.
Proof.
  intros Htab Hmac Hlen Hkeep k. specialize (Htab k). rewrite Hmac.
  destruct (macros s !! k) as [m|] eqn:Hk; [|done].
  destruct (arglist m) eqn:Harg; [done|].
  destruct Htab as (Hmt & Hall).
  assert (Hsame : ∀ r, r ∈ mvalue m → heap s' !! r = heap s !! r).
  { intros r Hr. apply Hkeep. by exists k, m. }
  assert (Htok : ∀ r, r ∈ mvalue m → tok (heap s') r = tok (heap s) r).
  { intros r Hr. unfold tok. by rewrite Hsame. }
  split.
  - rewrite Hmt. f_equal. apply list_fmap_ext. intros i r Hr.
    unfold view. rewrite Htok; [done|]. by eapply list_elem_of_lookup_2.
  - apply Forall_forall. intros r Hr.
    destruct (proj1 (Forall_forall _ _) Hall r Hr) as (H1 & H2 & H3).
    rewrite Htok by done. split_and!; [lia|done|].
    apply (plain_kept s); [done|done|by apply Hsame].
Qed.

(** A token fresh from the lexer, and a token of the list the loop
    works on, before the loop reaches it. *)
Definition fresh (s : state) (r : ref) : Prop :=
  (r < length (heap s))%nat
  ∧ expanded_from (tok (heap s) r) = None
  ∧ plain s r
  ∧ ¬ stored s r.

Definition ready (s : state) (nl : nat) (r : ref) : Prop :=
  (r < length (heap s))%nat
  ∧ ¬ stored s r
  ∧ plain s r
  ∧ ∃ l, expanded_from (tok (heap s) r) = Some l
         ∧ (nl ≤ l < length (lists s))%nat
         ∧ lists s !! l = Some [].

Lemma ready_kept s s' nl r :
  ready s nl r →
  macros s' = macros s →
  heap s' !! r = heap s !! r →
  lists_kept s s' →
  ready s' nl r.
Proof.
  intros (Hr & Hst & Hpl & l & Hef & Hl & Hnil) Hmac Hheap [Hlen Hlists].
  split_and!.
  - apply lookup_lt_is_Some. rewrite Hheap. by apply lookup_lt_is_Some.
  - intros (k & m & Hk & Hin). apply Hst. exists k, m. by rewrite <-Hmac.
  - by apply (plain_kept s).
  - exists l. unfold tok. rewrite Hheap. fold (tok (heap s) r).
    rewrite Hlists by lia. split_and!; [done|lia|lia|done].
Qed.

(** What a call of [expand_macros] on [tokens] in [s] has done when it
    returns [res] in [s']. *)
Definition expanded (s : state) (tokens : list ref) (chain : list string)
    (out : list token) (res : list ref) (s' : state) : Prop :=
  view s' <$> res = out
  ∧ frame_rel (touched s tokens) s s'
  ∧ Forall (touched s tokens) res
  ∧ lists_kept s s'
  ∧ Forall (painted s' chain (length (lists s))) res.
End ObjectLike.

Lemma tok_copies (h l : list token) :
  tok (h ++ l) <$> seq (length h) (length l) = l.
Proof.
  apply list_eq. intros i. rewrite list_lookup_fmap.
  destruct (decide (i < length l)%nat) as [Hi|Hi].
  - rewrite lookup_seq_lt by done. simpl. rewrite tok_app_r.
    destruct (lookup_lt_is_Some_2 l i Hi) as [x Hx]. by rewrite Hx.
  - rewrite lookup_seq_ge by lia. simpl. symmetry. apply lookup_ge_None. lia.
Qed.

(** A token that the loop leaves in place. *)
Lemma keep_step chain nl s r :
  ready s nl r →
  (ttype (tok (heap s) r) = t_ID →
   macros s !! value (tok (heap s) r) = None ∨ value (tok (heap s) r) ∈ chain) →
  ∃ s1,
    (∀ done rest f res s',
       expand_loop f (done ++ [r] ++ rest) (length done + 1)%nat chain s1 = Ok res s' →
       expand_loop (1 + f) (done ++ r :: rest) (length done) chain s = Ok res s')
    ∧ view s1 r = (if String.eqb (ttype (tok (heap s) r)) t_ID
                   then spec_keep (view s r) else view s r)
    ∧ macros s1 = macros s
    ∧ length (heap s1) = length (heap s)
    ∧ lists s1 = lists s
    ∧ (∀ p, p ≠ r → heap s1 !! p = heap s !! p)
    ∧ painted s1 chain nl r.
Proof.
  intros (Hr & Hst & Hpl & l & Hef & Hl & Hnil) Hwhy.
  assert (Hlook : ∀ done rest, (done ++ r :: rest) !! length done = Some r)
    by (intros; by apply list_lookup_middle).
  destruct (String.eqb (ttype (tok (heap s) r)) t_ID) eqn:Hid.
  - apply String.eqb_eq in Hid. specialize (Hwhy Hid).
    assert (Hbranch : ∀ done rest f,
      expand_loop (1 + f) (done ++ r :: rest) (length done) chain s
      = line_or_next (expand_loop f) (done ++ r :: rest) (length done) chain r
          (tok (heap s) r) s).
    { intros done rest f. cbn [Nat.add expand_loop]. unfold expand_step.
      rewrite Hlook. unfold bind at 1. unfold deref at 1.
      rewrite (proj2 (String.eqb_eq _ _) Hid).
      unfold bind at 1. unfold get at 1.
      destruct (macros s !! value (tok (heap s) r)) as [m|] eqn:Hm; [|done].
      rewrite Hef. unfold bind at 1. unfold read_list at 1. rewrite Hnil. simpl.
      destruct Hwhy as [?|Hin]; [done|].
      unfold str_in. by rewrite (bool_decide_eq_true_2 _ Hin). }
    destruct (String.eqb (value (tok (heap s) r)) "__LINE__") eqn:Hline.
    + exists (with_heap (<[r := line_token (tok (heap s) r)]> (heap s)) s).
      split_and!.
      * intros done rest f res s' Hrun. rewrite Hbranch. unfold line_or_next.
        rewrite Hline. unfold bind, assign, modify.
        by rewrite <-Nat.add_1_r.
      * unfold view. simpl. rewrite tok_insert, bool_decide_eq_true_2 by done.
        unfold spec_keep. simpl. by rewrite Hline.
      * done.
      * simpl. by rewrite length_insert.
      * done.
      * intros p Hp. simpl. by apply list_lookup_insert_ne.
      * split; [simpl; by rewrite length_insert|]. simpl.
        rewrite tok_insert, bool_decide_eq_true_2 by done.
        exists l. split_and!; [done|lia|lia|done].
    + exists s. split_and!; try done.
      * intros done rest f res s' Hrun. rewrite Hbranch. unfold line_or_next.
        rewrite Hline. unfold bind, ret. by rewrite <-Nat.add_1_r.
      * unfold spec_keep, view. simpl. by rewrite Hline.
      * split; [done|]. exists l. split_and!; [done|lia|lia|].
        intros _. split; [by apply String.eqb_neq|].
        destruct Hwhy as [?|?]; [by left|by right; left].
  - exists s. split_and!; try done.
    + intros done rest f res s' Hrun. cbn [Nat.add expand_loop]. unfold expand_step.
      rewrite Hlook. unfold bind at 1. unfold deref at 1. rewrite Hid.
      by rewrite <-Nat.add_1_r.
    + split; [done|]. exists l. split_and!; [done|lia|lia|].
      intros Heq. apply String.eqb_eq in Heq. congruence.
Qed.

Section ObjectLikeLoop.
Variable mt : gmap string (list token).
Variable d : nat.

(** The nested calls, on replacement lists, are assumed correct. *)
Hypothesis nested : ∀ tokens chain s out,
  table_ok mt s → NoDup tokens → Forall (fresh s) tokens →
  spec_expand d mt chain (view s <$> tokens) = Some out →
  ∃ fuel res s',
    expand_macros fuel tokens chain s = Ok res s'
    ∧ expanded s tokens chain out res s'.

(** A token that names a macro outside the chain. *)
Lemma replace_step chain nl s r m out :
  table_ok mt s →
  ready s nl r →
  ttype (tok (heap s) r) = t_ID →
  macros s !! value (tok (heap s) r) = Some m →
  value (tok (heap s) r) ∉ chain →
  spec_expand d mt (chain ++ [value (tok (heap s) r)]) (view s <$> mvalue m) = Some out →
  ∃ K ex s1,
    (∀ done rest f res s',
       expand_loop f (done ++ ex ++ rest) (length done + length ex)%nat chain s1
         = Ok res s' →
       expand_loop (K + f) (done ++ r :: rest) (length done) chain s = Ok res s')
    ∧ view s1 <$> ex = (set_lineno (lineno (tok (heap s) r)) <$> out)
    ∧ macros s1 = macros s
    ∧ (length (heap s) ≤ length (heap s1))%nat
    ∧ lists_kept s s1
    ∧ (∀ p, (p < length (heap s))%nat → heap s1 !! p = heap s !! p)
    ∧ Forall (fun e => (length (heap s) ≤ e)%nat) ex
    ∧ Forall (painted s1 chain nl) ex.
Proof.
  intros Htab (Hr & Hst & Hpl & l & Hef & Hl & Hnil) Hid Hm Hchain Hspec.
  pose proof (Hpl Hid m Hm) as Harg.
  set (t := tok (heap s) r) in *.
  pose proof (Htab (value t)) as Hentry. rewrite Hm, Harg in Hentry.
  destruct Hentry as (Hmt & Hval).
  set (rep := seq (length (heap s)) (length (mvalue m))).
  set (s1 := with_heap (heap s ++ (tok (heap s) <$> mvalue m)) s).
  assert (Hcopy : copy_tokens (mvalue m) s = Ok rep s1).
  { apply copy_tokens_valid. eapply Forall_impl; [exact Hval|]. by intros ? [? _]. }
  assert (Hmac1 : macros s1 = macros s) by done.
  assert (Hold : ∀ p, (p < length (heap s))%nat → heap s1 !! p = heap s !! p).
  { intros p Hp. subst s1. simpl. by apply lookup_app_l. }
  assert (Htab1 : table_ok mt s1).
  { apply (table_ok_kept mt s); [done|done| |].
    - subst s1. simpl. rewrite length_app. lia.
    - intros p Hp. apply Hold. by eapply table_ok_stored. }
  assert (Hrep : tok (heap s1) <$> rep = (tok (heap s) <$> mvalue m)).
  { subst s1 rep. simpl.
    rewrite <-(length_fmap (tok (heap s)) (mvalue m)). apply tok_copies. }
  assert (Hlen1 : length (heap s1) = (length (heap s) + length (mvalue m))%nat).
  { subst s1. simpl. by rewrite length_app, length_fmap. }
  assert (Hfresh : Forall (fresh s1) rep).
  { apply Forall_forall. intros e He.
    apply elem_of_seq in He.
    destruct (list_elem_of_lookup_1 rep e) as [i Hi].
    { apply elem_of_seq. lia. }
    assert (Hti : (tok (heap s1) <$> rep) !! i = Some (tok (heap s1) e))
      by (by rewrite list_lookup_fmap, Hi).
    rewrite Hrep, list_lookup_fmap in Hti.
    destruct (mvalue m !! i) as [r0|] eqn:Hr0; [|done]. simpl in Hti.
    injection Hti as Hti.
    assert (Heq : tok (heap s1) e = tok (heap s) r0) by (symmetry; exact Hti).
    destruct (proj1 (Forall_forall _ _) Hval r0) as (Hv1 & Hv2 & Hv3);
      [by eapply list_elem_of_lookup_2|].
    split_and!; [lia| | |].
    - by rewrite Heq.
    - unfold plain. rewrite Heq, Hmac1. exact Hv3.
    - intros Hs. assert (stored s e) as Hs' by done.
      apply (table_ok_stored mt) in Hs'; [lia|done]. }
  assert (Hviews : view s1 <$> rep = (view s <$> mvalue m)).
  { transitivity (erase <$> (tok (heap s1) <$> rep)).
    - by rewrite <-list_fmap_compose.
    - rewrite Hrep. by rewrite <-list_fmap_compose. }
  destruct (nested rep (chain ++ [value t]) s1 out Htab1 (NoDup_seq _ _) Hfresh)
    as (fn & ex & s2 & Hrun & Hview & (Hlen2 & Hmac2 & Hframe2) & Htouch & Hlk2 & Hpaint).
  { by rewrite Hviews. }
  assert (Hex_new : Forall (fun e => (length (heap s) ≤ e)%nat) ex).
  { eapply Forall_impl; [exact Htouch|]. intros e [He|He]; [|lia].
    apply elem_of_seq in He. lia. }
  assert (Hold2 : ∀ p, (p < length (heap s))%nat → heap s2 !! p = heap s !! p).
  { intros p Hp. rewrite Hframe2; [by apply Hold|].
    intros [Hin|Hge]; [apply elem_of_seq in Hin|]; lia. }
  assert (Ht2 : tok (heap s2) r = t) by (unfold tok; by rewrite Hold2).
  destruct (stamp_all r (lineno t) (value t) (length (lists s1)) ex s2)
    as (s3 & Hstamp & Hmac3 & Hlen3 & Hll3 & Hframe3 & Hset3 & Hlow3 & Hmem3 & Hnew3).
  { by rewrite Ht2. }
  { by rewrite Ht2. }
  { eapply Forall_impl; [exact Hpaint|].
    intros e (He & le & Hefe & Hle & _). split; [done|]. exists le. split; [done|lia]. }
  assert (Hold3 : ∀ p, (p < length (heap s))%nat → heap s3 !! p = heap s !! p).
  { intros p Hp. rewrite Hframe3; [by apply Hold2|].
    intros Hin. apply (proj1 (Forall_forall _ _) Hex_new) in Hin. lia. }
  assert (Hlk3 : lists_kept s s3).
  { destruct Hlk2 as [Hlk2a Hlk2b]. split.
    - rewrite Hll3. exact Hlk2a.
    - intros l' Hl'. rewrite Hlow3 by exact Hl'. by apply Hlk2b. }
  assert (Hpaint3 : Forall (painted s3 chain nl) ex).
  { apply Forall_forall. intros e He.
    destruct (proj1 (Forall_forall _ _) Hpaint e He) as (He2 & le & Hefe & Hle & Hide).
    assert (Hte : tok (heap s3) e = set_lineno (lineno t) (tok (heap s2) e))
      by (by apply Hset3).
    split; [lia|]. exists le. rewrite Hte. simpl.
    change (length (lists s1)) with (length (lists s)) in Hle.
    split_and!; [done|lia|lia|].
    intros Hide'. destruct (Hide Hide') as [Hnl Hwhy]. split; [done|].
    rewrite Hmac3. destruct Hwhy as [Hw|[Hw|Hw]].
    - by left.
    - apply elem_of_app in Hw as [Hw|Hw]; [by right; left|].
      apply list_elem_of_singleton in Hw. right; right. rewrite Hw.
      apply (Hnew3 e le He Hefe). lia.
    - right; right. by apply Hmem3. }
  exists (S (fn + length ex)), ex, s3. split_and!.
  - intros done rest f res s' Hcont.
    cbn [Nat.add expand_loop]. unfold expand_step.
    rewrite (list_lookup_middle done rest r (length done) eq_refl).
    unfold bind at 1. unfold deref at 1. fold t.
    rewrite (proj2 (String.eqb_eq _ _) Hid).
    unfold bind at 1. unfold get at 1. rewrite Hm, Hef.
    unfold bind at 1. unfold read_list at 1. rewrite Hnil. simpl default.
    unfold str_in. rewrite bool_decide_eq_false_2 by (apply not_elem_of_nil).
    rewrite (bool_decide_eq_false_2 _ Hchain).
    change (negb false && negb false) with true. cbv iota.
    rewrite Harg. unfold bind at 1. rewrite Hcopy.
    unfold bind at 1.
    change ((for_each ensure_expanded_from rep;;;
             expand_loop (fn + length ex + f) rep 0 (chain ++ [value t])) s1)
      with (expand_macros (fn + length ex + f) rep (chain ++ [value t]) s1).
    rewrite (expand_macros_fuel_le fn (fn + length ex + f) _ _ _ _ _ ltac:(lia) Hrun).
    unfold bind at 1. rewrite Hstamp.
    unfold splice. rewrite take_app_length.
    replace (drop (S (length done)) (done ++ r :: rest)) with rest
      by (by rewrite <-Nat.add_1_r, <-drop_drop, drop_app_length).
    apply (expand_loop_fuel_le (length ex + f)); [lia|].
    rewrite (rescan chain nl s3 ex done rest f Hpaint3). exact Hcont.
  - rewrite <-Hview. rewrite <-list_fmap_compose. apply Forall_fmap_ext_1.
    apply Forall_forall. intros e He. unfold view. simpl.
    rewrite (Hset3 e He). by destruct (tok (heap s2) e).
  - rewrite Hmac3, Hmac2. done.
  - lia.
  - exact Hlk3.
  - exact Hold3.
  - exact Hex_new.
  - exact Hpaint3.
Qed.

(** One token of the list the loop works on. *)
Lemma head_step chain nl s r a :
  table_ok mt s →
  ready s nl r →
  spec_token (spec_expand d mt) mt chain (view s r) = Some a →
  ∃ K ex s1,
    (∀ done rest f res s',
       expand_loop f (done ++ ex ++ rest) (length done + length ex)%nat chain s1
         = Ok res s' →
       expand_loop (K + f) (done ++ r :: rest) (length done) chain s = Ok res s')
    ∧ view s1 <$> ex = a
    ∧ macros s1 = macros s
    ∧ (length (heap s) ≤ length (heap s1))%nat
    ∧ lists_kept s s1
    ∧ (∀ p, (p < length (heap s))%nat → p ≠ r → heap s1 !! p = heap s !! p)
    ∧ Forall (fun e => e = r ∨ (length (heap s) ≤ e)%nat) ex
    ∧ Forall (painted s1 chain nl) ex.
Proof.
  intros Htab Hready Hspec.
  assert (Hkeep :
    (ttype (tok (heap s) r) = t_ID →
     macros s !! value (tok (heap s) r) = None ∨ value (tok (heap s) r) ∈ chain) →
    a = [if String.eqb (ttype (tok (heap s) r)) t_ID
         then spec_keep (view s r) else view s r] →
    ∃ K ex s1,
      (∀ done rest f res s',
         expand_loop f (done ++ ex ++ rest) (length done + length ex)%nat chain s1
           = Ok res s' →
         expand_loop (K + f) (done ++ r :: rest) (length done) chain s = Ok res s')
      ∧ view s1 <$> ex = a
      ∧ macros s1 = macros s
      ∧ (length (heap s) ≤ length (heap s1))%nat
      ∧ lists_kept s s1
      ∧ (∀ p, (p < length (heap s))%nat → p ≠ r → heap s1 !! p = heap s !! p)
      ∧ Forall (fun e => e = r ∨ (length (heap s) ≤ e)%nat) ex
      ∧ Forall (painted s1 chain nl) ex).
  { intros Hwhy Ha.
    destruct (keep_step chain nl s r Hready Hwhy)
      as (s1 & Hrun & Hview & Hmac & Hlen & Hlists & Hframe & Hpaint).
    exists 1%nat, [r], s1. split_and!.
    - exact Hrun.
    - simpl. by rewrite Hview, Ha.
    - done.
    - lia.
    - split; [by rewrite Hlists|]. intros l _. by rewrite Hlists.
    - intros p _ Hp. by apply Hframe.
    - constructor; [by left|constructor].
    - constructor; [done|constructor]. }
  unfold spec_token in Hspec.
  change (ttype (view s r)) with (ttype (tok (heap s) r)) in Hspec.
  change (value (view s r)) with (value (tok (heap s) r)) in Hspec.
  change (lineno (view s r)) with (lineno (tok (heap s) r)) in Hspec.
  destruct (String.eqb (ttype (tok (heap s) r)) t_ID) eqn:Hid.
  - apply String.eqb_eq in Hid.
    pose proof (Htab (value (tok (heap s) r))) as Hentry.
    destruct (macros s !! value (tok (heap s) r)) as [m|] eqn:Hm.
    + assert (Harg : arglist m = None)
        by (destruct Hready as (_ & _ & Hpl & _); by apply Hpl).
      rewrite Harg in Hentry.
      destruct Hentry as (Hmt & Hval). rewrite Hmt in Hspec.
      case_bool_decide as Hchain.
      * apply Hkeep; [by right|]. by injection Hspec.
      * apply fmap_Some in Hspec as (out & Hout & ->).
        destruct (replace_step chain nl s r m out Htab Hready Hid Hm Hchain Hout)
          as (K & ex & s1 & Hrun & Hview & Hmac & Hlen & Hlk & Hframe & Hnew & Hpaint).
        exists K, ex, s1. split_and!; try done.
        -- intros p Hp _. by apply Hframe.
        -- eapply Forall_impl; [exact Hnew|]. intros e He. by right.
    + rewrite Hentry in Hspec. apply Hkeep; [by left|]. by injection Hspec.
  - apply Hkeep; [|by injection Hspec].
    intros Heq. rewrite Heq in Hid. done.
Qed.

(** The loop from index [length done] on, when the tokens before it
    are passed. *)
Lemma loop_object_like chain nl pending : ∀ done s out,
  table_ok mt s →
  NoDup pending →
  Forall (ready s nl) pending →
  spec_list (spec_token (spec_expand d mt) mt chain) (view s <$> pending) = Some out →
  ∃ fuel res s',
    expand_loop fuel (done ++ pending) (length done) chain s = Ok (done ++ res) s'
    ∧ view s' <$> res = out
    ∧ frame_rel (touched s pending) s s'
    ∧ Forall (touched s pending) res
    ∧ lists_kept s s'
    ∧ Forall (painted s' chain nl) res.
Proof.
  induction pending as [|r pending IH]; intros done s out Htab Hnd Hready Hspec.
  - exists 1%nat, [], s. simpl in Hspec. injection Hspec as <-.
    split_and!; [|done|apply frame_rel_refl|done|apply lists_kept_refl|done].
    cbn [expand_loop]. unfold expand_step.
    rewrite (proj2 (lookup_ge_None _ _)); [done|]. rewrite length_app. simpl. lia.
  - inversion Hnd as [|? ? Hnotin Hnd']; subst.
    inversion Hready as [|? ? Hr Hready']; subst.
    cbn [fmap list_fmap spec_list] in Hspec.
    destruct (spec_token (spec_expand d mt) mt chain (view s r)) as [a|] eqn:Ha; [|done].
    destruct (spec_list (spec_token (spec_expand d mt) mt chain) (view s <$> pending))
      as [b|] eqn:Hb; [|done].
    injection Hspec as <-.
    destruct (head_step chain nl s r a Htab Hr Ha)
      as (K & ex & s1 & Hrun & Hview & Hmac & Hlen & Hlk & Hframe & Hnew & Hpaint).
    assert (Hvalid : ∀ p, p ∈ pending → (p < length (heap s))%nat ∧ p ≠ r).
    { intros p Hp. destruct (proj1 (Forall_forall _ _) Hready' p Hp) as [Hlt _].
      split; [done|]. intros ->. done. }
    assert (Htab1 : table_ok mt s1).
    { apply (table_ok_kept mt s); [done|done|done|].
      intros p Hp. apply Hframe; [by eapply table_ok_stored|].
      intros ->. by destruct Hr as (_ & Hst & _). }
    assert (Hready1 : Forall (ready s1 nl) pending).
    { apply Forall_forall. intros p Hp. destruct (Hvalid p Hp).
      apply (ready_kept s); [|done| |done].
      - by apply (proj1 (Forall_forall _ _) Hready' p).
      - by apply Hframe. }
    assert (Hb1 : spec_list (spec_token (spec_expand d mt) mt chain) (view s1 <$> pending)
                  = Some b).
    { rewrite <-Hb. f_equal. apply Forall_fmap_ext_1. apply Forall_forall.
      intros p Hp. destruct (Hvalid p Hp). unfold view, tok. by rewrite Hframe. }
    destruct (IH (done ++ ex) s1 b Htab1 Hnd' Hready1 Hb1)
      as (fuel & res & s' & Hloop & Hres & (Hlen' & Hmac' & Hframe') & Htouch & Hlk' & Hpaint').
    assert (Hex_kept : ∀ e, e ∈ ex → heap s' !! e = heap s1 !! e).
    { intros e He. apply Hframe'.
      destruct (proj1 (Forall_forall _ _) Hpaint e He) as [Hlt _].
      intros [Hin|Hge]; [|lia].
      destruct (Hvalid e Hin).
      destruct (proj1 (Forall_forall _ _) Hnew e He); [done|lia]. }
    exists (K + fuel)%nat, (ex ++ res), s'. split_and!.
    + apply Hrun. rewrite <-length_app. rewrite <-!app_assoc in Hloop. exact Hloop.
    + rewrite fmap_app, Hres. f_equal. rewrite <-Hview.
      apply Forall_fmap_ext_1. apply Forall_forall. intros e He.
      unfold view, tok. by rewrite Hex_kept.
    + split_and!; [lia|congruence|].
      intros p Hp.
      assert (Hlt : (p < length (heap s))%nat).
      { destruct (decide (p < length (heap s))%nat); [done|].
        exfalso. apply Hp. right. lia. }
      assert (Hne : p ≠ r) by (intros ->; apply Hp; left; by left).
      rewrite Hframe'; [by apply Hframe|].
      intros [Hin|Hge]; [|lia]. apply Hp. left. by right.
    + apply Forall_app. split.
      * eapply Forall_impl; [exact Hnew|]. intros e [->|He]; [left; by left|by right].
      * eapply Forall_impl; [exact Htouch|]. intros e [He|He]; [left; by right|right; lia].
    + by eapply lists_kept_trans.
    + apply Forall_app. split; [|done].
      apply Forall_forall. intros e He.
      apply (painted_mono s1); [|done| |done].
      * by apply (proj1 (Forall_forall _ _) Hpaint e).
      * by apply Hex_kept.
Qed.
End ObjectLikeLoop.

(** [expand_macros] on tokens fresh from the lexer, against the
    specification at depth [d]. *)
Lemma expand_object_like mt (d : nat) : ∀ tokens chain s out,
  table_ok mt s → NoDup tokens → Forall (fresh s) tokens →
  spec_expand d mt chain (view s <$> tokens) = Some out →
  ∃ fuel res s',
    expand_macros fuel tokens chain s = Ok res s'
    ∧ expanded s tokens chain out res s'.
Proof.
  induction d as [|d IH]; intros tokens chain s out Htab Hnd Hfresh Hspec; [done|].
  cbn [spec_expand] in Hspec.
  destruct (init_fresh tokens s Hnd) as (s0 & Hinit & Hmac & Hlen & Hlk & Hframe & Hall).
  { eapply Forall_impl; [exact Hfresh|]. by intros r (? & ? & _). }
  assert (Hnot : ∀ r, stored s r → r ∉ tokens).
  { intros r Hst Hin. by destruct (proj1 (Forall_forall _ _) Hfresh r Hin) as (_ & _ & _ & H). }
  assert (Htab0 : table_ok mt s0).
  { apply (table_ok_kept mt s); [done|done|lia|].
    intros r Hr. apply Hframe. by apply Hnot. }
  assert (Hview0 : view s0 <$> tokens = (view s <$> tokens)).
  { apply Forall_fmap_ext_1. eapply Forall_impl; [exact Hall|].
    intros r (l & Ht & _). unfold view. rewrite Ht. done. }
  assert (Hready : Forall (ready s0 (length (lists s))) tokens).
  { apply Forall_forall. intros r Hr.
    destruct (proj1 (Forall_forall _ _) Hfresh r Hr) as (H1 & H2 & H3 & H4).
    destruct (proj1 (Forall_forall _ _) Hall r Hr) as (l & Ht & Hl & Hnil).
    split_and!.
    - lia.
    - intros (k & m & Hk & Hm). apply H4. exists k, m. by rewrite <-Hmac.
    - unfold plain. rewrite Ht, Hmac. exact H3.
    - exists l. rewrite Ht. done. }
  destruct (loop_object_like mt d IH chain (length (lists s)) tokens [] s0 out
              Htab0 Hnd Hready)
    as (fuel & res & s' & Hloop & Hres & (Hlen' & Hmac' & Hframe') & Htouch & Hlk' & Hpaint).
  { by rewrite Hview0. }
  exists fuel, res, s'. split.
  - unfold expand_macros, bind. rewrite Hinit. exact Hloop.
  - split_and!.
    + done.
    + split_and!; [lia|congruence|].
      intros r Hr. rewrite Hframe'.
      * apply Hframe. intros Hin. apply Hr. by left.
      * intros [Hin|Hge]; apply Hr; [by left|right; lia].
    + eapply Forall_impl; [exact Htouch|]. intros r [?|?]; [by left|right; lia].
    + by eapply lists_kept_trans.
    + done.
Qed.

(** The object-like macros of the table, by the spelling of their
    replacement tokens. *)
Definition mt_of (s : state) : gmap string (list token) :=
  omap (fun m => match arglist m with
                 | None => Some (view s <$> mvalue m)
                 | Some _ => None
                 end) (macros s).

(** The replacement tokens of the object-like macros exist, as the
    lexer made them, and none names a macro with parameters. *)
Definition table_wf (s : state) : Prop :=
  ∀ k m, macros s !! k = Some m → arglist m = None →
         Forall (fun r => (r < length (heap s))%nat
                          ∧ expanded_from (tok (heap s) r) = None
                          ∧ plain s r) (mvalue m).

Lemma table_wf_ok s : table_wf s → table_ok (mt_of s) s.
Proof.
  intros Hwf k. unfold mt_of. rewrite lookup_omap.
  destruct (macros s !! k) as [m|] eqn:Hk; [|done]. simpl.
  destruct (arglist m) eqn:Harg; [done|]. split; [done|]. by apply (Hwf k).
Qed.

(** [#define X X+1] and the line [X]. *)
Definition define_X : list token :=
  [lexed t_ID "X" 1; lexed t_SPACE " " 1; lexed t_ID "X" 1; lexed "+" "+" 1;
   lexed t_INTEGER "1" 1].

Definition line_X : list token := [lexed t_ID "X" 2; lexed t_NEWLINE NL 2].

Definition x_setup : M (list ref) :=
  d <- load_line (Some "t.c") define_X ;;
  define d ;;;
  load_line (Some "t.c") line_X.

Definition x_line : list ref := [5; 6]%nat.

Definition x_state : state :=
  match x_setup empty_state with
  | Ok _ s => s
  | _ => empty_state
  end.

(** [#define A 1], [#define F(x) x] and the line [F(A] that never
    closes the parameter list. *)
Definition unclosed_call : list token :=
  [lexed t_ID "F" 3; lexed "(" "(" 3; lexed t_ID "A" 3; lexed t_NEWLINE NL 3].

Definition unclosed_run
    : M (list string * list (list string) * option (option (list string) * list string)) :=
  d <- load_line (Some "t.c") define_A ;;
  define d ;;;
  d <- load_line (Some "t.c") define_F ;;
  define d ;;;
  l <- load_line (Some "t.c") unclosed_call ;;
  res <- expand_macros 10 l [] ;;
  s' <- get ;;
  ret (values_of s' res,
       (fun r => match expanded_from (tok (heap s') r) with
                 | Some l => default [] (lists s' !! l)
                 | None => []
                 end) <$> res,
       (fun m => (arglist m, values_of s' (mvalue m))) <$> macros s' !! "A").

Lemma x_macros :
  macros x_state = {[ "X" := MkMacro "X" [2; 3; 4]%nat None false "" [] [] [] ]}.
Proof. by vm_compute. Qed.

Lemma x_table_wf : table_wf x_state.
Proof.
  intros k m Hk Harg. rewrite x_macros in Hk.
  apply lookup_singleton_Some in Hk as [<- <-]. simpl.
  assert (Hplain : ∀ r, (ttype (tok (heap x_state) r) = t_ID →
                         value (tok (heap x_state) r) = "X") → plain x_state r).
  { intros r Hr Hid m Hm. rewrite (Hr Hid), x_macros in Hm.
    rewrite lookup_singleton_eq in Hm. by injection Hm as <-. }
  repeat constructor; try (vm_compute; lia); apply Hplain; by vm_compute.
Qed.

Lemma x_line_fresh : Forall (fresh x_state) x_line.
Proof.
  assert (Hplain : ∀ r, (ttype (tok (heap x_state) r) = t_ID →
                         value (tok (heap x_state) r) = "X") → plain x_state r).
  { intros r Hr Hid m Hm. rewrite (Hr Hid), x_macros in Hm.
    rewrite lookup_singleton_eq in Hm. by injection Hm as <-. }
  assert (Hstored : ∀ r, stored x_state r → r ∈ [2; 3; 4]%nat).
  { intros r (k & m & Hk & _ & Hin). rewrite x_macros in Hk.
    by apply lookup_singleton_Some in Hk as [<- <-]. }
  repeat constructor; try (vm_compute; lia); try (apply Hplain; by vm_compute);
    intros Hs; apply Hstored in Hs;
    repeat (apply elem_of_cons in Hs as [Hs|Hs]; [done|]); by apply elem_of_nil in Hs.
Qed.




(** * Further properties of the engine *)

(** ** tokenstrip() *)

Section TokenstripFacts.
Context {A : Type} (tk : A → token).

Lemma lstrip_split (l : list A) :
  ∃ pre, l = pre ++ lstrip tk l ∧ Forall (fun a => is_ws tk a = true) pre.
Proof.
  induction l as [|a l (pre & Hl & Hpre)]; simpl; [by exists []|].
  destruct (is_ws tk a) eqn:Ha.
  - exists (a :: pre). split; [simpl; congruence|by constructor].
  - by exists [].
Qed.

Lemma lstrip_head (l : list A) :
  match head (lstrip tk l) with Some a => is_ws tk a = false | None => True end.
Proof.
  induction l as [|a l IH]; simpl; [done|].
  destruct (is_ws tk a) eqn:Ha; [done|]. simpl. done.
Qed.

Lemma lstrip_fixed (l : list A) :
  match head l with Some a => is_ws tk a = false | None => True end →
  lstrip tk l = l.
Proof. destruct l as [|a l]; simpl; [done|]. by intros ->. Qed.

Lemma head_reverse (l : list A) : head (reverse l) = last l.
Proof.
  induction l as [|a l IH] using rev_ind; [done|].
  by rewrite reverse_app, last_snoc.
Qed.

Lemma head_app_ne (l k : list A) : l ≠ [] → head (l ++ k) = head l.
Proof. by destruct l. Qed.

Lemma tokenstrip_parts (tokens : list A) :
  ∃ pre post,
    tokens = pre ++ tokenstrip tk tokens ++ post
    ∧ Forall (fun a => is_ws tk a = true) pre
    ∧ Forall (fun a => is_ws tk a = true) post
    ∧ match head (tokenstrip tk tokens) with
      | Some a => is_ws tk a = false
      | None => True
      end
    ∧ match last (tokenstrip tk tokens) with
      | Some a => is_ws tk a = false
      | None => True
      end
    ∧ tokenstrip tk (tokenstrip tk tokens) = tokenstrip tk tokens.
Proof.
  unfold tokenstrip.
  destruct (lstrip_split tokens) as (pre & Htok & Hpre).
  destruct (lstrip_split (reverse (lstrip tk tokens))) as (pre' & Hrev & Hpre').
  set (m := lstrip tk tokens) in *. set (r := lstrip tk (reverse m)) in *.
  assert (Hm : m = reverse r ++ reverse pre').
  { rewrite <-(reverse_involutive m), Hrev. by rewrite reverse_app. }
  assert (Hlast : match last (reverse r) with
                  | Some a => is_ws tk a = false
                  | None => True
                  end).
  { rewrite <-head_reverse, reverse_involutive. apply lstrip_head. }
  assert (Hhead : match head (reverse r) with
                  | Some a => is_ws tk a = false
                  | None => True
                  end).
  { destruct (decide (reverse r = [])) as [Hr|Hr]; [by rewrite Hr|].
    rewrite <-(head_app_ne _ (reverse pre') Hr), <-Hm. apply lstrip_head. }
  exists pre, (reverse pre'). split_and!; try done.
  - by rewrite <-Hm.
  - by apply Forall_reverse.
  - rewrite (lstrip_fixed (reverse r) Hhead), reverse_involutive.
    rewrite (lstrip_fixed r); [done|]. by rewrite <-(reverse_involutive r), head_reverse.
Qed.

(** X1. [tokenstrip] removes a run of whitespace tokens from the front
    and a run from the back, and nothing else: what it returns neither
    starts nor ends with a whitespace token, and stripping it again
    changes nothing. *)
Theorem tokenstrip_trims (tokens : list A) :
  ∃ pre post,
    tokens = pre ++ tokenstrip tk tokens ++ post
    ∧ Forall (fun a => is_ws tk a = true) pre
    ∧ Forall (fun a => is_ws tk a = true) post
    ∧ match head (tokenstrip tk tokens) with
      | Some a => is_ws tk a = false
      | None => True
      end
    ∧ match last (tokenstrip tk tokens) with
      | Some a => is_ws tk a = false
      | None => True
      end
    ∧ tokenstrip tk (tokenstrip tk tokens) = tokenstrip tk tokens.
Proof. apply tokenstrip_parts. Qed.
End TokenstripFacts.

(** ** The positions that collect_args() returns *)

Definition nondecreasing (l : list nat) : Prop :=
  ∀ a b p q, (a ≤ b)%nat → l !! a = Some p → l !! b = Some q → (p ≤ q)%nat.

Lemma nondecreasing_snoc (l : list nat) (x : nat) :
  nondecreasing l → Forall (fun p => (p ≤ x)%nat) l → nondecreasing (l ++ [x]).
Proof.
  intros Hl Hx a b p q Hab Ha Hb.
  apply lookup_app_Some in Ha as [Ha|[Hla Ha]], Hb as [Hb|[Hlb Hb]].
  - by eapply Hl.
  - apply list_lookup_singleton_Some in Hb as [_ <-].
    apply (proj1 (Forall_lookup _ _) Hx _ _ Ha).
  - apply lookup_lt_Some in Hb. lia.
  - apply list_lookup_singleton_Some in Ha as [_ <-].
    apply list_lookup_singleton_Some in Hb as [_ <-]. done.
Qed.

Section CollectArgsPositions.
Context {A : Type} (tk : A → token).

Lemma collect_loop_positions (rest : list A) :
  ∀ i nesting cur args pos n args' pos',
    collect_loop tk rest i nesting cur args pos = Some (n, args', pos') →
    Forall (fun p => (p ≤ i)%nat) pos → nondecreasing pos →
    length pos = S (length args) →
    length pos' = S (length args')
    ∧ nondecreasing pos'
    ∧ last pos' = Some (n - 1)%nat
    ∧ pos `prefix_of` pos'
    ∧ ∃ k t, n = S (i + k) ∧ rest !! k = Some t ∧ value (tk t) = ")".
Proof.
  induction rest as [|t rest IH]; intros i nesting cur args pos n args' pos' Hrun Hle Hmono Hlen;
    simpl in Hrun; [done|].
  assert (Hle' : Forall (fun p => (p ≤ S i)%nat) pos).
  { eapply Forall_impl; [exact Hle|]. simpl. lia. }
  assert (Hshift : ∀ P : Prop,
            (∃ k t', n = S (S i + k) ∧ rest !! k = Some t' ∧ value (tk t') = ")") →
            ∃ k t', n = S (i + k) ∧ (t :: rest) !! k = Some t' ∧ value (tk t') = ")").
  { intros _ (k & t' & -> & Hk & Hv). exists (S k), t'. split_and!; [lia|done|done]. }
  destruct (String.eqb (value (tk t)) "(") eqn:Hl.
  { destruct (IH _ _ _ _ _ _ _ _ Hrun Hle' Hmono Hlen) as (H1 & H2 & H3 & H4 & H5).
    split_and!; try done. by apply (Hshift True). }
  destruct (String.eqb (value (tk t)) ")") eqn:Hr.
  { destruct (nesting - 1 =? 0)%Z.
    - injection Hrun as <- <- <-. rewrite !length_app. simpl.
      split_and!.
      + lia.
      + by apply nondecreasing_snoc.
      + rewrite last_snoc. f_equal. lia.
      + by apply prefix_app_r.
      + exists 0%nat, t. apply String.eqb_eq in Hr. split_and!; [lia|done|done].
    - destruct (IH _ _ _ _ _ _ _ _ Hrun Hle' Hmono Hlen) as (H1 & H2 & H3 & H4 & H5).
      split_and!; try done. by apply (Hshift True). }
  destruct (String.eqb (value (tk t)) "," && (nesting =? 1)%Z).
  - destruct (IH _ _ _ _ _ _ _ _ Hrun) as (H1 & H2 & H3 & H4 & H5).
    + apply Forall_app. split; [done|]. by constructor.
    + by apply nondecreasing_snoc.
    + rewrite !length_app. simpl. lia.
    + split_and!; try done; [|by apply (Hshift True)].
      etransitivity; [|exact H4]. by apply prefix_app_r.
  - destruct (IH _ _ _ _ _ _ _ _ Hrun Hle' Hmono Hlen) as (H1 & H2 & H3 & H4 & H5).
    split_and!; try done. by apply (Hshift True).
Qed.

(** X2. When [collect_args] finds an argument list, [positions] has one
    entry more than there are arguments and never decreases; its first
    entry is the index after the opening parenthesis, its last the
    index of the closing parenthesis, which is the last token counted
    in [tokencount]. *)
Theorem collect_args_positions (tokenlist : list A) (ignore_errors : bool)
    (s s' : state) (n : nat) (args : list (list A)) (pos : list nat) :
  collect_args tk tokenlist ignore_errors s = Ok (n, args, pos) s' →
  n ≠ 0%nat →
  length pos = S (length args)
  ∧ nondecreasing pos
  ∧ head pos = Some (S (skip_ws tk tokenlist 0))
  ∧ last pos = Some (n - 1)%nat
  ∧ (∃ lp, tokenlist !! skip_ws tk tokenlist 0 = Some lp ∧ value (tk lp) = "(")
  ∧ (∃ rp, tokenlist !! (n - 1)%nat = Some rp ∧ value (tk rp) = ")")
  ∧ s' = s.
Proof.
  unfold collect_args. intros Hrun Hn.
  set (i := skip_ws tk tokenlist 0) in *.
  assert (Hfail : ∀ m : M unit, (m ;;; ret (0%nat, @nil (list A), @nil nat)) s
                                ≠ Ok (n, args, pos) s').
  { intros m. unfold bind, ret. destruct (m s); [|done|done]. congruence. }
  destruct (tokenlist !! i) as [lp|] eqn:Hlp; [|by apply Hfail in Hrun].
  destruct (String.eqb (value (tk lp)) "(") eqn:Hv; [|by apply Hfail in Hrun].
  destruct (collect_loop tk (drop (S i) tokenlist) (S i) 1 [] [] [S i])
    as [[[n0 args0] pos0]|] eqn:Hloop; [|by apply Hfail in Hrun].
  injection Hrun as -> -> -> ->.
  destruct (collect_loop_positions _ _ _ _ _ _ _ _ _ Hloop)
    as (H1 & H2 & H3 & [tail ->] & k & rp & -> & Hk & Hrp).
  - by repeat constructor.
  - intros a b p q Hab Ha Hb. apply list_lookup_singleton_Some in Ha as [_ <-].
    apply list_lookup_singleton_Some in Hb as [_ <-]. done.
  - done.
  - split_and!; try done.
    + exists lp. by apply String.eqb_eq in Hv.
    + exists rp. rewrite lookup_drop in Hk. split; [|done].
      rewrite <-Hk. f_equal; lia.
Qed.
End CollectArgsPositions.

Lemma collect_args_positions_witness :
  collect_args id sample_args false empty_state
  = Ok (6%nat, [[Token t_ID "a" 1 (Some (Some "t.c")) None];
                [Token t_ID "b" 1 (Some (Some "t.c")) None]], [1; 3; 5]%nat) empty_state
  ∧ 6%nat ≠ 0%nat
  ∧ length [1; 3; 5]%nat = 3%nat
  ∧ nondecreasing [1; 3; 5]%nat
  ∧ last [1; 3; 5]%nat = Some 5%nat.
Proof.
  assert (Hrun : collect_args id sample_args false empty_state
    = Ok (6%nat, [[Token t_ID "a" 1 (Some (Some "t.c")) None];
                  [Token t_ID "b" 1 (Some (Some "t.c")) None]], [1; 3; 5]%nat) empty_state)
    by reflexivity.
  assert (Hn : 6%nat ≠ 0%nat) by lia.
  destruct (collect_args_positions id sample_args false empty_state empty_state _ _ _ Hrun Hn)
    as (H1 & H2 & _ & H4 & _).
  split_and!; [exact Hrun|exact Hn|exact H1|exact H2|exact H4].
Defined.

(** ** The patch list of macro_prescan() *)

(** The order in which [macro_expand_args] needs the patches: by
    position, from the end of the replacement list to its start. *)
Fixpoint descending (l : list (ptype * nat * nat)) : Prop :=
  match l with
  | [] => True
  | p :: l' => Forall (fun q => (q.2 ≤ p.2)%nat) l' ∧ descending l'
  end.

Lemma insert_patch_perm p l : insert_patch p l ≡ₚ p :: l.
Proof.
  induction l as [|q l IH]; simpl; [done|].
  destruct (q.2 <? p.2)%nat; [done|]. rewrite IH. apply Permutation_swap.
Qed.

Lemma insert_patch_sorted p l : descending l → descending (insert_patch p l).
Proof.
  induction l as [|q l IH]; simpl; [done|]. intros [Hq Hl].
  destruct (q.2 <? p.2)%nat eqn:Hlt; simpl.
  - apply Nat.ltb_lt in Hlt. split_and!; [|done|done].
    constructor; [lia|]. eapply Forall_impl; [exact Hq|]. intros x Hx. simpl in *. lia.
  - apply Nat.ltb_ge in Hlt. split; [|by apply IH].
    rewrite insert_patch_perm. by constructor.
Qed.

Lemma sort_patch_from (l acc : list (ptype * nat * nat)) :
  descending acc →
  foldl (fun acc p => insert_patch p acc) acc l ≡ₚ acc ++ l
  ∧ descending (foldl (fun acc p => insert_patch p acc) acc l).
Proof.
  revert acc. induction l as [|p l IH]; intros acc Hacc; simpl.
  - by rewrite app_nil_r.
  - destruct (IH (insert_patch p acc) (insert_patch_sorted p acc Hacc)) as [H1 H2].
    split; [|done]. rewrite H1, insert_patch_perm.
    by rewrite (Permutation_middle acc l p).
Qed.

(** What a computation returns, when it returns. *)
Definition returns {A} (m : M A) (Q : A → Prop) : Prop :=
  ∀ s a s', m s = Ok a s' → Q a.

Lemma returns_ret {A} (a : A) (Q : A → Prop) : Q a → returns (ret a) Q.
Proof. intros HQ s a' s' H. by injection H as <- <-. Qed.

Lemma returns_any {A} (m : M A) : returns m (fun _ => True).
Proof. done. Qed.

Lemma returns_bind {A B} (m : M A) (k : A → M B) (Q : A → Prop) (Q' : B → Prop) :
  returns m Q → (∀ a, Q a → returns (k a) Q') → returns (bind m k) Q'.
Proof.
  intros Hm Hk s b s' H. apply bind_Ok_inv in H as (a & s1 & H1 & H2).
  eapply Hk; [|exact H2]. by eapply Hm.
Qed.

Lemma returns_bind_any {A B} (m : M A) (k : A → M B) (Q' : B → Prop) :
  (∀ a, returns (k a) Q') → returns (bind m k) Q'.
Proof. intros Hk. apply (returns_bind m k (fun _ => True)); [done|auto]. Qed.

Lemma returns_raise {A} (e : exn) (Q : A → Prop) : returns (raise e) Q.
Proof. done. Qed.

Lemma returns_out_of_fuel {A} (Q : A → Prop) : returns (fun _ => OutOfFuel) Q.
Proof. done. Qed.

Lemma str_index_lt (x : string) (l : list string) (n : nat) :
  str_index x l = Some n → l !! n = Some x.
Proof.
  revert n. induction l as [|y l IH]; intros n; simpl; [done|].
  destruct (String.eqb x y) eqn:Hxy.
  - intros [= <-]. apply String.eqb_eq in Hxy. by subst.
  - destruct (str_index x l) as [k|]; [|done]. intros [= <-]. by apply IH.
Qed.

(** The patches recorded so far name parameters. *)
Definition names_parameter (args : list string) (p : prescan_state) : Prop :=
  Forall (fun e : ptype * nat * nat => (e.1.2 < length args)%nat) (ps_patch p)
  ∧ Forall (fun e : nat * nat => (e.1 < length args)%nat) (ps_str_patch p).

Lemma prescan_loop_names fuel args b va : ∀ i p,
  names_parameter args p →
  returns (prescan_loop fuel args b va i p) (names_parameter args).
Proof.
  induction fuel as [|fuel IH]; intros i p [Hp Hs]; simpl; [apply returns_out_of_fuel|].
  destruct (ps_value p !! i) as [r|]; [|by apply returns_ret].
  apply returns_bind_any. intros t. apply returns_bind_any. intros s.
  destruct (String.eqb (ttype t) t_ID && str_in (value t) args).
  - destruct (str_index (value t) args) as [argnum|] eqn:Harg; [|apply returns_raise].
    apply str_index_lt, lookup_lt_Some in Harg.
    assert (Hp' : ∀ ty k, Forall (fun e : ptype * nat * nat => (e.1.2 < length args)%nat)
                            (ps_patch p ++ [(ty, argnum, k)])).
    { intros ty k. apply Forall_app. split; [done|]. by repeat constructor. }
    repeat case_match; repeat (apply returns_bind_any; intros ?);
      apply IH; split; simpl; try done.
    apply Forall_app. split; [done|]. by repeat constructor.
  - repeat case_match; apply IH; by split.
Qed.

Lemma macro_prescan_Ok nm v args b s m s' :
  macro_prescan nm v args b s = Ok m s' →
  ∃ p, names_parameter args p
       ∧ m = MkMacro nm (ps_value p) (Some args) b (vararg m)
                     (sort_patch (ps_patch p)) (ps_str_patch p) (ps_var_comma_patch p).
Proof.
  unfold macro_prescan. intros Hrun.
  apply bind_Ok_inv in Hrun as (va & s1 & _ & Hrun).
  apply bind_Ok_inv in Hrun as (p & s2 & Hloop & Hrun).
  injection Hrun as <- <-. exists p. split; [|done].
  eapply prescan_loop_names; [|exact Hloop]. by split.
Qed.

(** X3. The sort that ends [macro_prescan] keeps every patch and puts
    them in descending order of position, the order in which
    [macro_expand_args] applies them. So the patch list of every macro
    that [macro_prescan] returns is in that order; each of its entries,
    and each entry of [str_patch], holds the index of one of the
    macro's parameters; and the macro has the name, the parameters and
    the variadic flag it was given. *)
Theorem prescan_patch_sorted :
  (∀ l, sort_patch l ≡ₚ l ∧ descending (sort_patch l))
  ∧ (∀ nm v args b s m s',
       macro_prescan nm v args b s = Ok m s' →
       descending (patch m)
       ∧ Forall (fun e : ptype * nat * nat => (e.1.2 < length args)%nat) (patch m)
       ∧ Forall (fun e : nat * nat => (e.1 < length args)%nat) (str_patch m)
       ∧ name m = nm ∧ arglist m = Some args ∧ variadic m = b).
Proof.
  split.
  - intros l. by apply (sort_patch_from l []).
  - intros nm v args b s m s' Hrun.
    apply macro_prescan_Ok in Hrun as (p & [Hp Hs] & ->). simpl.
    destruct (sort_patch_from (ps_patch p) [] I) as [Hperm Hsorted].
    split_and!; try done.
    unfold sort_patch. by rewrite Hperm.
Qed.

(** The replacement list [x + y] of a macro with the parameters [x]
    and [y]. *)
Definition sum_state : state :=
  with_heap [lexed t_ID "x" 1; lexed "+" "+" 1; lexed t_ID "y" 1] empty_state.

Lemma prescan_patch_sorted_witness :
  ∃ m s', macro_prescan "F" [0; 1; 2]%nat ["x"; "y"] false sum_state = Ok m s'
          ∧ patch m = [(PExpand, 1, 2); (PExpand, 0, 0)]%nat
          ∧ descending (patch m).
Proof.
  eexists _, _. split; [by vm_compute|]. split; [reflexivity|].
  eapply (proj2 prescan_patch_sorted "F" [0; 1; 2]%nat ["x"; "y"] false sum_state).
  by vm_compute.
Defined.

(** ** define() and undef() *)

Lemma with_macros_same (s : state) : with_macros (macros s) s = s.
Proof. by destruct s. Qed.

Lemma tokenstrip_nil {A} (tk : A → token) : tokenstrip tk [] = [].
Proof. reflexivity. Qed.

(** X4. [define] on a name alone, or on a name followed by whitespace,
    stores an object-like macro whose replacement list is the rest of
    the line stripped of surrounding whitespace, and prints nothing. If
    the name was not defined before, [undef] of the name then gives back
    the state as it was; and [undef] of a name that is not defined
    changes nothing. *)
Theorem define_undef_inverse (s : state) (nr : ref) (rest : list ref) :
  match rest with
  | [] => True
  | mr :: _ => in_t_WS (tok (heap s) mr) = true
  end →
  macros s !! value (tok (heap s) nr) = None →
  define (nr :: rest) s
  = Ok tt (with_macros
             (<[value (tok (heap s) nr) :=
                  MkMacro (value (tok (heap s) nr))
                          (tokenstrip (tok (heap s)) (drop 1 rest)) None false "" [] [] []]>
                (macros s)) s)
  ∧ (define (nr :: rest) ;;; undef [nr]) s = Ok tt s
  ∧ undef (nr :: rest) s = Ok tt s.
Proof.
  intros Hrest Hnew.
  assert (Hdef : define (nr :: rest) s
    = Ok tt (with_macros
               (<[value (tok (heap s) nr) :=
                    MkMacro (value (tok (heap s) nr))
                            (tokenstrip (tok (heap s)) (drop 1 rest)) None false "" [] [] []]>
                  (macros s)) s)).
  { unfold define, bind, index, deref, get, modify. simpl.
    destruct rest as [|mr rest']; simpl; [done|]. by rewrite Hrest. }
  split_and!; [exact Hdef| |].
  - unfold bind at 1. rewrite Hdef. unfold undef, bind, index, deref, modify. simpl.
    rewrite delete_insert_eq, delete_id by done. f_equal. by destruct s.
  - unfold undef, bind, index, deref, modify. simpl.
    rewrite delete_id by done. f_equal. by destruct s.
Qed.

(** [X 1] as the tokens of [#define X 1]. *)
Definition one_state : state :=
  with_heap [lexed t_ID "X" 1; lexed t_SPACE " " 1; lexed t_INTEGER "1" 1] empty_state.

Lemma define_undef_inverse_witness :
  in_t_WS (tok (heap one_state) 1) = true
  ∧ macros one_state !! value (tok (heap one_state) 0) = None
  ∧ (define [0; 1; 2]%nat ;;; undef [0%nat]) one_state = Ok tt one_state.
Proof.
  split_and!; [reflexivity|reflexivity|].
  exact (proj1 (proj2 (define_undef_inverse one_state 0%nat [1; 2]%nat eq_refl eq_refl))).
Defined.

(** X5. [define] on an empty token list raises [IndexError]. When the
    token after the name is neither whitespace nor an opening
    parenthesis, [define] prints [Bad macro definition] for the name's
    source and line and leaves the macro table and the tokens as they
    were. *)
Theorem define_bad_definition (s : state) (nr mr : ref) (rest : list ref)
    (src : option string) :
  in_t_WS (tok (heap s) mr) = false →
  value (tok (heap s) mr) ≠ "(" →
  source (tok (heap s) nr) = Some src →
  define [] s = Raise IndexError s
  ∧ define (nr :: mr :: rest) s
    = Ok tt (diagnosed src (lineno (tok (heap s) nr)) "Bad macro definition" s).
Proof.
  intros Hws Hlp Hsrc. split; [reflexivity|].
  unfold define, bind, index, deref, get. simpl. rewrite Hws.
  rewrite (proj2 (String.eqb_neq _ _) Hlp).
  unfold error_at, get_source, bind. by rewrite Hsrc.
Qed.

(** [X+1], as in [#define X+1]. *)
Definition bad_define_state : state :=
  with_heap [Token t_ID "X" 7 (Some (Some "t.c")) None;
             Token "+" "+" 7 (Some (Some "t.c")) None;
             Token t_INTEGER "1" 7 (Some (Some "t.c")) None] empty_state.

Lemma define_bad_definition_witness :
  ∃ s', define [0; 1; 2]%nat bad_define_state = Ok tt s'
        ∧ stdout s' = ["t.c:7 Bad macro definition"]
        ∧ macros s' = macros bad_define_state.
Proof.
  eexists. split.
  - apply (define_bad_definition bad_define_state 0%nat 1%nat [2%nat] (Some "t.c"));
      [reflexivity|by vm_compute|reflexivity].
  - split; [by vm_compute|reflexivity].
Defined.

(** ** Token lists without identifiers *)

(** From [s] to [s'] only [expanded_from] annotations were added: the
    tokens are the same up to them, and so is the rest of the state but
    the lists behind the annotations. *)
Definition annotated (s s' : state) : Prop :=
  length (heap s') = length (heap s)
  ∧ (∀ r, erase (tok (heap s') r) = erase (tok (heap s) r))
  ∧ macros s' = macros s ∧ stdout s' = stdout s ∧ return_code s' = return_code s
  ∧ yielded s' = yielded s ∧ path s' = path s ∧ temp_path s' = temp_path s
  ∧ opens s' = opens s ∧ stderr s' = stderr s.

Lemma annotated_refl s : annotated s s.
Proof. by split_and!. Qed.

Lemma annotated_trans s1 s2 s3 : annotated s1 s2 → annotated s2 s3 → annotated s1 s3.
Proof.
  intros (A1 & A2 & A3 & A4 & A5 & A6 & A7 & A8 & A9 & A10)
         (B1 & B2 & B3 & B4 & B5 & B6 & B7 & B8 & B9 & B10).
  split_and!; try congruence; intros r; by rewrite B2.
Qed.

Lemma ensure_expanded_from_annotated r s :
  ∃ s', ensure_expanded_from r s = Ok tt s' ∧ annotated s s'.
Proof.
  unfold ensure_expanded_from, bind, deref.
  destruct (expanded_from (tok (heap s) r)) eqn:Hef.
  - exists s. split; [done|apply annotated_refl].
  - eexists. split; [reflexivity|]. unfold annotated. simpl.
    split_and!;
      first [ done
            | by rewrite length_insert
            | intros r'; rewrite tok_insert; case_bool_decide as H; [|done];
              by destruct H as [-> _] ].
Qed.

Lemma init_annotated tokens : ∀ s,
  ∃ s', for_each ensure_expanded_from tokens s = Ok tt s' ∧ annotated s s'.
Proof.
  induction tokens as [|r tokens IH]; intros s; simpl.
  - exists s. split; [done|apply annotated_refl].
  - destruct (ensure_expanded_from_annotated r s) as (s1 & H1 & A1).
    destruct (IH s1) as (s2 & H2 & A2).
    exists s2. unfold bind. rewrite H1. split; [done|by eapply annotated_trans].
Qed.

(** A token that the loop passes over whatever the expanding set is: it
    is no identifier, or an identifier that names no macro and is not
    [__LINE__]. *)
Definition inert (s : state) (r : ref) : Prop :=
  ttype (tok (heap s) r) = t_ID →
  macros s !! value (tok (heap s) r) = None ∧ value (tok (heap s) r) ≠ "__LINE__".

Lemma inert_annotated s s' r : annotated s s' → inert s r → inert s' r.
Proof.
  intros (_ & Hview & Hmac & _) Hr. unfold inert. rewrite Hmac.
  specialize (Hview r). unfold erase in Hview. injection Hview as -> -> _ _. exact Hr.
Qed.

Lemma expand_loop_plain ef s todo : ∀ done fuel,
  Forall (inert s) todo →
  expand_loop (S (length todo) + fuel) (done ++ todo) (length done) ef s
  = Ok (done ++ todo) s.
Proof.
  induction todo as [|r todo IH]; intros done fuel Hall.
  - cbn [length Nat.add expand_loop]. unfold expand_step.
    rewrite (proj2 (lookup_ge_None _ _)); [done|]. rewrite length_app. simpl. lia.
  - inversion Hall as [|? ? Hr Hall']; subst.
    specialize (IH (done ++ [r]) fuel Hall').
    rewrite <-app_assoc, length_app in IH. simpl in IH.
    rewrite Nat.add_1_r in IH.
    cbn [length Nat.add expand_loop]. unfold expand_step.
    rewrite (list_lookup_middle done todo r (length done) eq_refl).
    unfold bind at 1. unfold deref at 1.
    destruct (String.eqb (ttype (tok (heap s) r)) t_ID) eqn:Hid; [|exact IH].
    apply String.eqb_eq in Hid. destruct (Hr Hid) as [Hmac Hline].
    unfold bind at 1. unfold get at 1. rewrite Hmac.
    unfold line_or_next. rewrite (proj2 (String.eqb_neq _ _) Hline).
    unfold bind at 1. unfold ret at 1. exact IH.
Qed.

Lemma expand_macros_passes (tokens : list ref) (ef : list string) (fuel : nat)
    (s : state) :
  Forall (inert s) tokens →
  ∃ s', expand_macros (S (length tokens) + fuel) tokens ef s = Ok tokens s'
        ∧ annotated s s'.
Proof.
  intros Hall. destruct (init_annotated tokens s) as (s1 & Hinit & Hann).
  exists s1. split; [|done].
  unfold expand_macros, bind. rewrite Hinit.
  apply (expand_loop_plain ef s1 tokens [] fuel).
  eapply Forall_impl; [exact Hall|]. intros r. by apply inert_annotated.
Qed.

Lemma not_identifier_inert s r : ttype (tok (heap s) r) ≠ t_ID → inert s r.
Proof. intros H Hid. done. Qed.

(** X8. On a token list in which no identifier names a macro or is
    [__LINE__], [expand_macros] returns the list itself, with one loop
    iteration for each token and one more: the tokens are as they were
    but for the [expanded_from] attribute they may have gained, nothing
    is printed, no file is opened, and the macro table, the search
    paths and the tokens already yielded are as they were. *)
Theorem expand_macros_plain (tokens : list ref) (ef : list string) (fuel : nat)
    (s : state) :
  Forall (inert s) tokens →
  ∃ s', expand_macros (S (length tokens) + fuel) tokens ef s = Ok tokens s'
        ∧ annotated s s'.
Proof. apply expand_macros_passes. Qed.

Lemma expand_macros_plain_witness :
  Forall (inert one_state) [0; 1; 2]%nat
  ∧ ∃ s', expand_macros 4 [0; 1; 2]%nat [] one_state = Ok [0; 1; 2]%nat s'
          ∧ annotated one_state s'.
Proof.
  assert (H : Forall (inert one_state) [0; 1; 2]%nat).
  { constructor; [intros _; split; [reflexivity|by vm_compute]|].
    constructor; [by intros Hid|]. constructor; [by intros Hid|constructor]. }
  split; [exact H|].
  exact (expand_macros_plain [0; 1; 2]%nat [] 0 one_state H).
Defined.

(** ** The operator [defined] in evalexpr() *)

Definition defined_paren (name : string) (line : Z) : list token :=
  [lexed t_ID "defined" line; lexed "(" "(" line; lexed t_ID name line; lexed ")" ")" line].

Definition defined_bare (name : string) (line : Z) : list token :=
  [lexed t_ID "defined" line; lexed t_SPACE " " line; lexed t_ID name line].

(** What [defined] leaves in place of its operand. *)
Definition truth (s : state) (name : string) : string :=
  if bool_decide (is_Some (macros s !! name)) then "1L" else "0L".

Lemma tok_loaded (h l : list token) (k : nat) (t : token) :
  l !! k = Some t → tok (h ++ l) (length h + k) = t.
Proof. intros H. by rewrite tok_app_r, H. Qed.

(** The state after [defined] was replaced: the token [n] is the
    integer, nothing was printed. *)
Definition replaced (s0 s1 : state) (n : nat) (v : string) : Prop :=
  ttype (tok (heap s1) n) = t_INTEGER
  ∧ value (tok (heap s1) n) = v
  ∧ macros s1 = macros s0 ∧ stdout s1 = stdout s0 ∧ return_code s1 = return_code s0.

Lemma defined_loop_paren s0 n src name line :
  (n < length (heap s0))%nat →
  tok (heap s0) n = set_source src (lexed t_ID "defined" line) →
  tok (heap s0) (S n) = set_source src (lexed "(" "(" line) →
  tok (heap s0) (S (S n)) = set_source src (lexed t_ID name line) →
  tok (heap s0) (S (S (S n))) = set_source src (lexed ")" ")" line) →
  ∃ s1, defined_loop 4 [n; S n; S (S n); S (S (S n))] 0 s0 = Ok [n] s1
        ∧ replaced s0 s1 n (truth s0 name).
Proof.
  intros Hn T0 T1 T2 T3.
  assert (Hscan : ∀ ti, defined_scan ti [S n; S (S n); S (S (S n))] 1 false "0L" s0
                      = Ok (3%nat, truth s0 name) s0).
  { intros ti. cbn [defined_scan]. unfold bind at 1. unfold deref at 1. rewrite T1. simpl.
    unfold bind at 1. unfold deref at 1. rewrite T2. simpl.
    unfold bind at 1. unfold get at 1. unfold bind at 1. unfold deref at 1. rewrite T3.
    reflexivity. }
  cbn [defined_loop lookup list_lookup]. unfold bind at 1. unfold deref at 1. rewrite T0.
  cbn [ttype value set_source lexed].
  change (String.eqb t_ID t_ID && String.eqb "defined" "defined") with true. cbv iota.
  cbn [drop]. unfold bind at 1. rewrite Hscan.
  unfold bind, assign, modify. simpl.
  eexists. split; [reflexivity|]. unfold replaced. simpl.
  rewrite !tok_insert, !length_insert, !bool_decide_eq_true_2 by done. done.
Qed.

Lemma defined_loop_bare s0 n src name line :
  (n < length (heap s0))%nat →
  tok (heap s0) n = set_source src (lexed t_ID "defined" line) →
  tok (heap s0) (S n) = set_source src (lexed t_SPACE " " line) →
  tok (heap s0) (S (S n)) = set_source src (lexed t_ID name line) →
  ∃ s1, defined_loop 3 [n; S n; S (S n)] 0 s0 = Ok [n] s1
        ∧ replaced s0 s1 n (truth s0 name).
Proof.
  intros Hn T0 T1 T2.
  assert (Hscan : ∀ ti, defined_scan ti [S n; S (S n)] 1 false "0L" s0
                      = Ok (2%nat, truth s0 name) s0).
  { intros ti. cbn [defined_scan]. unfold bind at 1. unfold deref at 1. rewrite T1. simpl.
    unfold bind at 1. unfold deref at 1. rewrite T2. reflexivity. }
  cbn [defined_loop lookup list_lookup]. unfold bind at 1. unfold deref at 1. rewrite T0.
  cbn [ttype value set_source lexed].
  change (String.eqb t_ID t_ID && String.eqb "defined" "defined") with true. cbv iota.
  cbn [drop]. unfold bind at 1. rewrite Hscan.
  unfold bind, assign, modify. simpl.
  eexists. split; [reflexivity|]. unfold replaced. simpl.
  rewrite !tok_insert, !length_insert, !bool_decide_eq_true_2 by done. done.
Qed.

(** The rest of [evalexpr] once one integer token is left. *)
Lemma evalexpr_rest eval fuel s1 n v (z : Z) :
  ttype (tok (heap s1) n) = t_INTEGER →
  strip_suffix (value (tok (heap s1) n)) = Some v →
  eval (rewrite_operators (v +:+ "")) = Some z →
  ∃ s',
    (tokens <- expand_macros (2 + fuel) [n] [] ;;
     tokens <- integerize tokens ;;
     s <- get ;;
     match eval (rewrite_operators (join (values_of s tokens))) with
     | Some result => ret result
     | None =>
       r <- index tokens 0 ;; t <- deref r ;;
       error_at t "Couldn't evaluate expression" ;;; ret 0
     end) s1 = Ok z s'
    ∧ macros s' = macros s1 ∧ stdout s' = stdout s1 ∧ return_code s' = return_code s1.
Proof.
  intros Hty Hval Heval.
  destruct (expand_macros_passes [n] [] fuel s1) as (s2 & Hrun & Hann).
  { constructor; [|done]. apply not_identifier_inert. by rewrite Hty. }
  destruct Hann as (Hlen & Hview & Hmac & Hout & Hrc & _).
  assert (Hty2 : ttype (tok (heap s2) n) = t_INTEGER).
  { specialize (Hview n). unfold erase in Hview. injection Hview as -> _. done. }
  assert (Hval2 : value (tok (heap s2) n) = value (tok (heap s1) n)).
  { specialize (Hview n). unfold erase in Hview. by injection Hview. }
  unfold bind at 1. simpl in Hrun. simpl. rewrite Hrun.
  unfold bind at 1. cbn [integerize]. unfold bind at 1. unfold deref at 1.
  rewrite Hty2. change (String.eqb t_INTEGER t_ID) with false.
  change (String.eqb t_INTEGER t_INTEGER) with true. cbv iota.
  rewrite Hval2, Hval.
  unfold bind, copy_token, deref, alloc, assign, modify, ret, get. simpl.
  unfold values_of. simpl. rewrite tok_insert, bool_decide_eq_true_2.
  2:{ split; [done|]. rewrite length_app. simpl. lia. }
  simpl. rewrite Heval. eexists. split; [reflexivity|]. done.
Qed.

Definition defined_value (s : state) (name : string) : Z :=
  if bool_decide (is_Some (macros s !! name)) then 1 else 0.

Lemma truth_value eval s name :
  eval "1" = Some 1 → eval "0" = Some 0 →
  ∃ v, strip_suffix (truth s name) = Some v
       ∧ eval (rewrite_operators (v +:+ "")) = Some (defined_value s name).
Proof.
  intros H1 H0. unfold truth, defined_value. case_bool_decide.
  - exists "1". split; [reflexivity|exact H1].
  - exists "0". split; [reflexivity|exact H0].
Qed.

(** X6. In an [#if] expression [defined(NAME)] and [defined NAME]
    evaluate to 1 when [NAME] is in the macro table and to 0 when it is
    not, whatever [NAME] is defined as; nothing is printed and the
    macro table is not changed. The host's [eval] is asked for the
    value of the text [1] or [0]. *)
Theorem defined_operator (eval : string → option Z) (fuel : nat) (s : state)
    (src : option string) (name : string) (line : Z) :
  eval "1" = Some 1 → eval "0" = Some 0 →
  (∃ s', (l <- load_line src (defined_paren name line) ;; evalexpr eval (2 + fuel) l) s
         = Ok (defined_value s name) s'
         ∧ macros s' = macros s ∧ stdout s' = stdout s ∧ return_code s' = return_code s)
  ∧ (∃ s', (l <- load_line src (defined_bare name line) ;; evalexpr eval (2 + fuel) l) s
           = Ok (defined_value s name) s'
           ∧ macros s' = macros s ∧ stdout s' = stdout s ∧ return_code s' = return_code s).
Proof.
  intros H1 H0. split.
  - unfold bind at 1. rewrite load_line_spec.
    set (n := length (heap s)).
    set (s0 := with_heap (heap s ++ (set_source src <$> defined_paren name line)) s).
    destruct (defined_loop_paren s0 n src name line) as (s1 & Hloop & Hrep).
    + subst s0. simpl. rewrite length_app. simpl. lia.
    + rewrite <-(Nat.add_0_r n). by apply tok_loaded.
    + rewrite <-(Nat.add_1_r n). by apply tok_loaded.
    + replace (S (S n)) with (n + 2)%nat by lia. by apply tok_loaded.
    + replace (S (S (S n))) with (n + 3)%nat by lia. by apply tok_loaded.
    + destruct Hrep as (Hty & Hval & Hmac & Hout & Hrc).
      destruct (truth_value eval s0 name H1 H0) as (v & Hv & Hev).
      destruct (evalexpr_rest eval fuel s1 n v (defined_value s0 name) Hty)
        as (s' & Hrun & Hmac' & Hout' & Hrc'); [by rewrite Hval|done|].
      exists s'. split; [|by rewrite Hmac', Hmac, Hout', Hout, Hrc', Hrc].
      unfold evalexpr. unfold bind at 1.
      change (defined_loop _ _ 0 s0)
        with (defined_loop 4 [n; S n; S (S n); S (S (S n))] 0 s0).
      rewrite Hloop. exact Hrun.
  - unfold bind at 1. rewrite load_line_spec.
    set (n := length (heap s)).
    set (s0 := with_heap (heap s ++ (set_source src <$> defined_bare name line)) s).
    destruct (defined_loop_bare s0 n src name line) as (s1 & Hloop & Hrep).
    + subst s0. simpl. rewrite length_app. simpl. lia.
    + rewrite <-(Nat.add_0_r n). by apply tok_loaded.
    + rewrite <-(Nat.add_1_r n). by apply tok_loaded.
    + replace (S (S n)) with (n + 2)%nat by lia. by apply tok_loaded.
    + destruct Hrep as (Hty & Hval & Hmac & Hout & Hrc).
      destruct (truth_value eval s0 name H1 H0) as (v & Hv & Hev).
      destruct (evalexpr_rest eval fuel s1 n v (defined_value s0 name) Hty)
        as (s' & Hrun & Hmac' & Hout' & Hrc'); [by rewrite Hval|done|].
      exists s'. split; [|by rewrite Hmac', Hmac, Hout', Hout, Hrc', Hrc].
      unfold evalexpr. unfold bind at 1.
      change (defined_loop _ _ 0 s0) with (defined_loop 3 [n; S n; S (S n)] 0 s0).
      rewrite Hloop. exact Hrun.
Qed.

Lemma defined_operator_witness :
  eval_literal "1" = Some 1 ∧ eval_literal "0" = Some 0
  ∧ ∃ s', (l <- load_line (Some "t.c") (defined_paren "X" 3) ;;
           evalexpr eval_literal 2 l) x_state
          = Ok 1 s'
          ∧ macros s' = macros x_state.
Proof.
  split; [reflexivity|]. split; [reflexivity|].
  destruct (proj1 (defined_operator eval_literal 0 x_state (Some "t.c") "X" 3
                     eq_refl eq_refl)) as (s' & Hrun & Hmac & _).
  exists s'. split; [exact Hrun|exact Hmac].
Defined.

(** ** Integer suffixes in evalexpr() *)

Lemma strip_suffix_rev_skip (suffix rest : list ascii) :
  Forall (fun x => x ∉ hex_digits) suffix →
  strip_suffix_rev (suffix ++ rest) = strip_suffix_rev rest.
Proof.
  induction 1 as [|x suffix Hx _ IH]; simpl; [done|].
  by rewrite bool_decide_eq_false_2.
Qed.

(** X7. The loop that strips the suffix of an integer literal removes
    the characters after the last hexadecimal digit and nothing else;
    on a text without a hexadecimal digit, the empty text included, it
    runs off the front of the string ([IndexError]). *)
Theorem strip_suffix_spec (digits suffix : list ascii) (c : ascii) :
  c ∈ hex_digits →
  Forall (fun x => x ∉ hex_digits) suffix →
  strip_suffix (string_of_list_ascii (digits ++ c :: suffix))
  = Some (string_of_list_ascii (digits ++ [c]))
  ∧ strip_suffix (string_of_list_ascii suffix) = None.
Proof.
  intros Hc Hsuf. unfold strip_suffix. rewrite !list_ascii_of_string_of_list_ascii.
  split.
  - rewrite reverse_app, reverse_cons, <-app_assoc.
    rewrite strip_suffix_rev_skip by (by apply Forall_reverse).
    simpl. rewrite bool_decide_eq_true_2 by done. simpl.
    by rewrite reverse_cons, reverse_involutive.
  - rewrite <-(app_nil_r (reverse suffix)).
    by rewrite strip_suffix_rev_skip by (by apply Forall_reverse).
Qed.

Lemma strip_suffix_spec_witness :
  strip_suffix "0x1FuL" = Some "0x1F" ∧ strip_suffix "uL" = None.
Proof.
  apply (strip_suffix_spec (list_ascii_of_string "0x1") (list_ascii_of_string "uL") "F"%char).
  - apply (bool_decide_unpack _). by vm_compute.
  - apply (bool_decide_unpack _). by vm_compute.
Defined.

(** ** Conditional directives outside a conditional *)

Section StrayConditionals.
Variable eval : string → option Z.
Variable fs : string → option (list (list token)).
Variable fuel : nat.
Variable rec : list (list token) → option string → M unit.

Lemma stray_conditional_diagnosed name args d dirtokens p s sd :
  ifstack p = [] →
  name = "elif" ∨ name = "else" ∨ name = "endif" →
  source (tok (heap s) d) = Some sd →
  conditional eval fuel name args (d :: dirtokens) p s
  = Ok p (diagnosed sd (lineno (tok (heap s) d)) ("Misplaced #" +:+ name) s).
Proof.
  intros Hst Hname Hsd. unfold conditional.
  destruct Hname as [Hn|[Hn|Hn]]; subst name; simpl; rewrite Hst;
    unfold bind, index, deref, error_at, get_source, bind; simpl; by rewrite Hsd.
Qed.

(** X9. An [#elif], [#else] or [#endif] met while no conditional is
    open prints [Misplaced #elif], [Misplaced #else] or
    [Misplaced #endif] with the source and line of the directive, once,
    and changes neither [enable] nor [iftrigger] nor the stack; the
    lines after it are parsed as if the directive had been an empty
    line. *)
Theorem stray_conditional (src : option string) (name : string) (line : Z)
    (rest : list (list token)) (p : pstate) (s : state) :
  ifstack p = [] →
  name = "elif" ∨ name = "else" ∨ name = "endif" →
  parse_lines eval fs fuel rec src (bare_directive name line :: rest) p s
  = parse_lines eval fs fuel rec src rest
      (PState (enable p) (iftrigger p) (ifstack p) (chunk p ++ [S (S (length (heap s)))]))
      (diagnosed src line ("Misplaced #" +:+ name)
         (with_heap (heap s ++ (set_source src <$> bare_directive name line)) s)).
Proof.
  intros Hst Hname. rewrite parse_bare_directive. unfold bind at 1.
  set (s0 := with_heap _ s).
  set (p0 := PState (enable p) (iftrigger p) (ifstack p) _).
  assert (Hd : directive eval fs fuel rec name [] [S (length (heap s))] p0 s0
               = conditional eval fuel name [] [S (length (heap s))] p0 s0).
  { unfold directive. by destruct Hname as [Hn|[Hn|Hn]]; subst name. }
  rewrite Hd.
  assert (H1 : tok (heap s0) (S (length (heap s))) = set_source src (lexed t_ID name line)).
  { subst s0. simpl. by rewrite <-(Nat.add_1_r (length (heap s))), tok_app_r. }
  rewrite (stray_conditional_diagnosed name [] _ [] p0 s0 src Hst Hname)
    by (by rewrite H1).
  by rewrite H1.
Qed.
End StrayConditionals.

Lemma stray_conditional_witness :
  ∃ s', parse_lines (fun _ => None) (fun _ => None) 1 (fun _ _ => ret tt) (Some "t.c")
          [bare_directive "endif" 4] initial_pstate empty_state
        = Ok (PState true false [] [2%nat]) s'
        ∧ stdout s' = ["t.c:4 Misplaced #endif"].
Proof.
  eexists. split.
  - rewrite (stray_conditional (fun _ => None) (fun _ => None) 1 (fun _ _ => ret tt)
               (Some "t.c") "endif" 4 [] initial_pstate empty_state eq_refl);
      [reflexivity|]. right. by right.
  - by vm_compute.
Defined.

(** ** Malformed #include lines *)

Lemma find_gt_none (h : list token) (rest : list ref) (i : nat) :
  Forall (fun r => value (tok h r) ≠ ">") rest → find_gt h rest i = None.
Proof.
  intros Hall. revert i. induction Hall as [|r rest Hr _ IH]; intros i; simpl; [done|].
  by rewrite (proj2 (String.eqb_neq _ _) Hr).
Qed.

Lemma tokenstrip_head {A} (tk : A → token) (a : A) (l : list A) :
  is_ws tk a = false → ∃ l', tokenstrip tk (a :: l) = a :: l'.
Proof.
  intros Ha.
  destruct (tokenstrip_parts tk (a :: l)) as (pre & post & Heq & Hpre & Hpost & _).
  destruct pre as [|b pre].
  - destruct (tokenstrip tk (a :: l)) as [|c l'] eqn:Hts.
    + simpl in Heq. subst post. inversion Hpost as [|? ? Hws _]. congruence.
    + simpl in Heq. injection Heq as <- _. by exists l'.
  - simpl in Heq. injection Heq as <- _. inversion Hpre as [|? ? Hws _]. congruence.
Qed.

Section MalformedInclude.
Variable fs : string → option (list (list token)).
Variable rec : list (list token) → option string → M unit.

(** X10. [include] on an empty token list does nothing. When the first
    token is [<] and no [>] follows, it prints
    [Malformed #include <...>]; when the line holds no identifier and
    starts with a token that is neither [<] nor a string, it prints
    [Malformed #include statement]. In both cases the message carries
    the source and line of the first token, and no file is opened. *)
Theorem include_malformed (fuel : nat) (r0 : ref) (rest : list ref) (s : state)
    (src : option string) :
  source (tok (heap s) r0) = Some src →
  include fs fuel rec [] s = Ok tt s
  ∧ (value (tok (heap s) r0) = "<" →
     Forall (fun r => value (tok (heap s) r) ≠ ">") rest →
     include fs fuel rec (r0 :: rest) s
     = Ok tt (diagnosed src (lineno (tok (heap s) r0)) "Malformed #include <...>" s))
  ∧ (value (tok (heap s) r0) ≠ "<" →
     ttype (tok (heap s) r0) ≠ t_STRING →
     in_t_WS (tok (heap s) r0) = false →
     Forall (fun r => ttype (tok (heap s) r) ≠ t_ID) (r0 :: rest) →
     ∃ s1, annotated s s1
           ∧ include fs (S (S (length rest)) + fuel) rec (r0 :: rest) s
             = Ok tt (diagnosed src (lineno (tok (heap s) r0))
                                "Malformed #include statement" s1)).
Proof.
  intros Hsrc. split_and!; [done| |].
  - intros Hlt Hno. unfold include. unfold bind at 1. unfold deref at 1.
    rewrite Hlt. simpl. unfold bind, index, deref, get. simpl. rewrite Hlt. simpl.
    rewrite find_gt_none by done.
    unfold error_at, get_source, bind. by rewrite Hsrc.
  - intros Hlt Hstr Hws Hplain.
    destruct (expand_macros_passes (r0 :: rest) [] fuel s) as (s1 & Hrun & Hann).
    { eapply Forall_impl; [exact Hplain|]. intros r. apply not_identifier_inert. }
    exists s1. split; [done|].
    destruct Hann as (_ & Hview & _).
    assert (Htok : ∀ r, ttype (tok (heap s1) r) = ttype (tok (heap s) r)
                        ∧ value (tok (heap s1) r) = value (tok (heap s) r)
                        ∧ lineno (tok (heap s1) r) = lineno (tok (heap s) r)
                        ∧ source (tok (heap s1) r) = source (tok (heap s) r)).
    { intros r. specialize (Hview r). unfold erase in Hview.
      by injection Hview as -> -> -> ->. }
    destruct (Htok r0) as (Hty1 & Hval1 & Hln1 & Hsrc1).
    destruct (tokenstrip_head (tok (heap s1)) r0 rest) as [l' Hstrip].
    { unfold is_ws, in_t_WS. rewrite Hty1. exact Hws. }
    unfold include. unfold bind at 1. unfold deref at 1.
    rewrite (proj2 (String.eqb_neq _ _) Hlt), (proj2 (String.eqb_neq _ _) Hstr).
    simpl negb. simpl andb. cbv iota.
    unfold bind at 1. unfold bind at 1.
    change (S (S (length rest)) + fuel)%nat with (S (length (r0 :: rest)) + fuel)%nat.
    rewrite Hrun. unfold bind at 1. unfold get at 1. unfold ret at 1.
    rewrite Hstrip. unfold bind, index, deref, get. simpl.
    rewrite Hval1, Hty1.
    rewrite (proj2 (String.eqb_neq _ _) Hlt), (proj2 (String.eqb_neq _ _) Hstr).
    unfold error_at, get_source, bind. by rewrite Hsrc1, Hsrc, Hln1.
Qed.
End MalformedInclude.

(** [<stdio], as in [#include <stdio]. *)
Definition open_bracket_state : state :=
  with_heap [Token "<" "<" 5 (Some (Some "t.c")) None;
             Token t_ID "stdio" 5 (Some (Some "t.c")) None] empty_state.

Lemma include_malformed_witness :
  ∃ s', include (fun _ => None) 1 (fun _ _ => ret tt) [0; 1]%nat open_bracket_state
        = Ok tt s'
        ∧ stdout s' = ["t.c:5 Malformed #include <...>"]
        ∧ opens s' = [].
Proof.
  eexists. split.
  - apply (proj1 (proj2 (include_malformed (fun _ => None) (fun _ _ => ret tt) 1
                           0%nat [1%nat] open_bracket_state (Some "t.c") eq_refl)));
      [reflexivity|]. by repeat constructor.
  - split; [by vm_compute|reflexivity].
Defined.

(** ** The macro __FILE__ around an #include *)

Lemma flush_macros fuel chunk s s1 :
  flush fuel chunk s = Ok tt s1 → macros s1 = macros s.
Proof.
  unfold flush. intros Hrun. apply bind_Ok_inv in Hrun as (ex & s2 & Hex & Hy).
  unfold yield_all, modify in Hy. injection Hy as <-. simpl.
  pose proof (resp_expand_macros 0 (fun _ => True) (fun _ _ => I) fuel chunk []) as Hresp.
  destruct (respects_Ok _ _ _ _ _ _ _ (Hresp ltac:(by apply Forall_true))
              (Nat.le_0_l _) Hex) as [(_ & Hmac & _) _].
  done.
Qed.

Section FileMacro.
Variable eval : string → option Z.
Variable fs : string → option (list (list token)).
Variable fuel : nat.
Variable rec : list (list token) → option string → M unit.

(** X11. An [#include] line in an enabled region reads the macro
    [__FILE__] before it includes and puts it back after: when the
    directive returns, [__FILE__] is defined as it was before, whatever
    the included file defined; and when [__FILE__] is not defined (after
    [#undef __FILE__]) the directive raises [KeyError] once the pending
    tokens are flushed, before any file is looked for. In a disabled
    region the directive does nothing. *)
Theorem include_keeps_file_macro (args dirtokens : list ref) (p : pstate) (s : state) :
  (enable p = true →
   ∀ p' s', directive eval fs fuel rec "include" args dirtokens p s = Ok p' s' →
            macros s' !! "__FILE__" = macros s !! "__FILE__"
            ∧ is_Some (macros s !! "__FILE__")
            ∧ p' = PState (enable p) (iftrigger p) (ifstack p) [])
  ∧ (enable p = true → macros s !! "__FILE__" = None →
     ∀ s1, flush fuel (chunk p) s = Ok tt s1 →
           directive eval fs fuel rec "include" args dirtokens p s = Raise KeyError s1)
  ∧ (enable p = false →
     directive eval fs fuel rec "include" args dirtokens p s = Ok p s).
Proof.
  unfold directive. simpl. split_and!.
  - intros Hen p' s' Hrun. rewrite Hen in Hrun.
    apply bind_Ok_inv in Hrun as ([] & s1 & Hflush & Hrun).
    apply flush_macros in Hflush.
    apply bind_Ok_inv in Hrun as (s1' & s1'' & Hget & Hrun).
    injection Hget as <- <-. rewrite Hflush in Hrun.
    destruct (macros s !! "__FILE__") as [old|] eqn:Hold;
      [|unfold raise in Hrun; simpl in Hrun; discriminate Hrun].
    apply bind_Ok_inv in Hrun as ([] & s2 & Hinc & Hrun).
    apply bind_Ok_inv in Hrun as ([] & s3 & Hmod & Hrun).
    injection Hmod as <-. injection Hrun as <- <-. simpl.
    rewrite lookup_insert_eq, Hen. by split_and!.
  - intros Hen Hnone s1 Hflush. rewrite Hen. unfold bind at 1. rewrite Hflush.
    apply flush_macros in Hflush. unfold bind, get. by rewrite Hflush, Hnone.
  - by intros ->.
Qed.
End FileMacro.

(** The state after [#undef __FILE__], and the tokens of
    [#include "a.h"]. *)
Definition no_file_state : state :=
  with_heap [Token t_STRING (quote +:+ "a.h" +:+ quote) 2 (Some (Some "t.c")) None]
            empty_state.

Lemma include_keeps_file_macro_witness :
  enable initial_pstate = true
  ∧ macros no_file_state !! "__FILE__" = None
  ∧ flush 1 (chunk initial_pstate) no_file_state = Ok tt no_file_state
  ∧ directive (fun _ => None) (fun _ => None) 1 (fun _ _ => ret tt) "include"
      [0%nat] [0%nat] initial_pstate no_file_state
    = Raise KeyError no_file_state.
Proof.
  assert (Hflush : flush 1 (chunk initial_pstate) no_file_state = Ok tt no_file_state)
    by (by vm_compute).
  split_and!; [reflexivity|reflexivity|exact Hflush|].
  exact (proj1 (proj2 (include_keeps_file_macro (fun _ => None) (fun _ => None) 1
                         (fun _ _ => ret tt) [0%nat] [0%nat] initial_pstate no_file_state))
           eq_refl eq_refl no_file_state Hflush).
Defined.

(** ** The search paths and the output over a run *)

(** However a computation ends: the user's search path is the same, the
    tokens yielded and the file names tried so far are still there, in
    order, and the directories pushed on [temp_path] before are still at
    its end. *)
Definition steady (s s' : state) : Prop :=
  path s' = path s
  ∧ yielded s `prefix_of` yielded s'
  ∧ opens s `prefix_of` opens s'
  ∧ temp_path s `suffix_of` temp_path s'.

(** When it returns, [temp_path] is moreover as it was. *)
Definition settled (s s' : state) : Prop :=
  steady s s' ∧ temp_path s' = temp_path s.

Lemma steady_refl s : steady s s.
Proof. by split_and!. Qed.

Lemma steady_trans s1 s2 s3 : steady s1 s2 → steady s2 s3 → steady s1 s3.
Proof.
  intros (A1 & A2 & A3 & A4) (B1 & B2 & B3 & B4).
  split_and!; [congruence|by etransitivity..].
Qed.

Lemma settled_refl s : settled s s.
Proof. split; [apply steady_refl|done]. Qed.

Lemma settled_trans s1 s2 s3 : settled s1 s2 → settled s2 s3 → settled s1 s3.
Proof. intros [A1 A2] [B1 B2]. split; [by eapply steady_trans|congruence]. Qed.

Lemma settled_same s s' :
  path s' = path s → yielded s' = yielded s → opens s' = opens s →
  temp_path s' = temp_path s → settled s s'.
Proof. intros H1 H2 H3 H4. split; [|done]. split_and!; [done|by rewrite ?H2, ?H3, ?H4..]. Qed.

Definition keeps_paths {A} (m : M A) : Prop :=
  ∀ s, match m s with
       | Ok _ s' => settled s s'
       | Raise _ s' => steady s s'
       | OutOfFuel => True
       end.

Lemma paths_ret {A} (a : A) : keeps_paths (ret a).
Proof. intros s. apply settled_refl. Qed.

Lemma paths_raise {A} (e : exn) : keeps_paths (@raise A e).
Proof. intros s. apply steady_refl. Qed.

Lemma paths_bind {A B} (m : M A) (k : A → M B) :
  keeps_paths m → (∀ a, keeps_paths (k a)) → keeps_paths (bind m k).
Proof.
  intros Hm Hk s. unfold bind. specialize (Hm s).
  destruct (m s) as [a s1|e s1|]; [|done|done].
  specialize (Hk a s1). destruct (k a s1); [| |done].
  - by eapply settled_trans.
  - destruct Hm. by eapply steady_trans.
Qed.

Lemma paths_get : keeps_paths get.
Proof. intros s. apply settled_refl. Qed.

Lemma paths_modify (f : state → state) :
  (∀ s, path (f s) = path s ∧ yielded (f s) = yielded s ∧ opens (f s) = opens s
        ∧ temp_path (f s) = temp_path s) →
  keeps_paths (modify f).
Proof. intros Hf s. simpl. destruct (Hf s) as (H1 & H2 & H3 & H4). by apply settled_same. Qed.

Lemma paths_error file line msg : keeps_paths (error file line msg).
Proof. intros s. by apply settled_same. Qed.

Lemma paths_out_of_fuel {A} : keeps_paths (fun _ : state => @OutOfFuel A).
Proof. by intros s. Qed.

Lemma paths_alloc t : keeps_paths (alloc t).
Proof. intros s. by apply settled_same. Qed.

Lemma paths_alloc_list : keeps_paths alloc_list.
Proof. intros s. by apply settled_same. Qed.

Lemma paths_deref r : keeps_paths (deref r).
Proof. intros s. apply settled_refl. Qed.

Lemma paths_read_list l : keeps_paths (read_list l).
Proof. intros s. apply settled_refl. Qed.

Create HintDb paths discriminated.

#[local] Hint Resolve paths_ret paths_raise paths_get paths_error paths_out_of_fuel
  paths_alloc paths_alloc_list paths_deref paths_read_list : paths.

Ltac paths_step :=
  first
    [ progress intros
    | solve [auto with paths]
    | apply paths_bind
    | apply paths_modify; intros; simpl; split_and!; reflexivity
    | match goal with
      | |- keeps_paths (match ?x with _ => _ end) => destruct x eqn:?
      | |- keeps_paths (let '(_, _) := ?x in _) => destruct x eqn:?
      end ].

Ltac paths_tac := repeat paths_step.

Lemma paths_index {A} (l : list A) i : keeps_paths (index l i).
Proof. unfold index. paths_tac. Qed.

Lemma paths_index_last {A} (l : list A) : keeps_paths (index_last l).
Proof. unfold index_last. paths_tac. Qed.

Lemma paths_assign r f : keeps_paths (assign r f).
Proof. unfold assign. paths_tac. Qed.

Lemma paths_append_list l x : keeps_paths (append_list l x).
Proof. unfold append_list. paths_tac. Qed.

#[local] Hint Resolve paths_index paths_index_last paths_assign paths_append_list : paths.

Lemma paths_copy_token r : keeps_paths (copy_token r).
Proof. unfold copy_token. paths_tac. Qed.
#[local] Hint Resolve paths_copy_token : paths.

Lemma paths_copy_tokens rs : keeps_paths (copy_tokens rs).
Proof. induction rs; simpl; paths_tac. Qed.

Lemma paths_get_source t : keeps_paths (get_source t).
Proof. unfold get_source. paths_tac. Qed.
#[local] Hint Resolve paths_copy_tokens paths_get_source : paths.

Lemma paths_error_at t msg : keeps_paths (error_at t msg).
Proof. unfold error_at. paths_tac. Qed.
#[local] Hint Resolve paths_error_at : paths.

Lemma paths_for_each {A} (f : A → M unit) l :
  (∀ a, keeps_paths (f a)) → keeps_paths (for_each f l).
Proof. intros Hf. induction l; simpl; paths_tac. Qed.

Lemma paths_ensure_expanded_from r : keeps_paths (ensure_expanded_from r).
Proof. unfold ensure_expanded_from. paths_tac. Qed.
#[local] Hint Resolve paths_ensure_expanded_from : paths.

Lemma paths_collect_args {A} (tk : A → token) l ie : keeps_paths (collect_args tk l ie).
Proof. unfold collect_args. paths_tac. Qed.

Lemma paths_stamp t e : keeps_paths (stamp t e).
Proof. unfold stamp. paths_tac. Qed.

Lemma paths_blank_ws r : keeps_paths (blank_ws r).
Proof. unfold blank_ws. paths_tac. Qed.
#[local] Hint Resolve paths_collect_args paths_stamp paths_blank_ws : paths.

Lemma paths_stringize arg : keeps_paths (stringize arg).
Proof. unfold stringize. paths_tac. apply paths_for_each. paths_tac. Qed.
#[local] Hint Resolve paths_stringize : paths.

Lemma paths_apply_str_patch args sp se rep : keeps_paths (apply_str_patch args sp se rep).
Proof. revert se rep. induction sp as [|[argnum i] sp IH]; intros se rep; simpl; paths_tac. Qed.

Lemma paths_mark_commas vcp rep : keeps_paths (mark_commas vcp rep).
Proof. revert rep. induction vcp; intros rep; simpl; paths_tac. Qed.
#[local] Hint Resolve paths_apply_str_patch paths_mark_commas : paths.

Lemma paths_adjust_args m al tokens j tokcount args positions :
  keeps_paths (adjust_args m al tokens j tokcount args positions).
Proof. unfold adjust_args. paths_tac. Qed.
#[local] Hint Resolve paths_adjust_args : paths.

Section ExpandPaths.
Variable em : list ref → list string → M (list ref).
Variable el : list ref → nat → list string → M (list ref).
Hypothesis Hem : ∀ toks ef, keeps_paths (em toks ef).
Hypothesis Hel : ∀ toks i ef, keeps_paths (el toks i ef).

Lemma paths_apply_patch pl args expanded rep :
    keeps_paths (apply_patch em pl args expanded rep).
  Proof.
    revert args expanded rep.
    induction pl as [|[[pt argnum] i] pl IH]; intros args expanded rep; simpl; paths_tac.
  Qed.

Lemma paths_macro_expand_args m args : keeps_paths (macro_expand_args em m args).
  Proof. unfold macro_expand_args. paths_tac; apply paths_apply_patch. Qed.

Lemma paths_expand_step tokens i ef : keeps_paths (expand_step em el tokens i ef).
  Proof.
    pose proof paths_macro_expand_args.
    unfold expand_step, expand_function_like, line_or_next. paths_tac;
      try (apply paths_for_each; paths_tac).
  Qed.
End ExpandPaths.

Lemma paths_expand_loop fuel : ∀ tokens i ef, keeps_paths (expand_loop fuel tokens i ef).
Proof.
  induction fuel as [|fuel IH]; intros tokens i ef; simpl; [paths_tac|].
  apply paths_expand_step; [|done].
  intros toks ef'. paths_tac. apply paths_for_each. paths_tac.
Qed.

Lemma paths_expand_macros fuel tokens ef : keeps_paths (expand_macros fuel tokens ef).
Proof.
  unfold expand_macros. paths_tac; [apply paths_for_each; paths_tac|apply paths_expand_loop].
Qed.
#[local] Hint Resolve paths_expand_macros : paths.

Lemma paths_prescan_loop fuel args v va : ∀ i p,
  keeps_paths (prescan_loop fuel args v va i p).
Proof. induction fuel as [|fuel IH]; intros i p; simpl; paths_tac. Qed.
#[local] Hint Resolve paths_prescan_loop : paths.

Lemma paths_macro_prescan nm v args b : keeps_paths (macro_prescan nm v args b).
Proof. unfold macro_prescan. paths_tac. Qed.
#[local] Hint Resolve paths_macro_prescan : paths.

Lemma paths_define_params nm todo : ∀ done nargs v,
  keeps_paths (define_params nm todo done nargs v).
Proof. induction todo as [|a todo IH]; intros done nargs v; simpl; paths_tac. Qed.

Lemma paths_param_names h args : keeps_paths (param_names h args).
Proof. induction args; simpl; paths_tac. Qed.
#[local] Hint Resolve paths_define_params paths_param_names : paths.

Lemma paths_define tokens : keeps_paths (define tokens).
Proof. unfold define. paths_tac. Qed.

Lemma paths_undef tokens : keeps_paths (undef tokens).
Proof. unfold undef. paths_tac. Qed.
#[local] Hint Resolve paths_define paths_undef : paths.

Lemma paths_defined_scan ti rest : ∀ j np res, keeps_paths (defined_scan ti rest j np res).
Proof. induction rest as [|r rest IH]; intros j np res; simpl; paths_tac. Qed.
#[local] Hint Resolve paths_defined_scan : paths.

Lemma paths_defined_loop n : ∀ tokens i, keeps_paths (defined_loop n tokens i).
Proof. induction n as [|n IH]; intros tokens i; simpl; paths_tac. Qed.

Lemma paths_integerize tokens : keeps_paths (integerize tokens).
Proof. induction tokens; simpl; paths_tac. Qed.
#[local] Hint Resolve paths_defined_loop paths_integerize : paths.

Lemma paths_evalexpr eval fuel tokens : keeps_paths (evalexpr eval fuel tokens).
Proof. unfold evalexpr. paths_tac. Qed.
#[local] Hint Resolve paths_evalexpr : paths.

Lemma paths_yield_all l : keeps_paths (yield_all l).
Proof.
  intros s. simpl. split; [|done]. split_and!; try done. by apply prefix_app_r.
Qed.

Lemma paths_log_open iname :
  keeps_paths (modify (fun s => with_opens (opens s ++ [iname]) s)).
Proof.
  intros s. simpl. split; [|done]. split_and!; try done. by apply prefix_app_r.
Qed.
#[local] Hint Resolve paths_log_open : paths.

Lemma paths_alloc_all l : keeps_paths (alloc_all l).
Proof. induction l; simpl; paths_tac. Qed.

Lemma paths_load_line src l : keeps_paths (load_line src l).
Proof. induction l; simpl; paths_tac. Qed.
#[local] Hint Resolve paths_yield_all paths_alloc_all paths_load_line : paths.

Lemma paths_flush fuel chunk : keeps_paths (flush fuel chunk).
Proof. unfold flush. paths_tac. Qed.
#[local] Hint Resolve paths_flush : paths.

Section EnginePaths.
Variable eval : string → option Z.
Variable fs : string → option (list (list token)).
Variable fuel : nat.
Variable rec : list (list token) → option string → M unit.
Hypothesis Hrec : ∀ lines src, keeps_paths (rec lines src).

Lemma paths_enter_file iname data filename :
  keeps_paths (enter_file rec iname data filename).
Proof.
  unfold enter_file. destruct (String.eqb (os_path_dirname iname) ""); [paths_tac|].
  intros s. unfold bind at 1. unfold modify at 1.
  set (s1 := with_temp_path _ s). unfold bind at 1.
  pose proof (Hrec data (Some filename) s1) as H.
  destruct (rec data (Some filename) s1) as [[] s2|e s2|]; [| |done].
  - destruct H as [(H1 & H2 & H3 & H4) H5]. subst s1. simpl in *.
    unfold bind, get. rewrite H5. simpl. split; [|done].
    split_and!; try done.
  - destruct H as (H1 & H2 & H3 & H4). subst s1. simpl in *.
    split_and!; try done. etransitivity; [|exact H4]. by apply suffix_cons_r.
Qed.

Lemma paths_include_search r0 filename dirs :
  keeps_paths (include_search fs rec r0 filename dirs).
Proof. pose proof paths_enter_file. induction dirs; simpl; paths_tac. Qed.

Lemma paths_include tokens : keeps_paths (include fs fuel rec tokens).
  Proof. pose proof paths_include_search. unfold include. paths_tac. Qed.

Lemma paths_conditional name args dirtokens p :
    keeps_paths (conditional eval fuel name args dirtokens p).
  Proof. unfold conditional. paths_tac. Qed.

Lemma paths_directive name args dirtokens p :
    keeps_paths (directive eval fs fuel rec name args dirtokens p).
  Proof.
    pose proof paths_include. pose proof paths_conditional.
    unfold directive. paths_tac.
  Qed.

Lemma paths_parse_line x p : keeps_paths (parse_line eval fs fuel rec x p).
  Proof. pose proof paths_directive. unfold parse_line. paths_tac. Qed.

Lemma paths_parse_lines src lines : ∀ p,
    keeps_paths (parse_lines eval fs fuel rec src lines p).
  Proof.
    pose proof paths_parse_line.
    induction lines as [|l lines IH]; intros p; simpl; paths_tac.
  Qed.

Lemma paths_parsegen_body lines src :
    keeps_paths (parsegen_body eval fs fuel rec lines src).
  Proof. pose proof paths_parse_lines. unfold parsegen_body. paths_tac. Qed.
End EnginePaths.

Lemma paths_parsegen eval fs fuel depth : ∀ lines src,
  keeps_paths (parsegen eval fs fuel depth lines src).
Proof.
  induction depth as [|depth IH]; intros lines src; simpl; [paths_tac|].
  by apply paths_parsegen_body.
Qed.

(** The directory that [parse] pushes on [temp_path] for a source
    name. *)
Definition parse_dirs (src : option string) : list string :=
  match src with
  | Some f => if String.eqb (os_path_dirname f) "" then [] else [os_path_dirname f]
  | None => []
  end.

(** X12. A run of [parsegen], with every file it includes, never
    changes the search path [path]; when it returns, [temp_path] is as
    it was before, every directory pushed for an included file having
    been removed again; when it is left by an exception, the entries
    [temp_path] had before are still at its end. [parse] adds the
    directory of its source name, when there is one, at the front of
    [temp_path], and leaves it there. *)
Theorem parsegen_search_paths (eval : string → option Z)
    (fs : string → option (list (list token))) (fuel depth : nat)
    (lines : list (list token)) (src : option string) (s : state) :
  match parsegen eval fs fuel depth lines src s with
  | Ok _ s' => path s' = path s ∧ temp_path s' = temp_path s
  | Raise _ s' => path s' = path s ∧ temp_path s `suffix_of` temp_path s'
  | OutOfFuel => True
  end
  ∧ match parse eval fs fuel depth lines src s with
    | Ok _ s' => path s' = path s ∧ temp_path s' = parse_dirs src ++ temp_path s
    | Raise _ s' => path s' = path s ∧ temp_path s `suffix_of` temp_path s'
    | OutOfFuel => True
    end.
Proof.
  split.
  - pose proof (paths_parsegen eval fs fuel depth lines src s) as H.
    destruct (parsegen eval fs fuel depth lines src s) as [a s'|e s'|]; [| |done].
    + by destruct H as [(H1 & _) H2].
    + by destruct H as (H1 & _ & _ & H4).
  - unfold parse.
    set (push := match src with Some _ => _ | None => _ end).
    assert (Hpush : ∃ s1, push s = Ok tt s1 ∧ path s1 = path s
                          ∧ temp_path s1 = parse_dirs src ++ temp_path s).
    { subst push. unfold parse_dirs. destruct src as [f|]; [|by exists s].
      destruct (String.eqb (os_path_dirname f) ""); [by exists s|].
      eexists. split; [reflexivity|done]. }
    destruct Hpush as (s1 & Hrun & Hp & Htp). unfold bind. rewrite Hrun.
    pose proof (paths_parsegen eval fs fuel depth lines src s1) as H.
    destruct (parsegen eval fs fuel depth lines src s1) as [a s'|e s'|]; [| |done].
    + destruct H as [(H1 & _) H2]. split; congruence.
    + destruct H as (H1 & _ & _ & H4). split; [congruence|].
      etransitivity; [|exact H4]. rewrite Htp. by apply suffix_app_r.
Qed.

(** ** write() on blank input *)

(** A whitespace token with a spelling. *)
Definition blank_token (s : state) (r : ref) : Prop :=
  in_t_WS (tok (heap s) r) = true ∧ value (tok (heap s) r) ≠ "".

Lemma write_line_blank (toks : list ref) (w : wstate) (s : state) :
  toks ≠ [] →
  ∃ w', write_line toks true w s = Ok w' s
        ∧ written w' = written w ∧ lastsource w' = lastsource w.
Proof.
  intros Hne. unfold write_line.
  destruct (1 <? length toks)%nat.
  - destruct (last toks) as [t|] eqn:Hlast; [|by apply last_None in Hlast].
    unfold bind, index_last, index, deref, ret. rewrite Hlast. simpl. by eexists.
  - destruct toks as [|r toks]; [done|].
    unfold bind, index, deref, ret. simpl. by eexists.
Qed.

Lemma write_stream_blank (s : state) (stream : list ref) :
  Forall (blank_token s) stream →
  ∀ toks w,
    ∃ w', write_stream stream toks true w s = Ok w' s
          ∧ written w' = written w ∧ lastsource w' = lastsource w.
Proof.
  induction 1 as [|r stream [Hws Hval] _ IH]; intros toks w; cbn [write_stream].
  - destruct toks as [|t toks]; [by exists w|]. by apply write_line_blank.
  - unfold bind at 1. unfold deref at 1.
    destruct (value (tok (heap s) r)) as [|c v] eqn:Hv; [done|].
    unfold bind at 1. unfold first_char at 1. unfold ret at 1.
    destruct (bool_decide (c = newline)).
    + destruct (write_line_blank (toks ++ [r]) w s) as (w1 & Hrun & Hw & Hl).
      { by destruct toks. }
      unfold bind. rewrite Hrun.
      destruct (IH [] w1) as (w' & Hrun' & Hw' & Hl').
      exists w'. split; [done|]. split; congruence.
    + rewrite Hws. apply IH.
Qed.

(** X13. When every token that the parser has yielded and that is not
    ignored is a whitespace token, [write] writes nothing, whatever the
    number of blank lines, and leaves the tokens as they are. *)
Theorem write_blank_input (ignore : list string) (s : state) :
  Forall (blank_token s) (token_stream ignore s) →
  write ignore s = Ok [] s.
Proof.
  intros Hall. unfold write. unfold bind at 1. unfold get at 1.
  destruct (write_stream_blank s _ Hall [] (WState None [] 0 [])) as (w' & Hrun & Hw & _).
  unfold bind. rewrite Hrun. unfold ret. by rewrite Hw.
Qed.

(** A blank line, a line of spaces and a comment line, yielded. *)
Definition blank_output : state :=
  State [lexed t_NEWLINE NL 1; lexed t_SPACE "  " 2; lexed t_NEWLINE NL 2;
         lexed "CPP_COMMENT1" "/* c */" 3; lexed t_NEWLINE NL 3]
        [] ∅ [] [] 0 [] [] [] [0; 1; 2; 3; 4]%nat.

Lemma write_blank_input_witness :
  Forall (blank_token blank_output) (token_stream ["CPP_COMMENT1"] blank_output)
  ∧ write ["CPP_COMMENT1"] blank_output = Ok [] blank_output.
Proof.
  assert (H : Forall (blank_token blank_output) (token_stream ["CPP_COMMENT1"] blank_output)).
  { assert (Hs : token_stream ["CPP_COMMENT1"] blank_output = [0; 1; 2; 4]%nat)
      by (by vm_compute).
    rewrite Hs. repeat constructor; by vm_compute. }
  split; [exact H|]. exact (write_blank_input ["CPP_COMMENT1"] blank_output H).
Defined.

(** ** trigraph() *)

(** [_trigraph_rep]: the character a trigraph [??c] stands for; [None]
    when [c] is not in the class of [_trigraph_pat]. *)
Definition trigraph_rep (c : ascii) : option ascii :=
  if Ascii.eqb c "="%char then Some "#"%char
  else if Ascii.eqb c "/"%char then Some (ascii_of_nat 92)
  else if Ascii.eqb c "'"%char then Some "^"%char
  else if Ascii.eqb c "("%char then Some "["%char
  else if Ascii.eqb c ")"%char then Some "]"%char
  else if Ascii.eqb c "!"%char then Some "|"%char
  else if Ascii.eqb c "<"%char then Some "{"%char
  else if Ascii.eqb c ">"%char then Some "}"%char
  else if Ascii.eqb c "-"%char then Some "~"%char
  else None.

Definition qmark : ascii := "?"%char.

(** [_trigraph_pat.sub(...)]: the matches are found from left to right
    and do not overlap. *)
Fixpoint trigraph_chars (l : list ascii) : list ascii :=
  match l with
  | [] => []
  | a :: l' =>
    match l' with
    | b :: c :: rest =>
      if Ascii.eqb a qmark && Ascii.eqb b qmark then
        match trigraph_rep c with
        | Some r => r :: trigraph_chars rest
        | None => a :: trigraph_chars l'
        end
      else a :: trigraph_chars l'
    | _ => a :: trigraph_chars l'
    end
  end.

Definition trigraph (input : string) : string :=
  string_of_list_ascii (trigraph_chars (list_ascii_of_string input)).

(** No trigraph starts at the head of [l], and none anywhere in [l]. *)
Definition trigraph_at_head (l : list ascii) : bool :=
  match l with
  | a :: b :: c :: _ =>
    Ascii.eqb a qmark && Ascii.eqb b qmark && bool_decide (is_Some (trigraph_rep c))
  | _ => false
  end.

Fixpoint trigraph_free (l : list ascii) : bool :=
  match l with
  | [] => true
  | _ :: l' => negb (trigraph_at_head l) && trigraph_free l'
  end.

Lemma trigraph_rep_image (c r : ascii) :
  trigraph_rep c = Some r → trigraph_rep r = None ∧ r ≠ qmark.
Proof.
  unfold trigraph_rep. intros H.
  repeat match type of H with
         | (if ?b then _ else _) = _ => destruct b
         end; try done; injection H as <-; by vm_compute.
Qed.

Lemma trigraph_chars_skip (a : ascii) (l : list ascii) :
  trigraph_at_head (a :: l) = false →
  trigraph_chars (a :: l) = a :: trigraph_chars l.
Proof.
  cbn [trigraph_chars trigraph_at_head].
  destruct l as [|b [|c rest]]; [done|done|].
  destruct (Ascii.eqb a qmark && Ascii.eqb b qmark); [|done]. simpl.
  destruct (trigraph_rep c); [|done]. intros H.
  by rewrite bool_decide_eq_true_2 in H by (by eexists).
Qed.

Lemma trigraph_chars_match (l : list ascii) :
  trigraph_at_head l = true →
  ∃ c r rest, l = qmark :: qmark :: c :: rest ∧ trigraph_rep c = Some r
              ∧ trigraph_chars l = r :: trigraph_chars rest.
Proof.
  destruct l as [|a [|b [|c rest]]]; try done. cbn [trigraph_at_head trigraph_chars].
  intros H. apply andb_prop in H as [H Hc]. rewrite H.
  apply andb_prop in H as [Ha Hb]. apply Ascii.eqb_eq in Ha, Hb. subst a b.
  apply bool_decide_eq_true in Hc as [r Hr]. rewrite Hr. by exists c, r, rest.
Qed.

Lemma trigraph_chars_head (m : list ascii) (c : ascii) :
  head (trigraph_chars m) = Some c →
  is_Some (trigraph_rep c) ∨ c = qmark →
  head m = Some c.
Proof.
  intros Hhead Hc. destruct (trigraph_at_head m) eqn:Hat.
  - destruct (trigraph_chars_match m Hat) as (c' & r & rest & -> & Hr & Heq).
    rewrite Heq in Hhead. injection Hhead as ->.
    destruct (trigraph_rep_image _ _ Hr) as [Hnone Hq].
    destruct Hc as [[x Hx]|Hx]; congruence.
  - destruct m as [|a m]; [done|]. by rewrite trigraph_chars_skip in Hhead.
Qed.

Lemma trigraph_free_fixed (l : list ascii) :
  trigraph_free l = true → trigraph_chars l = l.
Proof.
  induction l as [|a l IH]; [done|]. cbn [trigraph_free].
  intros [Hat Hfree]%andb_prop. apply negb_true_iff in Hat.
  rewrite trigraph_chars_skip by done. by rewrite IH.
Qed.

Lemma trigraph_skip_free (a : ascii) (l : list ascii) :
  trigraph_at_head (a :: l) = false →
  trigraph_at_head (a :: trigraph_chars l) = false.
Proof.
  intros Hat. destruct (trigraph_at_head (a :: trigraph_chars l)) eqn:Hat'; [|done].
  exfalso.
  destruct (trigraph_chars l) as [|b' [|c' tl]] eqn:Hl; try done.
  cbn [trigraph_at_head] in Hat'.
  apply andb_prop in Hat' as [Hab Hc]. apply andb_prop in Hab as [Ha Hb].
  apply Ascii.eqb_eq in Ha, Hb. subst a b'. apply bool_decide_eq_true in Hc.
  assert (Hh : head l = Some qmark).
  { apply trigraph_chars_head; [by rewrite Hl|by right]. }
  destruct l as [|b l'']; [done|]. injection Hh as ->.
  destruct (trigraph_at_head (qmark :: l'')) eqn:Hat2.
  - destruct (trigraph_chars_match _ Hat2) as (c & r & rest & _ & Hr & Heq).
    rewrite Heq in Hl. injection Hl as -> _.
    by destruct (trigraph_rep_image _ _ Hr).
  - rewrite trigraph_chars_skip in Hl by done. injection Hl as Hl.
    assert (Hh : head l'' = Some c').
    { apply trigraph_chars_head; [by rewrite Hl|by left]. }
    destruct l'' as [|c l'']; [done|]. injection Hh as ->.
    cbn [trigraph_at_head] in Hat. rewrite bool_decide_eq_true_2 in Hat by done.
    by vm_compute in Hat.
Qed.

Lemma trigraph_chars_free (n : nat) : ∀ l,
  (length l ≤ n)%nat → trigraph_free (trigraph_chars l) = true.
Proof.
  induction n as [|n IH]; intros l Hlen.
  - destruct l; [done|simpl in Hlen; lia].
  - destruct l as [|a l]; [done|].
    destruct (trigraph_at_head (a :: l)) eqn:Hat.
    + destruct (trigraph_chars_match _ Hat) as (c & r & rest & Heq & Hr & ->).
      injection Heq as -> ->. simpl in Hlen.
      cbn [trigraph_free]. rewrite IH by lia. rewrite andb_true_r.
      apply negb_true_iff. destruct (trigraph_rep_image _ _ Hr) as [_ Hq].
      destruct (trigraph_chars rest) as [|x [|y tl]]; try done.
      cbn [trigraph_at_head]. rewrite (proj2 (Ascii.eqb_neq r qmark)) by done. done.
    + rewrite trigraph_chars_skip by done. cbn [trigraph_free].
      simpl in Hlen. rewrite IH by lia. rewrite andb_true_r.
      apply negb_true_iff. by apply trigraph_skip_free.
Qed.

(** X14. [trigraph] leaves no trigraph in its result, so that applying
    it twice is the same as applying it once; and the texts it returns
    unchanged are exactly those that hold no trigraph. *)
Theorem trigraph_once (input : string) :
  trigraph_free (list_ascii_of_string (trigraph input)) = true
  ∧ trigraph (trigraph input) = trigraph input
  ∧ (trigraph input = input ↔ trigraph_free (list_ascii_of_string input) = true).
Proof.
  unfold trigraph. rewrite !list_ascii_of_string_of_list_ascii.
  set (l := list_ascii_of_string input).
  pose proof (trigraph_chars_free (length l) l (le_n _)) as Hfree.
  split_and!; [done|by rewrite trigraph_free_fixed|]. split.
  - intros Heq. apply (f_equal list_ascii_of_string) in Heq.
    rewrite list_ascii_of_string_of_list_ascii in Heq. fold l in Heq. by rewrite <-Heq.
  - intros Hl. rewrite trigraph_free_fixed by done. apply string_of_list_ascii_of_string.
Qed.

Example trigraph_sample : trigraph "??=if a ??!??! b ???/" = "#if a || b ?" +:+ backslash.
Proof. reflexivity. Qed.

(** ** group_lines(): continuation lines *)

(** [s.endswith('\\')] and [s[:-1]] *)
Definition ends_with_backslash (s : string) : bool :=
  match last (list_ascii_of_string s) with
  | Some c => Ascii.eqb c (ascii_of_nat 92)
  | None => false
  end.

Definition drop_last (s : string) : string :=
  String.substring 0 (String.length s - 1) s.

(** The [while] loop for one index [i]: [li] is [lines[i]], [after] the
    lines from [j] on. Returns [lines[i]] and these lines as the loop
    leaves them. *)
Fixpoint absorb (li : string) (after : list string) : string * list string :=
  match after with
  | [] => (li, [])
  | lj :: after' =>
    if ends_with_backslash li then
      let r := absorb (drop_last li +:+ lj) after' in (r.1, "" :: r.2)
    else (li, after)
  end.

(** The loop [for i in xrange(len(lines))], on the lines from [i] on;
    [n] counts the iterations left. *)
Fixpoint continue_from (n : nat) (lines : list string) : list string :=
  match n, lines with
  | S n', li :: after =>
    let r := absorb li after in r.1 :: continue_from n' r.2
  | _, _ => lines
  end.

Definition continued_lines (lines : list string) : list string :=
  continue_from (length lines) lines.

Lemma absorb_length li after : length (absorb li after).2 = length after.
Proof.
  revert li. induction after as [|lj after IH]; intros li; simpl; [done|].
  destruct (ends_with_backslash li); simpl; [by rewrite IH|done].
Qed.

Lemma absorb_plain li after :
  ends_with_backslash li = false → absorb li after = (li, after).
Proof. intros H. destruct after; simpl; [done|by rewrite H]. Qed.

(** Either the line that [absorb] returns is complete, or it has
    swallowed every line after it. *)
Lemma absorb_done li after :
  ends_with_backslash (absorb li after).1 = false
  ∨ Forall (fun l => l = "") (absorb li after).2.
Proof.
  revert li. induction after as [|lj after IH]; intros li; simpl; [by right|].
  destruct (ends_with_backslash li) eqn:Hli; simpl; [|by left].
  destruct (IH (drop_last li +:+ lj)) as [H|H]; [by left|right; by constructor].
Qed.

Lemma continue_from_empty n lines :
  Forall (fun l => l = "") lines → continue_from n lines = lines.
Proof.
  revert lines. induction n as [|n IH]; intros lines Hall; [by destruct lines|].
  destruct Hall as [|l lines -> Hall]; [done|]. cbn [continue_from].
  rewrite absorb_plain by done. simpl. by rewrite IH.
Qed.

Lemma continue_from_length n : ∀ lines, length (continue_from n lines) = length lines.
Proof.
  induction n as [|n IH]; intros lines; [by destruct lines|].
  destruct lines as [|li after]; [done|]. cbn [continue_from length].
  by rewrite IH, absorb_length.
Qed.

Lemma continue_from_plain n : ∀ lines,
  Forall (fun l => ends_with_backslash l = false) lines → continue_from n lines = lines.
Proof.
  induction n as [|n IH]; intros lines Hall; [by destruct lines|].
  destruct Hall as [|l lines Hl Hall]; [done|]. cbn [continue_from].
  rewrite absorb_plain by done. simpl. by rewrite IH.
Qed.

Lemma continue_from_complete n : ∀ lines i l,
  (length lines ≤ n)%nat →
  continue_from n lines !! i = Some l →
  ends_with_backslash l = true →
  ∀ j l', (i < j)%nat → continue_from n lines !! j = Some l' → l' = "".
Proof.
  induction n as [|n IH]; intros lines i l Hlen Hi Hl j l' Hij Hj.
  - destruct lines; [done|simpl in Hlen; lia].
  - destruct lines as [|li after]; [done|]. cbn [continue_from] in Hi, Hj.
    simpl in Hlen.
    destruct j as [|j]; [lia|]. simpl in Hj.
    destruct i as [|i]; simpl in Hi.
    + injection Hi as <-.
      destruct (absorb_done li after) as [H|H]; [congruence|].
      rewrite continue_from_empty in Hj by done.
      by apply (proj1 (Forall_lookup _ _) H j l').
    + eapply (IH (absorb li after).2 i l); [rewrite absorb_length; lia|done|done| |exact Hj].
      lia.
Qed.

(** X15. The loop of [group_lines] that joins continuation lines keeps
    the number of lines, so that the lines after a joined one keep
    their numbers; it changes nothing when no line ends with a
    backslash; and after it a line that still ends with a backslash is
    followed by empty lines only. *)
Theorem continued_lines_complete (lines : list string) :
  length (continued_lines lines) = length lines
  ∧ (Forall (fun l => ends_with_backslash l = false) lines →
     continued_lines lines = lines)
  ∧ (∀ i l, continued_lines lines !! i = Some l →
            ends_with_backslash l = true →
            ∀ j l', (i < j)%nat → continued_lines lines !! j = Some l' → l' = "").
Proof.
  unfold continued_lines. split_and!.
  - apply continue_from_length.
  - apply continue_from_plain.
  - intros i l. by apply continue_from_complete.
Qed.

Lemma continued_lines_complete_witness :
  continued_lines ["#define X 1 +\"; "  2\"; "X\"; "Y\"]
  = ["#define X 1 +  2X" +:+ "Y\"; ""; ""; ""]
  ∧ ∀ l', continued_lines ["#define X 1 +\"; "  2\"; "X\"; "Y\"] !! 2%nat = Some l' → l' = "".
Proof.
  split; [reflexivity|]. intros l'.
  apply (proj2 (proj2 (continued_lines_complete ["#define X 1 +\"; "  2\"; "X\"; "Y\"]))
           0%nat ("#define X 1 +  2X" +:+ "Y\")); [reflexivity|reflexivity|lia].
Defined.

(** ** group_lines(): the lines of tokens *)

(** [tok.type in self.t_WS and '\n' in tok.value] *)
Definition ends_line (t : token) : bool := in_t_WS t && has_nl (value t).

(** The loop over the lexer's tokens; the [source] attribute is set
    when the line is loaded ([load_line]). *)
Fixpoint group_tokens (toks : list token) (current_line : list token)
    : list (list token) :=
  match toks with
  | [] => match current_line with [] => [] | _ :: _ => [current_line] end
  | t :: toks' =>
    if ends_line t then (current_line ++ [t]) :: group_tokens toks' []
    else group_tokens toks' (current_line ++ [t])
  end.

(** A line as [group_lines] yields it: it is not empty, and only its
    last token can hold a newline. *)
Definition one_line (l : list token) : Prop :=
  ∃ body t, l = body ++ [t] ∧ Forall (fun x => ends_line x = false) body.

Lemma group_tokens_lines (toks : list token) : ∀ cur,
  Forall (fun x => ends_line x = false) cur →
  concat (group_tokens toks cur) = cur ++ toks
  ∧ Forall one_line (group_tokens toks cur)
  ∧ ∀ i l, (S i < length (group_tokens toks cur))%nat →
           group_tokens toks cur !! i = Some l →
           ∃ t, last l = Some t ∧ ends_line t = true.
Proof.
  induction toks as [|t toks IH]; intros cur Hcur; cbn [group_tokens].
  - destruct cur as [|c cur'].
    + split_and!; [done|constructor|]. intros i l Hi. simpl in Hi. lia.
    + assert (Hlast : ∃ body t, c :: cur' = body ++ [t]).
      { destruct (@exists_last _ (c :: cur')) as (body & t & Heq); [done|]. by exists body, t. }
      destruct Hlast as (body & t & Heq).
      simpl concat. rewrite !app_nil_r. split_and!; [done| |].
      * constructor; [|done]. exists body, t. split; [done|]. rewrite Heq in Hcur.
        by apply Forall_app in Hcur as [Hb _].
      * intros i l Hi. simpl in Hi. lia.
  - destruct (ends_line t) eqn:Ht.
    + destruct (IH [] (Forall_nil_2 _)) as (H1 & H2 & H3).
      simpl. rewrite H1. simpl. rewrite <-app_assoc. split_and!; [done| |].
      * constructor; [|done]. by exists cur, t.
      * intros [|i] l Hi Hl; simpl in *.
        -- injection Hl as <-. exists t. by rewrite last_snoc.
        -- apply (H3 i l); [lia|done].
    + destruct (IH (cur ++ [t])) as (H1 & H2 & H3).
      { apply Forall_app. split; [done|]. by constructor. }
      rewrite H1, <-app_assoc. by split_and!.
Qed.

(** X16. The lines that [group_lines] makes of the lexer's tokens hold
    every token, in order; no line is empty; a token that holds a
    newline is the last of its line, and every line but the last one
    ends with such a token. *)
Theorem group_tokens_complete (toks : list token) :
  concat (group_tokens toks []) = toks
  ∧ Forall one_line (group_tokens toks [])
  ∧ ∀ i l, (S i < length (group_tokens toks []))%nat →
           group_tokens toks [] !! i = Some l →
           ∃ t, last l = Some t ∧ ends_line t = true.
Proof. apply (group_tokens_lines toks []). constructor. Qed.

Lemma group_tokens_complete_witness :
  group_tokens (bare_directive "endif" 1 ++ [lexed t_ID "x" 2]) []
  = [bare_directive "endif" 1; [lexed t_ID "x" 2]]
  ∧ ∃ t, last (bare_directive "endif" 1) = Some t ∧ ends_line t = true.
Proof.
  split; [reflexivity|].
  apply (proj2 (proj2 (group_tokens_complete
                         (bare_directive "endif" 1 ++ [lexed t_ID "x" 2]))) 0%nat);
    [simpl; lia|reflexivity].
Defined.

(** ** The parameters of a function-like macro *)

(** A parameter as the loop of [define] accepts it: one identifier
    token, or the empty parameter of [()]. *)
Definition parameter_ok (nargs : nat) (s : state) (a : list ref) : Prop :=
  (a = [] ∧ nargs = 1%nat) ∨ ∃ a0, a = [a0] ∧ ttype (tok (heap s) a0) = t_ID.

Definition quiet (s s' : state) : Prop :=
  stdout s' = stdout s ∧ return_code s' = return_code s ∧ macros s' = macros s
  ∧ length (heap s') = length (heap s).

(** Every reference of the parameters is a token of the store. *)
Definition allocated (s : state) (args : list (list ref)) : Prop :=
  Forall (Forall (fun r => (r < length (heap s))%nat)) args.

Lemma parameter_ok_assign nargs s r f a :
  (∀ t, ttype t = t_ID → ttype (f t) = t_ID) →
  parameter_ok nargs s a →
  parameter_ok nargs (with_heap (<[r := f (tok (heap s) r)]> (heap s)) s) a.
Proof.
  intros Hf [H|(a0 & -> & Hty)]; [by left|right].
  exists a0. split; [done|]. simpl. rewrite tok_insert.
  case_bool_decide as Hr; [|done]. destruct Hr as [-> _]. by apply Hf.
Qed.

Definition params_post (nm : token) (nargs : nat) (s : state) (n : nat)
    (r : result (option (list (list ref) * bool))) : Prop :=
  match r with
  | Ok (Some (args, _)) s' =>
      quiet s s' ∧ length args = n ∧ Forall (parameter_ok nargs s') args
  | Ok None s' =>
      ∃ src, source nm = Some src
             ∧ stdout s' = stdout s ++ [format_error src (lineno nm)
                   "No more arguments may follow a variadic argument"]
             ∧ return_code s' = return_code s + 1 ∧ macros s' = macros s
  | Raise e s' => quiet s s' ∧ (e = AttributeError ∨ e = IndexError)
  | OutOfFuel => False
  end.

Lemma define_params_outcome nm nargs todo : ∀ done v s,
  allocated s todo →
  Forall (parameter_ok nargs s) done →
  params_post nm nargs s (length done + length todo)
    (define_params nm todo done nargs v s).
Proof.
  induction todo as [|a todo IH]; intros done v s Hal Hdone; cbn [define_params].
  - unfold ret. split; [done|]. split; [simpl; lia|done].
  - destruct v.
    + unfold bind, error_at, get_source, bind, error, modify, ret, raise.
      destruct (source nm) as [src|] eqn:Hsrc; simpl; [by exists src|].
      split; [done|by left].
    + unfold bind at 1. unfold get at 1.
      apply Forall_cons in Hal as [Ha Hal].
      assert (Hnext : ∀ a' v' s1,
                quiet s s1 → Forall (parameter_ok nargs s1) (done ++ [a']) →
                params_post nm nargs s (length done + length (a :: todo))
                  (define_params nm todo (done ++ [a']) nargs v' s1)).
      { intros a' v' s1 (Q1 & Q2 & Q3 & Q4) Hd.
        assert (Hal1 : allocated s1 todo) by (unfold allocated; by rewrite Q4).
        specialize (IH (done ++ [a']) v' s1 Hal1 Hd). unfold params_post in *.
        destruct (define_params nm todo (done ++ [a']) nargs v' s1) as [[[args v'']|] s'|e s'|];
          [| | |done].
        - destruct IH as ((R1 & R2 & R3 & R4) & Hlen & Hall).
          split; [unfold quiet; by rewrite R1, R2, R3, R4|]. split; [|done].
          rewrite Hlen, length_app. simpl. lia.
        - destruct IH as (src & Hs & R1 & R2 & R3). exists src.
          by rewrite R1, R2, R3, Q1, Q2, Q3.
        - destruct IH as ((R1 & R2 & R3 & R4) & He). split; [|done].
          unfold quiet; by rewrite R1, R2, R3, R4. }
      destruct (String.eqb (join ((λ r, value (tok (heap s) r)) <$> a)) "...") eqn:Hdots.
      { unfold bind at 1. unfold index. destruct (a !! 0%nat) as [a0|] eqn:Ha0.
        - unfold ret at 1. unfold bind at 1. unfold assign at 1, modify at 1.
          unfold bind at 1. unfold assign at 1, modify at 1.
          assert (Hlt : (a0 < length (heap s))%nat).
          { eapply Forall_forall in Ha; [exact Ha|]. by eapply list_elem_of_lookup_2. }
          apply Hnext.
          { unfold quiet. cbn [heap with_heap stdout return_code macros].
            by rewrite !length_insert. }
          apply Forall_app. split.
          + eapply Forall_impl; [exact Hdone|]. intros x Hx.
            apply (parameter_ok_assign nargs _ a0 (set_value "__VA_ARGS__")); [done|].
            by apply (parameter_ok_assign nargs _ a0 (set_ttype t_ID)).
          + constructor; [|done]. right. exists a0. split; [done|].
            cbn [heap with_heap]. rewrite !tok_insert, !length_insert.
            rewrite !bool_decide_eq_true_2 by done. done.
        - unfold raise. split; [done|by right]. }
      destruct (String.eqb (last3 (join ((λ r, value (tok (heap s) r)) <$> a))) "..."
                && bool_decide ((λ r, ttype (tok (heap s) r)) <$> a !! 0%nat = Some t_ID))
        eqn:Hvar.
      { apply andb_true_iff in Hvar as [_ Hty]. apply bool_decide_eq_true in Hty.
        unfold bind at 1. unfold index. destruct (a !! 0%nat) as [a0|] eqn:Ha0; [|done].
        simpl in Hty. injection Hty as Hty.
        unfold ret at 1. unfold bind at 1. unfold deref at 1.
        assert (Hlt : (a0 < length (heap s))%nat).
        { eapply Forall_forall in Ha; [exact Ha|]. by eapply list_elem_of_lookup_2. }
        destruct (String.eqb (last3 (value (tok (heap s) a0))) "...").
        - unfold bind at 1. unfold assign at 1, modify at 1.
          apply Hnext.
          { unfold quiet. cbn [heap with_heap stdout return_code macros].
            by rewrite !length_insert. }
          apply Forall_app. split.
          + eapply Forall_impl; [exact Hdone|]. intros x Hx.
            by apply (parameter_ok_assign nargs _ a0 (set_value _)).
          + constructor; [|done]. right. exists a0. split; [done|].
            cbn [heap with_heap]. rewrite !tok_insert.
            rewrite !bool_decide_eq_true_2 by done. done.
        - unfold bind at 1. unfold ret at 1.
          apply Hnext; [done|]. apply Forall_app. split; [done|].
          constructor; [|done]. right. by exists a0. }
      destruct (bool_decide (a = []) && (nargs =? 1)%nat) eqn:Hemp.
      { apply andb_true_iff in Hemp as [He Hn]. apply bool_decide_eq_true in He.
        apply Nat.eqb_eq in Hn. apply Hnext; [done|].
        apply Forall_app. split; [done|]. constructor; [|done]. by left. }
      destruct a as [|a0 [|a1 a]].
      * unfold raise. split; [done|by right].
      * destruct (String.eqb (ttype (tok (heap s) a0)) t_ID) eqn:Hty.
        -- apply String.eqb_eq in Hty. apply Hnext; [done|].
           apply Forall_app. split; [done|]. constructor; [|done]. right. by exists a0.
        -- unfold raise. split; [done|by left].
      * unfold raise. split; [done|by left].
Qed.

(** X17. The loop of [define] over the parameters of a function-like
    macro has three outcomes. When it ends normally nothing was printed
    and every parameter is one identifier token, or the list is the one
    empty parameter of [()]. When a parameter follows the variadic one
    it prints the message about it, once, with the source and line of
    the macro name. A parameter that is not one identifier raises
    [AttributeError] or [IndexError] with nothing printed: the message
    for an invalid parameter is never printed. *)
Theorem define_params_checked (nm : token) (args : list (list ref)) (s : state) :
  allocated s args →
  match define_params nm args [] (length args) false s with
  | Ok (Some (args', _)) s' =>
      stdout s' = stdout s ∧ return_code s' = return_code s
      ∧ length args' = length args
      ∧ Forall (parameter_ok (length args) s') args'
  | Ok None s' =>
      ∃ src, source nm = Some src
             ∧ stdout s' = stdout s ++ [format_error src (lineno nm)
                   "No more arguments may follow a variadic argument"]
             ∧ return_code s' = return_code s + 1
  | Raise e s' =>
      stdout s' = stdout s ∧ return_code s' = return_code s
      ∧ (e = AttributeError ∨ e = IndexError)
  | OutOfFuel => False
  end.
Proof.
  intros Hal.
  pose proof (define_params_outcome nm (length args) args [] false s Hal (Forall_nil_2 _)) as H.
  unfold params_post in H.
  destruct (define_params nm args [] (length args) false s) as [[[args' v]|] s'|e s'|];
    [| | |done].
  - by destruct H as ((R1 & R2 & _) & Hlen & Hall).
  - destruct H as (src & Hs & R1 & R2 & _). by exists src.
  - by destruct H as ((R1 & R2 & _) & He).
Qed.

(** The parameters of [F(a, 1)]: the second one is a number. *)
Definition number_parameter : state :=
  State [lexed t_ID "a" 1; lexed t_INTEGER "1" 1] [] ∅ [] [] 0 [] [] [] [].

Lemma define_params_checked_witness :
  allocated number_parameter [[0]; [1]]%nat
  ∧ match define_params (lexed t_ID "F" 1) [[0]; [1]]%nat [] 2 false number_parameter with
    | Raise e s' =>
        stdout s' = [] ∧ return_code s' = 0 ∧ (e = AttributeError ∨ e = IndexError)
    | _ => False
    end.
Proof.
  assert (H : allocated number_parameter [[0]; [1]]%nat).
  { unfold allocated. repeat constructor; simpl; lia. }
  split; [exact H|].
  exact (define_params_checked (lexed t_ID "F" 1) [[0]; [1]]%nat number_parameter H).
Defined.

(** ** Directives that the parser does not know *)

(** The names that [parsegen] compares the name of a directive with. *)
Definition directive_names : list string :=
  ["define"; "include"; "undef"; "ifdef"; "ifndef"; "if"; "elif"; "else"; "endif"].

(** [name], from the tokens after the [#]: the value of the first token
    of the stripped list, the empty string when nothing is left. *)
Definition directive_name (tail : list token) : string :=
  match tokenstrip id tail with
  | d :: _ => value d
  | [] => ""
  end.

Lemma lstrip_fmap {A B} (tk : B → token) (f : A → B) (l : list A) :
  lstrip tk (f <$> l) = f <$> lstrip (fun a => tk (f a)) l.
Proof.
  induction l as [|a l IH]; [done|]. simpl. unfold is_ws.
  by destruct (in_t_WS (tk (f a))).
Qed.

Lemma tokenstrip_fmap {A B} (tk : B → token) (f : A → B) (l : list A) :
  tokenstrip tk (f <$> l) = f <$> tokenstrip (fun a => tk (f a)) l.
Proof.
  unfold tokenstrip. by rewrite lstrip_fmap, <-fmap_reverse, lstrip_fmap, <-fmap_reverse.
Qed.

Lemma lstrip_ext {A} (tk tk' : A → token) (l : list A) :
  (∀ a, in_t_WS (tk a) = in_t_WS (tk' a)) → lstrip tk l = lstrip tk' l.
Proof.
  intros H. induction l as [|a l IH]; [done|]. simpl. unfold is_ws. rewrite H.
  by destruct (in_t_WS (tk' a)).
Qed.

Lemma tokenstrip_ext {A} (tk tk' : A → token) (l : list A) :
  (∀ a, in_t_WS (tk a) = in_t_WS (tk' a)) → tokenstrip tk l = tokenstrip tk' l.
Proof.
  intros H. unfold tokenstrip.
  by rewrite (lstrip_ext tk tk' l H), (lstrip_ext tk tk' _ H).
Qed.

Lemma skip_ws_pre {A} (tk : A → token) (pre : list A) (a : A) (l : list A) (i : nat) :
  Forall (fun b => is_ws tk b = true) pre → is_ws tk a = false →
  skip_ws tk (pre ++ a :: l) i = (i + length pre)%nat.
Proof.
  intros Hpre Ha. revert i. induction Hpre as [|b pre Hb _ IH]; intros i; simpl.
  - rewrite Ha. lia.
  - rewrite Hb, IH. lia.
Qed.

Lemma skip_ws_fmap {A B} (tk : B → token) (f : A → B) (l : list A) (i : nat) :
  skip_ws tk (f <$> l) i = skip_ws (fun a => tk (f a)) l i.
Proof.
  revert i. induction l as [|a l IH]; intros i; [done|]. simpl. unfold is_ws.
  by destruct (in_t_WS (tk (f a))).
Qed.

Section UnknownDirectives.
Variable eval : string → option Z.
Variable fs : string → option (list (list token)).
Variable fuel : nat.
Variable rec : list (list token) → option string → M unit.

Lemma directive_unknown name args dirtokens p s :
  name ∉ directive_names →
  directive eval fs fuel rec name args dirtokens p s = Ok p s.
Proof.
  intros Hn. unfold directive, conditional.
  assert (H : ∀ n, n ∈ directive_names → String.eqb name n = false).
  { intros n Hin. apply String.eqb_neq. by intros ->. }
  rewrite !H; [done|..]; unfold directive_names; set_solver.
Qed.

(** X18. A line whose first token that is not whitespace is [#], and
    whose directive name is none of the nine names that [parsegen]
    knows ([#error], [#pragma], [#line], [#warning] or a [#] alone,
    for instance), is passed over in enabled and in disabled regions
    alike: nothing is printed, no macro is defined or expanded, the
    state of the conditionals is as before; only the whitespace tokens
    of the line that hold a newline are added to the pending tokens. *)
Theorem unknown_directive (src : option string) (pre : list token) (pound : token)
    (tail : list token) (rest : list (list token)) (p : pstate) (s : state) :
  Forall (fun t => in_t_WS t = true) pre →
  in_t_WS pound = false → value pound = "#" →
  directive_name tail ∉ directive_names →
  let line := pre ++ pound :: tail in
  let s0 := with_heap (heap s ++ (set_source src <$> line)) s in
  parse_lines eval fs fuel rec src (line :: rest) p s
  = parse_lines eval fs fuel rec src rest
      (PState (enable p) (iftrigger p) (ifstack p)
         (chunk p ++ filter (fun r => in_t_WS (tok (heap s0) r)
                                      && has_nl (value (tok (heap s0) r)))
                            (seq (length (heap s)) (length line))))
      s0.
Proof.
  intros Hpre Hpound Hv Hname line s0.
  cbn [parse_lines]. unfold bind at 1. rewrite load_line_spec. fold s0.
  unfold bind at 1. unfold parse_line at 1. unfold bind at 1. unfold get at 1.
  set (x := seq (length (heap s)) (length line)).
  assert (Hx : tok (heap s0) <$> x = set_source src <$> line).
  { subst x s0. cbn [heap with_heap]. rewrite <-(length_fmap (set_source src) line).
    apply tok_copies. }
  assert (Hlen : length x = length line) by (subst x; apply length_seq).
  assert (Hskip : skip_ws (tok (heap s0)) x 0 = length pre).
  { change (skip_ws (tok (heap s0)) x 0)
      with (skip_ws (fun a => id (tok (heap s0) a)) x 0).
    rewrite <-skip_ws_fmap, Hx, skip_ws_fmap.
    apply (skip_ws_pre (fun a => id (set_source src a)) pre pound tail 0); [|done].
    eapply Forall_impl; [exact Hpre|]. by intros t Ht. }
  assert (Hll : length line = (length pre + S (length tail))%nat).
  { subst line. rewrite length_app. simpl. lia. }
  rewrite Hskip, bool_decide_eq_true_2 by lia.
  assert (Hlook : x !! length pre = Some (length (heap s) + length pre)%nat).
  { subst x. apply lookup_seq_lt. lia. }
  rewrite Hlook.
  assert (Hp : tok (heap s0) (length (heap s) + length pre) = set_source src pound).
  { subst s0. cbn [heap with_heap]. apply tok_loaded. rewrite list_lookup_fmap.
    subst line. by rewrite list_lookup_middle. }
  rewrite Hp. cbn [value set_source]. rewrite Hv, String.eqb_refl.
  set (y := drop (S (length pre)) x).
  assert (Hy : tok (heap s0) <$> tokenstrip (tok (heap s0)) y
               = set_source src <$> tokenstrip id tail).
  { change (tokenstrip (tok (heap s0)) y)
      with (tokenstrip (fun a => id (tok (heap s0) a)) y).
    rewrite <-tokenstrip_fmap. subst y. rewrite fmap_drop, Hx, <-fmap_drop.
    subst line. rewrite (cons_middle pound pre tail), app_assoc.
    rewrite drop_app_length'; [|rewrite length_app; simpl; lia].
    rewrite tokenstrip_fmap.
    by rewrite (tokenstrip_ext (fun a => id (set_source src a)) id tail). }
  set (p0 := PState _ _ _ _).
  unfold directive_name in Hname.
  destruct (tokenstrip (tok (heap s0)) y) as [|d D]; cbv beta iota.
  - rewrite directive_unknown; [done|].
    destruct (tokenstrip id tail); [done|discriminate Hy].
  - rewrite directive_unknown; [done|].
    destruct (tokenstrip id tail) as [|t ts]; [discriminate Hy|].
    assert (Hd : tok (heap s0) d = set_source src t) by (by injection Hy).
    by rewrite Hd.
Qed.
End UnknownDirectives.

(** [  #error out of date] in a file [t.c], line 7. *)
Definition error_line : list token :=
  [lexed t_SPACE "  " 7; lexed "CPP_POUND" "#" 7; lexed t_ID "error" 7;
   lexed t_SPACE " " 7; lexed t_ID "out" 7; lexed t_SPACE " " 7; lexed t_ID "of" 7;
   lexed t_SPACE " " 7; lexed t_ID "date" 7; lexed t_NEWLINE NL 7].

Lemma unknown_directive_witness :
  ∃ s', parse_lines (fun _ => None) (fun _ => None) 1 (fun _ _ => ret tt) (Some "t.c")
          [error_line] initial_pstate empty_state
        = Ok (PState true false [] [9%nat]) s'
        ∧ stdout s' = [] ∧ return_code s' = 0 ∧ macros s' = ∅.
Proof.
  assert (Hpre : Forall (fun t => in_t_WS t = true) [lexed t_SPACE "  " 7])
    by (by repeat constructor).
  assert (Hname : directive_name (drop 2 error_line) ∉ directive_names)
    by (apply (bool_decide_unpack _); vm_compute; exact I).
  eexists. split.
  - exact (unknown_directive (fun _ => None) (fun _ => None) 1 (fun _ _ => ret tt)
             (Some "t.c") [lexed t_SPACE "  " 7] (lexed "CPP_POUND" "#" 7)
             (drop 2 error_line) [] initial_pstate empty_state
             Hpre eq_refl eq_refl Hname).
  - by vm_compute.
Defined.

(** ** The text that evalexpr() hands to eval *)

(** The text that stands for a token in the expression: [0L] for an
    identifier, the digits of an integer without its suffix, the value
    of any other token. [None]: the integer holds no hexadecimal digit. *)
Definition expr_text (t : token) : option string :=
  if String.eqb (ttype t) t_ID then Some "0L"
  else if String.eqb (ttype t) t_INTEGER then strip_suffix (value t)
  else Some (value t).

(** The operand of an expression that neither loop of [evalexpr]
    replaces: a token of the store that is not the identifier
    [defined]. *)
Definition operand (s : state) (r : ref) : Prop :=
  (r < length (heap s))%nat
  ∧ ¬ (ttype (tok (heap s) r) = t_ID ∧ value (tok (heap s) r) = "defined").

(** From [s] to [s'] tokens were added and nothing else has changed. *)
Definition extended (s s' : state) : Prop :=
  (∃ l, heap s' = heap s ++ l)
  ∧ macros s' = macros s ∧ stdout s' = stdout s ∧ return_code s' = return_code s.

Lemma extended_refl s : extended s s.
Proof. split; [exists []; by rewrite app_nil_r|done]. Qed.

Lemma extended_trans s1 s2 s3 : extended s1 s2 → extended s2 s3 → extended s1 s3.
Proof.
  intros ((l1 & H1) & A1 & A2 & A3) ((l2 & H2) & B1 & B2 & B3).
  split; [exists (l1 ++ l2); by rewrite H2, H1, app_assoc|].
  split_and!; congruence.
Qed.

Lemma extended_tok s s' r :
  extended s s' → (r < length (heap s))%nat → tok (heap s') r = tok (heap s) r.
Proof.
  intros ((l & H) & _) Hr. unfold tok. rewrite H. by rewrite lookup_app_l.
Qed.

Lemma extended_length s s' : extended s s' → (length (heap s) ≤ length (heap s'))%nat.
Proof. intros ((l & H) & _). rewrite H, length_app. lia. Qed.

Lemma defined_loop_none (s : state) (tokens : list ref) : ∀ n i,
  Forall (operand s) tokens →
  defined_loop n tokens i s = Ok tokens s.
Proof.
  induction n as [|n IH]; intros i Hall; cbn [defined_loop]; [done|].
  destruct (tokens !! i) as [r|] eqn:Hr; [|done].
  unfold bind at 1. unfold deref at 1.
  assert (Hop : operand s r).
  { eapply Forall_forall in Hall; [exact Hall|]. by eapply list_elem_of_lookup_2. }
  destruct Hop as [_ Hnd].
  destruct (String.eqb (ttype (tok (heap s) r)) t_ID
            && String.eqb (value (tok (heap s) r)) "defined") eqn:Hd.
  - apply andb_true_iff in Hd as [H1 H2]. apply String.eqb_eq in H1, H2. tauto.
  - by apply IH.
Qed.

(** One token of the loop after the expansion. *)
Definition integerize_one (r : ref) : M ref :=
  t <- deref r ;;
  if String.eqb (ttype t) t_ID then
    c <- copy_token r ;;
    assign c (set_ttype t_INTEGER) ;;;
    assign c (set_value "0L") ;;;
    ret c
  else if String.eqb (ttype t) t_INTEGER then
    c <- copy_token r ;;
    match strip_suffix (value t) with
    | Some v => assign c (set_value v) ;;; ret c
    | None => raise IndexError
    end
  else ret r.

Lemma integerize_one_text s r txt :
  (r < length (heap s))%nat →
  expr_text (tok (heap s) r) = Some txt →
  ∃ c s', integerize_one r s = Ok c s' ∧ extended s s'
          ∧ (c < length (heap s'))%nat
          ∧ value (tok (heap s') c) = txt
          ∧ source (tok (heap s') c) = source (tok (heap s) r)
          ∧ lineno (tok (heap s') c) = lineno (tok (heap s) r).
Proof.
  intros Hr Htxt. unfold expr_text in Htxt. unfold integerize_one.
  unfold bind at 1. unfold deref at 1.
  destruct (String.eqb (ttype (tok (heap s) r)) t_ID).
  - injection Htxt as <-.
    unfold bind, copy_token, deref, alloc, assign, modify, ret, bind. simpl.
    eexists _, _. split; [reflexivity|]. simpl.
    rewrite !length_insert, !length_app. simpl.
    split_and!.
    + split; [|done]. simpl. eexists. rewrite list_insert_insert_eq.
      rewrite insert_app_r_alt by lia. rewrite Nat.sub_diag. reflexivity.
    + lia.
    + rewrite !tok_insert, !length_insert, !length_app. simpl.
      rewrite !bool_decide_eq_true_2 by (split; [done|lia]). done.
    + rewrite !tok_insert, !length_insert, !length_app. simpl.
      rewrite !bool_decide_eq_true_2 by (split; [done|lia]). simpl.
      rewrite <-(Nat.add_0_r (length (heap s))). by rewrite tok_app_r.
    + rewrite !tok_insert, !length_insert, !length_app. simpl.
      rewrite !bool_decide_eq_true_2 by (split; [done|lia]). simpl.
      rewrite <-(Nat.add_0_r (length (heap s))). by rewrite tok_app_r.
  - destruct (String.eqb (ttype (tok (heap s) r)) t_INTEGER).
    + rewrite Htxt.
      unfold bind, copy_token, deref, alloc, assign, modify, ret, bind. simpl.
      eexists _, _. split; [reflexivity|]. simpl.
      rewrite !length_insert, !length_app. simpl.
      split_and!.
      * split; [|done]. simpl. eexists.
        rewrite insert_app_r_alt by lia. rewrite Nat.sub_diag. reflexivity.
      * lia.
      * rewrite !tok_insert, !length_app. simpl.
        rewrite !bool_decide_eq_true_2 by (split; [done|lia]). done.
      * rewrite !tok_insert, !length_app. simpl.
        rewrite !bool_decide_eq_true_2 by (split; [done|lia]). simpl.
        rewrite <-(Nat.add_0_r (length (heap s))). by rewrite tok_app_r.
      * rewrite !tok_insert, !length_app. simpl.
        rewrite !bool_decide_eq_true_2 by (split; [done|lia]). simpl.
        rewrite <-(Nat.add_0_r (length (heap s))). by rewrite tok_app_r.
    + injection Htxt as <-. unfold ret. exists r, s.
      split; [done|]. split; [apply extended_refl|]. done.
Qed.

Lemma integerize_cons r tokens s :
  integerize (r :: tokens) s
  = (c <- integerize_one r ;; cs <- integerize tokens ;; ret (c :: cs)) s.
Proof.
  cbn [integerize]. unfold integerize_one, bind, deref.
  destruct (String.eqb (ttype (tok (heap s) r)) t_ID); [done|].
  destruct (String.eqb (ttype (tok (heap s) r)) t_INTEGER); [|done].
  destruct (copy_token r s); [|done|done].
  destruct (strip_suffix (value (tok (heap s) r))); done.
Qed.

Lemma integerize_text tokens : ∀ texts s,
  Forall (fun r => (r < length (heap s))%nat) tokens →
  Forall2 (fun r txt => expr_text (tok (heap s) r) = Some txt) tokens texts →
  ∃ res s', integerize tokens s = Ok res s' ∧ extended s s'
            ∧ values_of s' res = texts
            ∧ Forall2 (fun r c => source (tok (heap s') c) = source (tok (heap s) r)
                                  ∧ lineno (tok (heap s') c) = lineno (tok (heap s) r))
                      tokens res.
Proof.
  induction tokens as [|r tokens IH]; intros texts s Hal Htx.
  - inversion Htx; subst. exists [], s. split; [done|]. split; [apply extended_refl|done].
  - inversion Htx as [|? txt ? texts' Hr Htx']; subst.
    inversion Hal as [|? ? Hlt Hal']; subst.
    destruct (integerize_one_text s r txt Hlt Hr)
      as (c & s1 & Hone & Hext & Hc & Hval & Hsrc & Hline).
    destruct (IH texts' s1) as (res & s' & Hrun & Hext' & Hvals & Hall).
    { eapply Forall_impl; [exact Hal'|]. intros x Hx. simpl in Hx.
      pose proof (extended_length s s1 Hext). lia. }
    { clear -Htx' Hal' Hext. induction Htx' as [|x t xs ts Hx _ IH']; [done|].
      inversion Hal' as [|? ? Hlt Hal'']; subst.
      constructor; [|by apply IH']. by rewrite (extended_tok s s1 x Hext Hlt). }
    exists (c :: res), s'. rewrite integerize_cons. unfold bind. rewrite Hone, Hrun.
    split; [done|]. split; [by eapply extended_trans|].
    split.
    + unfold values_of in *. rewrite fmap_cons, Hvals.
      by rewrite (extended_tok s1 s' c Hext' Hc), Hval.
    + constructor.
      * by rewrite (extended_tok s1 s' c Hext' Hc).
      * clear -Hall Hal' Hext. induction Hall as [|x y xs ys Hxy _ IH']; [done|].
        inversion Hal' as [|? ? Hlt Hal'']; subst.
        constructor; [|by apply IH']. by rewrite <-(extended_tok s s1 x Hext Hlt).
Qed.

Lemma annotated_view s s' r :
  annotated s s' →
  ttype (tok (heap s') r) = ttype (tok (heap s) r)
  ∧ value (tok (heap s') r) = value (tok (heap s) r)
  ∧ lineno (tok (heap s') r) = lineno (tok (heap s) r)
  ∧ source (tok (heap s') r) = source (tok (heap s) r).
Proof.
  intros (_ & Hview & _). specialize (Hview r). unfold erase in Hview.
  by injection Hview as -> -> -> ->.
Qed.

(** The run of [evalexpr] up to the call of [eval]. *)
Lemma evalexpr_operands eval fuel tokens texts s :
  Forall (operand s) tokens →
  Forall (inert s) tokens →
  Forall2 (fun r txt => expr_text (tok (heap s) r) = Some txt) tokens texts →
  ∃ res s2,
    evalexpr eval (S (length tokens) + fuel) tokens s
    = match eval (rewrite_operators (join texts)) with
      | Some result => Ok result s2
      | None =>
        (r <- index res 0 ;; t <- deref r ;;
         error_at t "Couldn't evaluate expression" ;;; ret 0) s2
      end
    ∧ macros s2 = macros s ∧ stdout s2 = stdout s ∧ return_code s2 = return_code s
    ∧ Forall2 (fun r c => source (tok (heap s2) c) = source (tok (heap s) r)
                          ∧ lineno (tok (heap s2) c) = lineno (tok (heap s) r))
              tokens res.
Proof.
  intros Hop Hin Htx.
  destruct (expand_macros_passes tokens [] fuel s Hin) as (s1 & Hexp & Hann).
  destruct (integerize_text tokens texts s1) as (res & s2 & Hint & Hext & Hvals & Hall).
  { destruct Hann as (Hlen & _). eapply Forall_impl; [exact Hop|].
    intros r [Hr _]. simpl. by rewrite Hlen. }
  { clear -Htx Hann. induction Htx as [|r t rs ts Hr _ IH]; [done|].
    constructor; [|exact IH]. unfold expr_text in *.
    destruct (annotated_view s s1 r Hann) as (-> & -> & _). exact Hr. }
  exists res, s2. split.
  - unfold evalexpr. unfold bind at 1. rewrite defined_loop_none by done.
    unfold bind at 1. rewrite Hexp. unfold bind at 1. rewrite Hint.
    unfold bind at 1. unfold get at 1. rewrite Hvals.
    by destruct (eval (rewrite_operators (join texts))).
  - pose proof Hann as (_ & _ & Hmac & Hout & Hrc & _).
    destruct Hext as (_ & Hmac' & Hout' & Hrc').
    split_and!; [congruence..|].
    clear -Hall Hann.
    induction Hall as [|x y xs ys [H1 H2] _ IH]; [done|].
    constructor; [|exact IH].
    destruct (annotated_view s s1 x Hann) as (_ & _ & H3 & H4). by rewrite H1, H2, H3, H4.
Qed.

(** X19. On a token list without the operator [defined] and without a
    macro name, [evalexpr] hands to [eval] the values of the tokens
    joined, with [0L] for every identifier and with the suffix of every
    integer removed, after the rewriting of [&&], [||] and [!]. When
    [eval] returns a value, that is the result and nothing is printed.
    When [eval] fails the result is 0 and [Couldn't evaluate expression]
    is printed with the source and line of the first token; on an empty
    list there is no first token and the failure of [eval] ends in an
    [IndexError]. *)
Theorem evalexpr_text (eval : string → option Z) (fuel : nat) (tokens : list ref)
    (texts : list string) (s : state) :
  Forall (operand s) tokens →
  Forall (inert s) tokens →
  Forall2 (fun r txt => expr_text (tok (heap s) r) = Some txt) tokens texts →
  let expr := rewrite_operators (join texts) in
  let run := evalexpr eval (S (length tokens) + fuel) tokens s in
  (∀ v, eval expr = Some v →
        ∃ s', run = Ok v s' ∧ macros s' = macros s ∧ stdout s' = stdout s
              ∧ return_code s' = return_code s)
  ∧ (eval expr = None →
     match tokens with
     | [] => ∃ s', run = Raise IndexError s'
     | r :: _ =>
       ∀ file, source (tok (heap s) r) = Some file →
         ∃ s', run = Ok 0 s' ∧ macros s' = macros s
               ∧ stdout s' = stdout s ++ [format_error file (lineno (tok (heap s) r))
                                            "Couldn't evaluate expression"]
               ∧ return_code s' = return_code s + 1
     end).
Proof.
  intros Hop Hin Htx expr run.
  destruct (evalexpr_operands eval fuel tokens texts s Hop Hin Htx)
    as (res & s2 & Hrun & Hmac & Hout & Hrc & Hall).
  fold expr in Hrun. fold run in Hrun. split.
  - intros v Hv. rewrite Hv in Hrun. by exists s2.
  - intros Hnone. rewrite Hnone in Hrun.
    destruct Hall as [|r c rs cs [Hsrc Hline] _].
    + exists s2. by rewrite Hrun.
    + intros file Hfile. rewrite Hrun.
      unfold bind, index, deref, error_at, get_source, bind, error, modify, ret. simpl.
      rewrite Hsrc, Hfile. simpl. eexists. split; [reflexivity|]. simpl.
      by rewrite Hline, Hmac, Hout, Hrc.
Qed.

(** The tokens of [FOO > 2uL] in a file [t.c], line 5; no macro is
    defined. *)
Definition undefined_operand : state :=
  State (set_source (Some "t.c") <$>
           [lexed t_ID "FOO" 5; lexed t_SPACE " " 5; lexed "CPP_GREATER" ">" 5;
            lexed t_SPACE " " 5; lexed t_INTEGER "2uL" 5])
        [] ∅ [] [] 0 [] [] [] [].

Lemma evalexpr_text_witness :
  ∃ s', evalexpr (fun e => if String.eqb e "0L > 2" then None else Some 1) 6
          [0; 1; 2; 3; 4]%nat undefined_operand = Ok 0 s'
        ∧ stdout s' = ["t.c:5 Couldn't evaluate expression"].
Proof.
  assert (Hop : Forall (operand undefined_operand) [0; 1; 2; 3; 4]%nat).
  { repeat constructor; simpl; try lia; by intros [? ?]. }
  assert (Hin : Forall (inert undefined_operand) [0; 1; 2; 3; 4]%nat).
  { constructor; [intros _; split; [reflexivity|by vm_compute]|].
    repeat (constructor; [by intros Hid|]). constructor. }
  assert (Htx : Forall2 (fun r txt => expr_text (tok (heap undefined_operand) r) = Some txt)
                        [0; 1; 2; 3; 4]%nat ["0L"; " "; ">"; " "; "2"]).
  { repeat constructor. }
  destruct (proj2 (evalexpr_text (fun e => if String.eqb e "0L > 2" then None else Some 1)
                     0 [0; 1; 2; 3; 4]%nat ["0L"; " "; ">"; " "; "2"] undefined_operand
                     Hop Hin Htx) eq_refl (Some "t.c") eq_refl)
    as (s' & Hrun & _ & Hout & _).
  exists s'. split; [exact Hrun|]. rewrite Hout. by vm_compute.
Defined.

(** ** Invocations that expand_macros() leaves in place *)

(** The names a token was expanded through: the list behind its
    [expanded_from] attribute, empty while the attribute is missing. *)
Definition marks (s : state) (r : ref) : list string :=
  match expanded_from (tok (heap s) r) with
  | Some l => default [] (lists s !! l)
  | None => []
  end.

Lemma ensure_expanded_from_marks r' s :
  ∃ s', ensure_expanded_from r' s = Ok tt s' ∧ annotated s s'
        ∧ (∀ r, marks s' r = marks s r)
        ∧ ((r' < length (heap s))%nat → is_Some (expanded_from (tok (heap s') r')))
        ∧ (∀ r, is_Some (expanded_from (tok (heap s) r))
                → is_Some (expanded_from (tok (heap s') r))).
Proof.
  destruct (ensure_expanded_from_annotated r' s) as (s' & Hrun & Hann).
  exists s'. split; [done|]. split; [done|].
  revert Hrun. unfold ensure_expanded_from, bind, deref.
  destruct (expanded_from (tok (heap s) r')) as [l|] eqn:Hef.
  - unfold ret. intros [= <-]. split; [done|]. split; [by rewrite Hef|done].
  - unfold alloc_list, assign, modify. simpl. intros [= <-]. split_and!.
    + intros r. unfold marks. simpl. rewrite tok_insert.
      case_bool_decide as Hr.
      * destruct Hr as [-> _]. simpl. rewrite Hef.
        rewrite lookup_app_r by lia. by rewrite Nat.sub_diag.
      * destruct (expanded_from (tok (heap s) r)) as [l|]; [|done].
        destruct (decide (l < length (lists s))%nat) as [Hl|Hl].
        -- by rewrite lookup_app_l.
        -- rewrite (proj2 (lookup_ge_None (lists s) l)) by lia.
           destruct (decide (l = length (lists s))) as [->|Hne].
           ++ rewrite lookup_app_r by lia. by rewrite Nat.sub_diag.
           ++ rewrite (proj2 (lookup_ge_None _ l)); [done|].
              rewrite length_app. simpl. lia.
    + intros Hlt. simpl. rewrite tok_insert, bool_decide_eq_true_2 by done. done.
    + intros r Hr. simpl. rewrite tok_insert. case_bool_decide; [done|done].
Qed.

Lemma init_marks tokens : ∀ s,
  ∃ s', for_each ensure_expanded_from tokens s = Ok tt s' ∧ annotated s s'
        ∧ (∀ r, marks s' r = marks s r)
        ∧ Forall (fun r => (r < length (heap s))%nat
                           → is_Some (expanded_from (tok (heap s') r))) tokens.
Proof.
  induction tokens as [|r tokens IH]; intros s; simpl.
  - exists s. split; [done|]. split; [apply annotated_refl|done].
  - destruct (ensure_expanded_from_marks r s) as (s1 & H1 & A1 & M1 & S1 & K1).
    destruct (IH s1) as (s2 & H2 & A2 & M2 & S2).
    exists s2. unfold bind. rewrite H1. split; [done|].
    split; [by eapply annotated_trans|]. split; [intros x; by rewrite M2, M1|].
    constructor.
    + intros Hlt. specialize (S1 Hlt).
      clear -S1 H2. revert s1 S1 H2. induction tokens as [|x xs IHx]; intros s1 S1 H2.
      * simpl in H2. by injection H2 as <-.
      * simpl in H2. unfold bind in H2.
        destruct (ensure_expanded_from_marks x s1) as (s3 & H3 & _ & _ & _ & K3).
        rewrite H3 in H2. eapply IHx; [|exact H2]. by apply K3.
    + eapply Forall_impl; [exact S2|]. intros x Hx Hlt. apply Hx.
      destruct A1 as (Hlen & _). by rewrite Hlen.
Qed.

Section ViewsAgree.
Context {A : Type} (tk tk' : A → token).
Hypothesis same_value : ∀ a, value (tk a) = value (tk' a).
Hypothesis same_ws : ∀ a, in_t_WS (tk a) = in_t_WS (tk' a).

Lemma skip_ws_ext (l : list A) : ∀ i, skip_ws tk l i = skip_ws tk' l i.
Proof.
  induction l as [|a l IH]; intros i; [done|]. simpl. unfold is_ws.
  rewrite same_ws. by destruct (in_t_WS (tk' a)).
Qed.

Lemma collect_loop_ext (rest : list A) : ∀ i nesting cur args pos,
  collect_loop tk rest i nesting cur args pos
  = collect_loop tk' rest i nesting cur args pos.
Proof.
  induction rest as [|t rest IH]; intros i nesting cur args pos; [done|].
  cbn [collect_loop]. rewrite same_value, !IH.
  by rewrite (tokenstrip_ext tk tk' cur same_ws).
Qed.

Lemma collect_args_ignoring (l : list A) (s s1 s' : state) x :
  collect_args tk l true s = Ok x s1 → collect_args tk' l true s' = Ok x s'.
Proof.
  unfold collect_args. rewrite <-skip_ws_ext.
  destruct (l !! skip_ws tk l 0) as [t|]; [|by intros [= <- _]].
  rewrite <-same_value. destruct (String.eqb (value (tk t)) "("); [|by intros [= <- _]].
  rewrite <-collect_loop_ext.
  destruct (collect_loop tk (drop (S (skip_ws tk l 0)) l) (S (skip_ws tk l 0)) 1 [] [] _);
    by intros [= <- _].
Qed.
End ViewsAgree.

Lemma expand_loop_end fuel tokens i ef s :
  (length tokens ≤ i)%nat → expand_loop (S fuel) tokens i ef s = Ok tokens s.
Proof.
  intros Hi. cbn [expand_loop]. unfold expand_step.
  by rewrite (proj2 (lookup_ge_None _ _) Hi).
Qed.

(** The loop from index [i] on, when the tokens from there on are
    passed over. *)
Lemma expand_loop_tail fuel tokens i ef s :
  Forall (inert s) (drop i tokens) →
  expand_loop (S (length tokens) + fuel) tokens i ef s = Ok tokens s.
Proof.
  intros Hin. destruct (decide (i ≤ length tokens)%nat) as [Hi|Hi].
  - pose proof (expand_loop_plain ef s (drop i tokens) (take i tokens)
                  (fuel + (length tokens - length (drop i tokens))) Hin) as H.
    rewrite take_drop, length_take_le in H by done.
    rewrite <-H. f_equal. rewrite length_drop. lia.
  - apply expand_loop_end. lia.
Qed.

Lemma identifier_allocated (h : list token) (r : ref) :
  ttype (tok h r) = t_ID → (r < length h)%nat.
Proof.
  intros Hty. destruct (decide (r < length h)%nat) as [|Hge]; [done|].
  unfold tok in Hty. rewrite (proj2 (lookup_ge_None h r)) in Hty by lia. done.
Qed.

(** X20. An invocation of a macro without a variadic parameter with
    the wrong number of arguments is not expanded: [expand_macros]
    prints [Macro NAME requires N arguments but was passed M] once, with
    the source and line of the name, and goes on after the closing
    parenthesis; the arguments are skipped with the invocation. With
    nothing to expand after it the token list is returned as it is. *)
Theorem call_arity_diagnosed (fuel : nat) (r lp : ref) (rest : list ref)
    (ef : list string) (s : state) (m : Macro) (al : list string)
    (tokcount : nat) (args : list (list ref)) (pos : list nat) (file : option string) :
  let nm := value (tok (heap s) r) in
  ttype (tok (heap s) r) = t_ID →
  macros s !! nm = Some m → arglist m = Some al → variadic m = false →
  nm ∉ marks s r → nm ∉ ef →
  value (tok (heap s) lp) = "(" → in_t_WS (tok (heap s) lp) = false →
  collect_args (tok (heap s)) (lp :: rest) true s = Ok (tokcount, args, pos) s →
  tokcount ≠ 0%nat →
  args ≠ [[]] ∨ (1 < length al)%nat →
  length args ≠ length al →
  Forall (inert s) (drop tokcount (lp :: rest)) →
  source (tok (heap s) r) = Some file →
  ∃ s1, annotated s s1
        ∧ expand_macros (2 + length (r :: lp :: rest) + fuel) (r :: lp :: rest) ef s
          = Ok (r :: lp :: rest)
               (diagnosed file (lineno (tok (heap s) r))
                  (arity_message nm (length al) (length args)) s1).
Proof.
  intros nm Hid Hmac Hal Hvar Hmarks Hef Hlp Hws Hargs Hcount Hshape Harity Hrest Hfile.
  destruct (init_marks (r :: lp :: rest) s) as (s1 & Hinit & Hann & Hm & Hsome).
  exists s1. split; [done|].
  unfold expand_macros, bind. rewrite Hinit.
  pose proof (annotated_view s s1 r Hann) as (Hty1 & Hv1 & Hl1 & Hs1).
  pose proof (annotated_view s s1 lp Hann) as (Htyp & Hvp & _).
  pose proof Hann as (_ & _ & Hmac1 & _).
  apply Forall_cons in Hsome as [Hr _].
  specialize (Hr (identifier_allocated _ _ Hid)). destruct Hr as [l Hl].
  change (2 + length (r :: lp :: rest) + fuel)%nat
    with (S (S (length (r :: lp :: rest)) + fuel)).
  cbn [expand_loop]. unfold expand_step at 1. cbn [lookup list_lookup].
  unfold bind at 1. unfold deref at 1. rewrite Hty1, Hid, String.eqb_refl.
  unfold bind at 1. unfold get at 1. rewrite Hv1, Hmac1. fold nm. rewrite Hmac.
  rewrite Hl. unfold bind at 1. unfold read_list at 1.
  assert (Hml : default [] (lists s1 !! l) = marks s1 r) by (unfold marks; by rewrite Hl).
  rewrite Hml, Hm. unfold str_in.
  rewrite (bool_decide_eq_false_2 _ Hmarks), (bool_decide_eq_false_2 _ Hef).
  cbn [negb andb]. rewrite Hal.
  assert (Hws1 : in_t_WS (tok (heap s1) lp) = false).
  { unfold in_t_WS in *. by rewrite Htyp. }
  assert (Hargs1 : collect_args (tok (heap s1)) (lp :: rest) true s1
                   = Ok (tokcount, args, pos) s1).
  { eapply (collect_args_ignoring (tok (heap s)) (tok (heap s1))); [| |exact Hargs].
    - intros a. by destruct (annotated_view s s1 a Hann) as (_ & -> & _).
    - intros a. unfold in_t_WS. by destruct (annotated_view s s1 a Hann) as (-> & _). }
  unfold expand_function_like. unfold bind at 1. unfold get at 1.
  cbn [drop skip_ws]. unfold is_ws. rewrite Hws1.
  cbn [length]. rewrite bool_decide_eq_false_2 by lia.
  unfold val_at. cbn [lookup list_lookup fmap option_fmap option_map].
  rewrite Hvp, Hlp. rewrite bool_decide_eq_true_2 by done. cbn [negb orb].
  change (drop 1 (r :: lp :: rest)) with (lp :: rest).
  unfold bind at 1. rewrite Hargs1.
  rewrite (proj2 (Nat.eqb_neq _ _) Hcount), Hvar.
  assert (Hshape' : negb (bool_decide (args = [[]])) || (1 <? length al)%nat = true).
  { destruct Hshape as [Ha|Hl'].
    - by rewrite bool_decide_eq_false_2.
    - rewrite (proj2 (Nat.ltb_lt _ _) Hl'). apply orb_true_r. }
  rewrite Hshape', (proj2 (Nat.eqb_neq _ _) Harity). cbn [negb andb].
  unfold bind at 1. unfold error_at, get_source. rewrite Hs1, Hfile.
  unfold bind at 1. unfold ret at 1. unfold error, modify.
  rewrite Hl1, Hv1. fold nm.
  change (State (heap s1) _ _ _ _ _ _ _ _ _)
    with (diagnosed file (lineno (tok (heap s) r))
            (arity_message nm (length al) (length args)) s1).
  apply (expand_loop_tail fuel (r :: lp :: rest) (1 + tokcount) ef).
  cbn [Nat.add drop].
  eapply Forall_impl; [exact Hrest|]. intros x Hx.
  apply (inert_annotated s s1 x Hann) in Hx. exact Hx.
Qed.

(** [#define F(a) a] and the line [F(1,2)] in a file [t.c]. *)
Definition arity_setup : M (list ref) :=
  d <- load_line (Some "t.c")
         [lexed t_ID "F" 1; lexed "(" "(" 1; lexed t_ID "a" 1; lexed ")" ")" 1;
          lexed t_SPACE " " 1; lexed t_ID "a" 1] ;;
  define d ;;;
  load_line (Some "t.c")
    [lexed t_ID "F" 4; lexed "(" "(" 4; lexed t_INTEGER "1" 4; lexed "," "," 4;
     lexed t_INTEGER "2" 4; lexed ")" ")" 4; lexed t_NEWLINE NL 4].

Definition arity_state : state :=
  match arity_setup empty_state with
  | Ok _ s => s
  | _ => empty_state
  end.

Lemma call_arity_diagnosed_witness :
  ∃ s', expand_macros 9 [6; 7; 8; 9; 10; 11; 12]%nat [] arity_state
        = Ok [6; 7; 8; 9; 10; 11; 12]%nat s'
        ∧ stdout s' = ["t.c:4 Macro F requires 1 arguments but was passed 2"]
        ∧ return_code s' = 1.
Proof.
  edestruct (call_arity_diagnosed 0 6 7 [8; 9; 10; 11; 12]%nat [] arity_state)
    as (s1 & Hann & Hrun).
  - reflexivity.
  - vm_compute. reflexivity.
  - reflexivity.
  - reflexivity.
  - vm_compute. apply not_elem_of_nil.
  - apply not_elem_of_nil.
  - reflexivity.
  - reflexivity.
  - vm_compute. reflexivity.
  - vm_compute. lia.
  - left. vm_compute. discriminate.
  - vm_compute. lia.
  - vm_compute. constructor; [by intros Hid|]. constructor.
  - vm_compute. reflexivity.
  - eexists. split; [exact Hrun|].
    destruct Hann as (_ & _ & _ & Hout & Hrc & _).
    unfold diagnosed. simpl. rewrite Hout, Hrc. split; by vm_compute.
Defined.

(** X21. The name of a macro with parameters that is not followed by an
    opening parenthesis is no invocation: [expand_macros] leaves it in
    place and prints nothing. With nothing to expand after it the token
    list is returned as it is. *)
Theorem uncalled_macro_kept (fuel : nat) (r : ref) (rest : list ref)
    (ef : list string) (s : state) (m : Macro) (al : list string) :
  let nm := value (tok (heap s) r) in
  ttype (tok (heap s) r) = t_ID →
  macros s !! nm = Some m → arglist m = Some al →
  nm ∉ marks s r → nm ∉ ef →
  val_at (heap s) rest (skip_ws (tok (heap s)) rest 0) ≠ Some "(" →
  Forall (inert s) rest →
  ∃ s1, annotated s s1
        ∧ expand_macros (2 + length (r :: rest) + fuel) (r :: rest) ef s
          = Ok (r :: rest) s1.
Proof.
  intros nm Hid Hmac Hal Hmarks Hef Hnext Hrest.
  destruct (init_marks (r :: rest) s) as (s1 & Hinit & Hann & Hm & Hsome).
  exists s1. split; [done|].
  unfold expand_macros, bind. rewrite Hinit.
  pose proof (annotated_view s s1 r Hann) as (Hty1 & Hv1 & _).
  pose proof Hann as (_ & _ & Hmac1 & _).
  apply Forall_cons in Hsome as [Hr _].
  specialize (Hr (identifier_allocated _ _ Hid)). destruct Hr as [l Hl].
  change (2 + length (r :: rest) + fuel)%nat with (S (S (length (r :: rest)) + fuel)).
  cbn [expand_loop]. unfold expand_step at 1. cbn [lookup list_lookup].
  unfold bind at 1. unfold deref at 1. rewrite Hty1, Hid, String.eqb_refl.
  unfold bind at 1. unfold get at 1. rewrite Hv1, Hmac1. fold nm. rewrite Hmac.
  rewrite Hl. unfold bind at 1. unfold read_list at 1.
  assert (Hml : default [] (lists s1 !! l) = marks s1 r) by (unfold marks; by rewrite Hl).
  rewrite Hml, Hm. unfold str_in.
  rewrite (bool_decide_eq_false_2 _ Hmarks), (bool_decide_eq_false_2 _ Hef).
  cbn [negb andb]. rewrite Hal.
  unfold expand_function_like. unfold bind at 1. unfold get at 1.
  change (drop 1 (r :: rest)) with rest.
  assert (Hskip : skip_ws (tok (heap s1)) rest 1 = S (skip_ws (tok (heap s)) rest 0)).
  { rewrite (skip_ws_ext (tok (heap s1)) (tok (heap s))).
    - rewrite !skip_ws_leading. lia.
    - intros a. unfold in_t_WS. by destruct (annotated_view s s1 a Hann) as (-> & _). }
  rewrite Hskip.
  assert (Hval : val_at (heap s1) (r :: rest) (S (skip_ws (tok (heap s)) rest 0))
                 = val_at (heap s) rest (skip_ws (tok (heap s)) rest 0)).
  { unfold val_at. cbn [lookup list_lookup].
    destruct (rest !! skip_ws (tok (heap s)) rest 0) as [x|]; [|done]. simpl.
    by destruct (annotated_view s s1 x Hann) as (_ & -> & _). }
  rewrite Hval, (bool_decide_eq_false_2 _ Hnext). cbn [negb]. rewrite orb_true_r.
  apply (expand_loop_tail fuel (r :: rest) (S (skip_ws (tok (heap s)) rest 0)) ef).
  cbn [drop]. apply Forall_drop.
  eapply Forall_impl; [exact Hrest|]. intros x. by apply inert_annotated.
Qed.

Lemma uncalled_macro_kept_witness :
  ∃ s', expand_macros 5 [6; 12; 8]%nat [] arity_state = Ok [6; 12; 8]%nat s'
        ∧ stdout s' = [].
Proof.
  edestruct (uncalled_macro_kept 0 6 [12; 8]%nat [] arity_state) as (s1 & Hann & Hrun).
  - reflexivity.
  - vm_compute. reflexivity.
  - reflexivity.
  - vm_compute. apply not_elem_of_nil.
  - apply not_elem_of_nil.
  - vm_compute. discriminate.
  - constructor; [by intros Hid|]. constructor; [by intros Hid|]. constructor.
  - exists s1. split; [exact Hrun|].
    destruct Hann as (_ & _ & _ & Hout & _). rewrite Hout. by vm_compute.
Defined.

(** ** define() on a parameter list that is not closed *)

Lemma prescan_loop_no_parameters va s : ∀ fuel i p,
  (length (ps_value p) - i < fuel)%nat →
  prescan_loop fuel [] false va i p s = Ok p s.
Proof.
  induction fuel as [|fuel IH]; intros i p Hfuel; [lia|].
  cbn [prescan_loop].
  destruct (ps_value p !! i) as [r|] eqn:Hr; [|done].
  apply lookup_lt_Some in Hr.
  unfold bind at 1. unfold deref at 1. unfold bind at 1. unfold get at 1.
  unfold str_in. rewrite bool_decide_eq_false_2 by apply not_elem_of_nil.
  rewrite andb_false_r. cbn [andb].
  destruct (String.eqb (value (tok (heap s) r)) "##"); apply IH; lia.
Qed.

Lemma macro_prescan_no_parameters nm v s :
  macro_prescan nm v [] false s = Ok (MkMacro nm v (Some []) false "" [] [] []) s.
Proof.
  unfold macro_prescan. unfold bind at 1. unfold ret at 1.
  unfold bind at 1. rewrite prescan_loop_no_parameters by (simpl; lia). done.
Qed.

(** X22. When the parameter list of a definition is never closed,
    [define] prints [Missing ')' in macro arguments] with the source and
    line of the last token of the line, and still stores the macro: as a
    macro with an empty parameter list whose replacement list is the
    rest of the line from the opening parenthesis on. *)
Theorem define_unclosed_parameters (nr lp : ref) (rest : list ref) (s : state)
    (file : option string) :
  let h := heap s in
  let final := default lp (last rest) in
  in_t_WS (tok h lp) = false → value (tok h lp) = "(" →
  collect_loop (tok h) rest 1 1 [] [] [1%nat] = None →
  source (tok h final) = Some file →
  define (nr :: lp :: rest) s
  = Ok tt (with_macros
             (<[value (tok h nr) :=
                  MkMacro (value (tok h nr))
                          (strip_dpound_ws h (tokenstrip (tok h) (lp :: rest)))
                          (Some []) false "" [] [] []]> (macros s))
             (diagnosed file (lineno (tok h final)) "Missing ')' in macro arguments" s)).
Proof.
  intros h final Hws Hlp Hloop Hfile. unfold define.
  unfold bind at 1. unfold index at 1. cbn [lookup list_lookup]. unfold ret at 1.
  unfold bind at 1. unfold deref at 1. cbn [lookup list_lookup].
  unfold bind at 1. unfold deref at 1. unfold bind at 1. unfold get at 1.
  fold h. rewrite Hws, Hlp, String.eqb_refl.
  change (drop 1 (nr :: lp :: rest)) with (lp :: rest).
  assert (Hlast : last (lp :: rest) = Some final).
  { subst final. rewrite last_cons. by destruct (last rest). }
  assert (Hcoll : collect_args (tok h) (lp :: rest) false s
                  = Ok (0%nat, [], [])
                       (diagnosed file (lineno (tok h final))
                          "Missing ')' in macro arguments" s)).
  { unfold collect_args. cbn [skip_ws]. unfold is_ws. rewrite Hws.
    cbn [lookup list_lookup]. rewrite Hlp, String.eqb_refl.
    change (drop 1 (lp :: rest)) with rest. rewrite Hloop.
    unfold bind, index_last. rewrite Hlast. unfold ret, error_at, get_source, bind.
    rewrite Hfile. done. }
  unfold bind at 1. rewrite Hcoll. cbn [define_params length].
  unfold bind at 1. unfold ret at 1. unfold bind at 1. unfold get at 1.
  rewrite bool_decide_eq_false_2 by done. cbn [param_names].
  unfold bind at 1. unfold ret at 1. unfold bind at 1.
  rewrite macro_prescan_no_parameters. done.
Qed.

(** [F(a, b] as the tokens of [#define F(a, b] in a file [t.c]. *)
Definition unclosed_define : state :=
  with_heap (set_source (Some "t.c") <$>
               [lexed t_ID "F" 2; lexed "(" "(" 2; lexed t_ID "a" 2; lexed "," "," 2;
                lexed t_SPACE " " 2; lexed t_ID "b" 2])
            empty_state.

Lemma define_unclosed_parameters_witness :
  ∃ s', define [0; 1; 2; 3; 4; 5]%nat unclosed_define = Ok tt s'
        ∧ stdout s' = ["t.c:2 Missing ')' in macro arguments"]
        ∧ macros s' !! "F" = Some (MkMacro "F" [1; 2; 3; 4; 5]%nat (Some []) false "" [] [] []).
Proof.
  eexists. split.
  - apply (define_unclosed_parameters 0 1 [2; 3; 4; 5]%nat unclosed_define (Some "t.c"));
      reflexivity.
  - split; by vm_compute.
Defined.
